(** * cf-proxyip-test: the detection pipeline of [start.js]

    A shallow embedding of the request pipeline of [start.js] (the second,
    current revision of the server: rate limiter, response cache, CNAME
    resolver, per-IP detection, the GeoIP lookup and the TLS, WebSocket and
    CDN trace probes, the [/api] handler, the periodic cleanup, the
    identity of the client and the logger), followed by the properties of
    that pipeline.

    Conventions of the embedding:
    - A JavaScript string is a [string], a sequence of bytes.  Text (the
      parameters of the query as the query parser decodes them, the body
      of a response once its chunks are decoded, the messages) is held as
      its UTF-8 bytes, so a character outside ASCII is a sequence of two
      to four bytes, each of them 128 or more; the value of a request
      header, which Node.js decodes as Latin-1, is held as its code units,
      one byte each.
    - Numbers that the code only uses as integers are [Z]; [undefined] is
      [None].
    - [Date.now()] readings, DNS answers and probe outcomes are supplied by
      an environment: the code is deterministic once they are fixed.
    - Process-wide [Map]s ([requestCache], [rateLimitMap]) are [gmap]s that
      are threaded through the functions which read or write them; the
      [visited] set of the resolver is a [gset] threaded the same way,
      because the source shares one mutable [Set] among all nested calls.
    - Network activity is recorded in an effect log, so that statements of
      the form "no DNS query is performed" can be made. *)

From Stdlib Require Import ZArith Lia Ascii String List Bool Sorted.
From stdpp Require Import base strings gmap list pretty.

Local Open Scope string_scope.
Local Open Scope list_scope.
Local Open Scope Z_scope.

(** ** JavaScript string primitives *)

Module Js.

Definition code (c : ascii) : N := N_of_ascii c.

Definition in_range (lo hi : N) (c : ascii) : bool :=
  ((lo <=? code c) && (code c <=? hi))%N.

(** [[0-9]], also [\d]. *)
Definition isDigit (c : ascii) : bool := in_range 48 57 c.
Definition isLower (c : ascii) : bool := in_range 97 122 c.
Definition isUpper (c : ascii) : bool := in_range 65 90 c.
(** [[a-zA-Z0-9]] *)
Definition isAlnum (c : ascii) : bool := isLower c || isUpper c || isDigit c.
(** [[0-9a-fA-F]] *)
Definition isHex (c : ascii) : bool :=
  isDigit c || in_range 97 102 c || in_range 65 70 c.
(** [\w] is [[A-Za-z0-9_]]. *)
Definition isWord (c : ascii) : bool := isAlnum c || (code c =? 95)%N.
(** The white space and line terminators of [String.prototype.trim] among
    the code units 0 to 255, for the value of a header: TAB, LF, VT, FF,
    CR, SP and NBSP. *)
Definition isWhiteSpace (c : ascii) : bool :=
  in_range 9 13 c || ((code c =? 32) || (code c =? 160))%N.

Definition is_char (a : ascii) (c : ascii) : bool := (code a =? code c)%N.

(** [!s], for a string [s]: only the empty string is falsy. *)
Definition falsy (s : string) : bool :=
  match s with EmptyString => true | String _ _ => false end.

Fixpoint forall_chars (p : ascii -> bool) (s : string) : bool :=
  match s with
  | EmptyString => true
  | String c s' => p c && forall_chars p s'
  end.

(** [s.trim() === ""], for the value of a header. *)
Definition trim_is_empty (s : string) : bool := forall_chars isWhiteSpace s.

Fixpoint drop_while (p : ascii -> bool) (s : string) : string :=
  match s with
  | EmptyString => EmptyString
  | String c s' => if p c then drop_while p s' else s
  end.

Fixpoint take_while (p : ascii -> bool) (s : string) : string :=
  match s with
  | EmptyString => EmptyString
  | String c s' => if p c then String c (take_while p s') else EmptyString
  end.

Fixpoint rev_onto (acc s : string) : string :=
  match s with
  | EmptyString => acc
  | String c s' => rev_onto (String c acc) s'
  end.

Definition rev (s : string) : string := rev_onto EmptyString s.

(** [hay.startsWith(pre)], returning the rest of [hay] on success. *)
Fixpoint strip_prefix (pre hay : string) : option string :=
  match pre, hay with
  | EmptyString, _ => Some hay
  | String a pre', String b hay' =>
      if is_char a b then strip_prefix pre' hay' else None
  | String _ _, EmptyString => None
  end.

(** [hay.includes(needle)] *)
Fixpoint includes (needle hay : string) : bool :=
  match strip_prefix needle hay with
  | Some _ => true
  | None =>
      match hay with
      | EmptyString => false
      | String _ hay' => includes needle hay'
      end
  end.

(** [s.split(sep)] for a one-character separator. *)
Fixpoint split_onto (sep : ascii) (cur : string) (s : string) : list string :=
  match s with
  | EmptyString => [rev cur]
  | String c s' =>
      if is_char sep c then rev cur :: split_onto sep EmptyString s'
      else split_onto sep (String c cur) s'
  end.

Definition split (sep : ascii) (s : string) : list string :=
  split_onto sep EmptyString s.

(** *** White space and line terminators in UTF-8 text

    [trim], [parseInt] and the [.] of a pattern read characters; on text
    held as UTF-8 the functions below read the same characters from the
    bytes.  The white space of JavaScript is TAB, VT, FF, SP, U+00A0,
    U+1680, U+2000 to U+200A, U+202F, U+205F, U+3000 and U+FEFF; [trim] and
    [parseInt] strip it together with the line terminators LF, CR, U+2028
    and U+2029. *)

(** Those of one byte: TAB, LF, VT, FF, CR and SP. *)
Definition space1 (c : ascii) : bool := in_range 9 13 c || (code c =? 32)%N.

(** The one of two bytes: U+00A0, which is C2 A0. *)
Definition space2 (c1 c2 : ascii) : bool :=
  ((code c1 =? 194) && (code c2 =? 160))%N.

(** Those of three bytes: U+1680 (E1 9A 80), U+2000 to U+200A (E2 80 80 to
    E2 80 8A), U+2028 and U+2029 (E2 80 A8 and E2 80 A9), U+202F
    (E2 80 AF), U+205F (E2 81 9F), U+3000 (E3 80 80) and U+FEFF
    (EF BB BF). *)
Definition space3 (c1 c2 c3 : ascii) : bool :=
  ((code c1 =? 225) && (code c2 =? 154) && (code c3 =? 128))%N
  || ((code c1 =? 226) && (code c2 =? 128))%N
     && (in_range 128 138 c3 || in_range 168 169 c3 || (code c3 =? 175)%N)
  || ((code c1 =? 226) && (code c2 =? 129) && (code c3 =? 159))%N
  || ((code c1 =? 227) && (code c2 =? 128) && (code c3 =? 128))%N
  || ((code c1 =? 239) && (code c2 =? 187) && (code c3 =? 191))%N.

(** What is left of [s] after its leading white space and line
    terminators. *)
Fixpoint skipWhiteSpace (s : string) : string :=
  match s with
  | EmptyString => EmptyString
  | String c1 s1 =>
      if space1 c1 then skipWhiteSpace s1
      else
        match s1 with
        | EmptyString => s
        | String c2 s2 =>
            if space2 c1 c2 then skipWhiteSpace s2
            else
              match s2 with
              | EmptyString => s
              | String c3 s3 =>
                  if space3 c1 c2 c3 then skipWhiteSpace s3 else s
              end
        end
  end.

(** [s.trim() === ""], which is also [!s.trim()]: nothing is left of [s]
    once the white space is gone. *)
Definition isBlank (s : string) : bool := falsy (skipWhiteSpace s).

(** Whether [s] starts with a line terminator: LF, CR, U+2028 or
    U+2029. *)
Definition startsLineTerminator (s : string) : bool :=
  match s with
  | EmptyString => false
  | String c1 rest =>
      ((code c1 =? 10) || (code c1 =? 13))%N
      || match rest with
         | String c2 (String c3 _) =>
             ((code c1 =? 226) && (code c2 =? 128))%N && in_range 168 169 c3
         | _ => false
         end
  end.

(** Whether a line terminator occurs in [s]. *)
Fixpoint hasLineTerminator (s : string) : bool :=
  match s with
  | EmptyString => false
  | String _ rest => startsLineTerminator s || hasLineTerminator rest
  end.

(** *** Decoding a buffer

    [String(buffer)], as [data += chunk] applies it to a chunk of a
    response: the bytes are decoded as UTF-8, and every maximal part of an
    ill-formed sequence becomes U+FFFD.  The result is text, held as its
    UTF-8 bytes: well-formed sequences are kept, and U+FFFD is EF BF BD. *)

Definition replacement : string := String "239" (String "191" (String "189" "")).

(** A byte that starts a sequence of several bytes: the number of bytes
    that must follow, and the range the next one must lie in. *)
Definition lead (b : ascii) : option (nat * N * N) :=
  if in_range 194 223 b then Some (1%nat, 128%N, 191%N)
  else if in_range 224 239 b then
    Some (2%nat, if (code b =? 224)%N then 160%N else 128%N,
          if (code b =? 237)%N then 159%N else 191%N)
  else if in_range 240 244 b then
    Some (3%nat, if (code b =? 240)%N then 144%N else 128%N,
          if (code b =? 244)%N then 143%N else 191%N)
  else None.

(** [pending] holds the bytes of the sequence under way, [needed] the
    number of bytes it still lacks, [lower] and [upper] the range of the
    next one.  A byte that cannot continue the sequence ends it with
    U+FFFD and is read again as the start of the next. *)
Fixpoint toText_from (pending : string) (needed : nat) (lower upper : N)
    (s : string) : string :=
  match s with
  | EmptyString =>
      match needed with
      | O => EmptyString
      | S _ => replacement
      end
  | String b rest =>
      let start :=
        if (code b <? 128)%N then String b (toText_from "" 0 128 191 rest)
        else
          match lead b with
          | Some (n, lo, hi) => toText_from (String b "") n lo hi rest
          | None => replacement +:+ toText_from "" 0 128 191 rest
          end in
      match needed with
      | O => start
      | S n =>
          if in_range lower upper b then
            match n with
            | O => pending +:+ String b (toText_from "" 0 128 191 rest)
            | S _ => toText_from (pending +:+ String b "") n 128 191 rest
            end
          else replacement +:+ start
      end
  end.

Definition toText (buffer : string) : string := toText_from "" 0 128 191 buffer.

(** Value of a digit in a radix up to 16, [None] for any other character. *)
Definition digit_value (radix : Z) (c : ascii) : option Z :=
  let v :=
    if isDigit c then Some (Z.of_N (code c) - 48)
    else if in_range 97 122 c then Some (Z.of_N (code c) - 87)
    else if in_range 65 90 c then Some (Z.of_N (code c) - 55)
    else None in
  match v with
  | Some d => if d <? radix then Some d else None
  | None => None
  end.

(** The digits [parseInt] consumes: the longest prefix of digits of the
    radix; [None] (NaN) when that prefix is empty. *)
Fixpoint parse_digits (radix : Z) (acc : option Z) (s : string) : option Z :=
  match s with
  | EmptyString => acc
  | String c s' =>
      match digit_value radix c with
      | Some d =>
          parse_digits radix (Some (radix * default 0 acc + d)) s'
      | None => acc
      end
  end.

Definition parse_signed (radix : Z) (s : string) : option Z :=
  match s with
  | String "-" s' => Z.opp <$> parse_digits radix None s'
  | String "+" s' => parse_digits radix None s'
  | _ => parse_digits radix None s
  end.

(** After the sign [parseInt] without a radix switches to 16 on a [0x]
    or [0X] prefix. *)
Definition strip_hex_prefix (s : string) : option string :=
  match s with
  | String "0" (String "x" s') => Some s'
  | String "0" (String "X" s') => Some s'
  | _ => None
  end.

Definition parse_auto (s : string) : option Z :=
  match strip_hex_prefix s with
  | Some s' => parse_digits 16 None s'
  | None => parse_digits 10 None s
  end.

(** [parseInt(s, 10)]; [None] is NaN. *)
Definition parseInt10 (s : string) : option Z :=
  parse_signed 10 (skipWhiteSpace s).

(** [parseInt(s)]; [None] is NaN.  The result is the exact integer:
    a double rounds only above 2^53, far beyond every bound it is
    compared with here. *)
Definition parseInt (s : string) : option Z :=
  match skipWhiteSpace s with
  | String "-" s' => Z.opp <$> parse_auto s'
  | String "+" s' => parse_auto s'
  | s' => parse_auto s'
  end.

(** The value a table of names holds for a name, the first one if there
    are several: a property of an object, a record of a zone. *)
Fixpoint assoc {A : Type} (table : list (string * A)) (name : string) : option A :=
  match table with
  | [] => None
  | (n, v) :: rest => if String.eqb n name then Some v else assoc rest name
  end.

(** [a || b], for a string or [undefined] on the left. *)
Definition or_else (a : option string) (b : string) : string :=
  match a with
  | Some s => if falsy s then b else s
  | None => b
  end.

(** [s.trim()], for the value of a header. *)
Definition trim (s : string) : string :=
  rev (drop_while isWhiteSpace (rev (drop_while isWhiteSpace s))).

(** The number of characters of [s] that satisfy [p]. *)
Fixpoint count (p : ascii -> bool) (s : string) : nat :=
  match s with
  | EmptyString => O
  | String c s' => ((if p c then 1 else 0) + count p s')%nat
  end.

End Js.

(** ** Regular expressions used with [RegExp.prototype.test]

    Only whether the expression matches is observed, so a regular
    expression is embedded as its abstract syntax and matched by
    derivatives.  An expression anchored by [^] and [$] must match the
    whole string. *)

Module Re.

Inductive regex : Type :=
| Void : regex
| Eps : regex
| Cls (p : ascii -> bool) : regex
| Seq (r1 r2 : regex) : regex
| Alt (r1 r2 : regex) : regex
| Star (r : regex) : regex.

Fixpoint nullable (r : regex) : bool :=
  match r with
  | Void => false
  | Eps => true
  | Cls _ => false
  | Seq r1 r2 => nullable r1 && nullable r2
  | Alt r1 r2 => nullable r1 || nullable r2
  | Star _ => true
  end.

Fixpoint deriv (c : ascii) (r : regex) : regex :=
  match r with
  | Void => Void
  | Eps => Void
  | Cls p => if p c then Eps else Void
  | Seq r1 r2 =>
      if nullable r1 then Alt (Seq (deriv c r1) r2) (deriv c r2)
      else Seq (deriv c r1) r2
  | Alt r1 r2 => Alt (deriv c r1) (deriv c r2)
  | Star r1 => Seq (deriv c r1) (Star r1)
  end.

Fixpoint matches (r : regex) (s : string) : bool :=
  match s with
  | EmptyString => nullable r
  | String c s' => matches (deriv c r) s'
  end.

Definition chr (a : ascii) : regex := Cls (Js.is_char a).

(** [r{n}] *)
Fixpoint times (n : nat) (r : regex) : regex :=
  match n with
  | O => Eps
  | S n' => Seq r (times n' r)
  end.

(** [r{0,n}] *)
Fixpoint upto (n : nat) (r : regex) : regex :=
  match n with
  | O => Eps
  | S n' => Alt Eps (Seq r (upto n' r))
  end.

(** [r{lo,hi}] *)
Definition between (lo hi : nat) (r : regex) : regex :=
  Seq (times lo r) (upto (hi - lo) r).

Fixpoint lit (s : string) : regex :=
  match s with
  | EmptyString => Eps
  | String c s' => Seq (chr c) (lit s')
  end.

(** What may follow a match that is not anchored at the end. *)
Definition anything : regex := Star (Cls (fun _ => true)).

(** The strings a regular expression denotes, to state what [matches]
    decides. *)
Inductive lang : regex -> string -> Prop :=
| lang_eps : lang Eps ""
| lang_cls p c : p c = true -> lang (Cls p) (String c "")
| lang_seq r1 r2 s1 s2 :
    lang r1 s1 -> lang r2 s2 -> lang (Seq r1 r2) (s1 +:+ s2)
| lang_alt_l r1 r2 s : lang r1 s -> lang (Alt r1 r2) s
| lang_alt_r r1 r2 s : lang r2 s -> lang (Alt r1 r2) s
| lang_star_nil r : lang (Star r) ""
| lang_star_cons r s1 s2 :
    lang r s1 -> lang (Star r) s2 -> lang (Star r) (s1 +:+ s2).

End Re.

(** ** Input classification ([isIPAddress], [isDomain]) *)

(** [/^(?:[0-9]{1,3}\.){3}[0-9]{1,3}$/] *)
Definition ipv4Regex : Re.regex :=
  Re.Seq
    (Re.times 3 (Re.Seq (Re.between 1 3 (Re.Cls Js.isDigit)) (Re.chr ".")))
    (Re.between 1 3 (Re.Cls Js.isDigit)).

(** [/^(?:[0-9a-fA-F]{1,4}:){7}[0-9a-fA-F]{1,4}$|^::1$|^::$|^::/]:
    the last alternative has no [$], it accepts every string that starts
    with two colons. *)
Definition ipv6Regex : Re.regex :=
  Re.Alt
    (Re.Seq
       (Re.times 7 (Re.Seq (Re.between 1 4 (Re.Cls Js.isHex)) (Re.chr ":")))
       (Re.between 1 4 (Re.Cls Js.isHex)))
    (Re.Alt (Re.lit "::1")
       (Re.Alt (Re.lit "::")
          (Re.Seq (Re.lit "::") Re.anything))).

(** [/^[a-zA-Z0-9][a-zA-Z0-9.-]*[a-zA-Z0-9]$|^[a-zA-Z0-9]$/] *)
Definition domainRegex : Re.regex :=
  Re.Alt
    (Re.Seq (Re.Cls Js.isAlnum)
       (Re.Seq
          (Re.Star (Re.Cls (fun c =>
             Js.isAlnum c || Js.is_char "." c || Js.is_char "-" c)))
          (Re.Cls Js.isAlnum)))
    (Re.Cls Js.isAlnum).

(** The IPv4 branch of [isIPAddress]: the pattern, then every part in
    0..255. *)
Definition octet_ok (part : string) : bool :=
  match Js.parseInt10 part with
  | Some num => (0 <=? num) && (num <=? 255)
  | None => false
  end.

Definition isIPv4 (str : string) : bool :=
  Re.matches ipv4Regex str && forallb octet_ok (Js.split "." str).

Definition isIPv6 (str : string) : bool :=
  negb (Re.matches ipv4Regex str) && Re.matches ipv6Regex str.

Definition isIPAddress (str : string) : bool :=
  if Js.falsy str then false
  else if Re.matches ipv4Regex str then forallb octet_ok (Js.split "." str)
  else Re.matches ipv6Regex str.

Definition isDomain (str : string) : bool := Re.matches domainRegex str.

(** Two character classes to compare the patterns with: the characters of
    an IPv4 literal, and everything but the colon. *)
Definition digit_or_dot (c : ascii) : bool := Js.isDigit c || Js.is_char "." c.

Definition not_colon (c : ascii) : bool := negb (Js.is_char ":" c).

(** The characters of a cache key that cannot be a separator. *)
Definition not_underscore (c : ascii) : bool := negb (Js.is_char "_" c).

(** The characters of an IPv6 literal in full form. *)
Definition hex_or_colon (c : ascii) : bool := Js.isHex c || Js.is_char ":" c.

(** The first alternative of [ipv6Regex]: eight groups of hexadecimal
    digits. *)
Definition ipv6Full : Re.regex :=
  Re.Seq
    (Re.times 7 (Re.Seq (Re.between 1 4 (Re.Cls Js.isHex)) (Re.chr ":")))
    (Re.between 1 4 (Re.Cls Js.isHex)).

(** [ip.match(/^(.+?):(\d+)$/)]: the lazy [.+?] takes one character that
    is not a line terminator at a time and, after each, tries [:(\d+)$]
    on what is left.  The bytes are taken one by one: the colon is a byte
    of its own wherever it stands, and the scan ends without a match where
    a line terminator starts.  [taken] holds the bytes taken so far, last
    first. *)
Fixpoint ipPortMatch_from (taken : string) (s : string) : option (string * string) :=
  match s with
  | EmptyString => None
  | String c rest =>
      if negb (Js.falsy taken) && Js.is_char ":" c
         && negb (Js.falsy rest) && Js.forall_chars Js.isDigit rest
      then Some (Js.rev taken, rest)
      else if Js.startsLineTerminator (String c rest) then None
      else ipPortMatch_from (String c taken) rest
  end.

Definition ipPortMatch (ip : string) : option (string * string) :=
  ipPortMatch_from EmptyString ip.

(** ** DNS resolution with CNAME recursion ([resolveDomain]) *)

Module Dns.

Definition DNS_MAX_RECURSION_DEPTH : nat := 10.

(** The queries the resolver can send, in the order the source tries
    them for one name. *)
Inductive query : Type :=
| QResolve4 (domain : string)        (* dnsResolve4(domain) *)
| QResolveCname (domain : string)    (* dnsResolveCname(domain) *)
| QResolve (domain : string)         (* dnsResolve(domain, 'A') *)
| QLookupAll (domain : string)       (* dnsLookup(domain, {all: true, family: 4}) *)
| QLookup (domain : string).         (* dnsLookup(domain, {family: 4}) *)

(** What [dnsLookup] resolves with: an array of [{address}] records or
    a single one. *)
Inductive lookup_result : Type :=
| LookupArray (addresses : list string)
| LookupObject (address : string).

(** The answers of the DNS layer; [None] is a rejected promise. *)
Record network : Type := {
  dnsResolve4 : string -> option (list string);
  dnsResolveCname : string -> option (list string);
  dnsResolve : string -> option (list string);
  dnsLookupAll : string -> option lookup_result;
  dnsLookup : string -> option string
}.

Inductive error : Type :=
| DepthExceeded
| CycleDetected
| NoRecords (domain : string)
| Unresolvable (domain : string).

(** [err.message] *)
Definition message (e : error) : string :=
  match e with
  | DepthExceeded => "CNAME 递归深度超过限制（10层）"
  | CycleDetected => "检测到 CNAME 循环引用"
  | NoRecords domain => "未找到 " +:+ domain +:+ " 的 A 记录或 CNAME 记录"
  | Unresolvable domain => "域名 " +:+ domain +:+ " 不存在或无法解析"
  end.

Inductive result : Type :=
| Ok (ips : list string)
| Err (e : error).

(** The mutable state one resolution call works on: the [visited] set
    shared by all nested calls, and the log of queries sent. *)
Record state : Type := {
  visited : gset string;
  queries : list query
}.

Definition initial : state := {| visited := ∅; queries := [] |}.

Definition visit (domain : string) (st : state) : state :=
  {| visited := {[domain]} ∪ visited st; queries := queries st |}.

Definition send (q : query) (st : state) : state :=
  {| visited := visited st; queries := queries st ++ [q] |}.

(** [allIPs.add(ip)] on a [Set], which keeps insertion order. *)
Definition add (allIPs : list string) (ip : string) : list string :=
  if bool_decide (ip ∈ allIPs) then allIPs else allIPs ++ [ip].

(** [ips.forEach(ip => allIPs.add(ip))] *)
Definition addAll (allIPs : list string) (ips : list string) : list string :=
  fold_left add ips allIPs.

(** The [for (const cname of cnameRecords)] loop of method 2.  A nested
    call that throws ends the loop: the exception leaves the [try] block
    and its handler is empty, so what was collected before is kept.
    [resolve] is the nested call [resolveDomain(cname, visited, depth + 1)];
    it yields [None] only when the fuel of the embedding runs out. *)
Fixpoint cnameLoop (resolve : string -> state -> option (state * result))
    (cnameRecords : list string) (st : state) (allIPs : list string)
    : option (state * list string) :=
  match cnameRecords with
  | [] => Some (st, allIPs)
  | cname :: rest =>
      match resolve cname st with
      | None => None
      | Some (st', Ok resolvedIPs) =>
          cnameLoop resolve rest st' (addAll allIPs resolvedIPs)
      | Some (st', Err _) => Some (st', allIPs)
      end
  end.

(** Method 4: [dnsLookup] with [all: true], and on failure once more
    without it. *)
Definition lookupStep (net : network) (domain : string)
    (st : state) (allIPs : list string) : state * list string :=
  let st := send (QLookupAll domain) st in
  match dnsLookupAll net domain with
  | Some (LookupArray addresses) => (st, addAll allIPs addresses)
  | Some (LookupObject address) => (st, add allIPs address)
  | None =>
      let st := send (QLookup domain) st in
      match dnsLookup net domain with
      | Some address => (st, add allIPs address)
      | None => (st, allIPs)
      end
  end.

(** The outer [catch (err)] of [resolveDomain]. *)
Definition rethrow (domain : string) (err : error) : error :=
  if Js.includes "ENOTFOUND" (message err) || Js.includes "ENODATA" (message err)
  then Unresolvable domain
  else err.

(** [resolveDomain(domain, visited, depth)].  The recursion of the source
    is bounded by its depth guard; the embedding recurses on [fuel] and
    yields [None] when it runs out ([resolveDomain_total] shows that it
    does not for the fuel [resolve] uses). *)
Fixpoint resolveDomain (fuel : nat) (net : network) (domain : string)
    (st : state) (depth : nat) : option (state * result) :=
  match fuel with
  | O => None
  | S fuel' =>
      if (DNS_MAX_RECURSION_DEPTH <? depth)%nat then Some (st, Err DepthExceeded)
      else if bool_decide (domain ∈ visited st) then Some (st, Err CycleDetected)
      else
        let st := visit domain st in
        if isIPAddress domain then Some (st, Ok [domain])
        else
          (* method 1: A records *)
          let st := send (QResolve4 domain) st in
          let allIPs :=
            match dnsResolve4 net domain with
            | Some addresses => addAll [] addresses
            | None => []
            end in
          (* method 2: CNAME records, each resolved recursively *)
          let st := send (QResolveCname domain) st in
          match
            match dnsResolveCname net domain with
            | Some cnameRecords =>
                cnameLoop
                  (fun cname st => resolveDomain fuel' net cname st (depth + 1))
                  cnameRecords st allIPs
            | None => Some (st, allIPs)
            end
          with
          | None => None
          | Some (st, allIPs) =>
              (* method 3: generic resolution *)
              let st := send (QResolve domain) st in
              let allIPs :=
                match dnsResolve net domain with
                | Some records => addAll allIPs records
                | None => allIPs
                end in
              (* method 4: lookup *)
              let '(st, allIPs) := lookupStep net domain st allIPs in
              match allIPs with
              | _ :: _ => Some (st, Ok allIPs)
              | [] => Some (st, Err (rethrow domain (NoRecords domain)))
              end
          end
  end.

(** [resolveDomain(domain)]: a fresh [visited] set, depth 0. *)
Definition resolve (net : network) (domain : string) : option (state * result) :=
  resolveDomain (DNS_MAX_RECURSION_DEPTH + 2) net domain initial 0.

(** A chain of CNAME records: each name has the next among its CNAME
    targets. *)
Fixpoint cname_chain (net : network) (names : list string) : Prop :=
  match names with
  | a :: ((b :: _) as rest) =>
      (exists targets, dnsResolveCname net a = Some targets /\ b ∈ targets)
      /\ cname_chain net rest
  | _ => True
  end.

(** A network given by a table of CNAME records and a table of A
    records; every other query fails. *)
Definition zone (cnames : list (string * list string))
    (addresses : list (string * list string)) : network :=
  {| dnsResolve4 := Js.assoc addresses;
     dnsResolveCname := Js.assoc cnames;
     dnsResolve := fun _ => None;
     dnsLookupAll := fun _ => None;
     dnsLookup := fun _ => None |}.


(** The five queries the resolver can send about one name. *)
Definition about (domain : string) : list query :=
  [QResolve4 domain; QResolveCname domain; QResolve domain;
   QLookupAll domain; QLookup domain].

(** An address one of the direct methods (1, 3 and 4) finds for a name. *)
Definition answers (net : network) (domain y : string) : Prop :=
  (exists addresses, dnsResolve4 net domain = Some addresses /\ y ∈ addresses)
  \/ (exists records, dnsResolve net domain = Some records /\ y ∈ records)
  \/ match dnsLookupAll net domain with
     | Some (LookupArray addresses) => y ∈ addresses
     | Some (LookupObject address) => y = address
     | None => dnsLookup net domain = Some y
     end.

(** How the collection [allIPs] changes: addresses are added at its end,
    and it stays free of repetitions. *)
Definition grows (l l' : list string) : Prop :=
  l `prefix_of` l' /\ (NoDup l -> NoDup l').


(** Where an address of a result can come from: a direct answer about a
    visited name, or a visited name that is itself an IP literal. *)
Definition found (net : network) (st : state) (y : string) : Prop :=
  exists name,
    name ∈ visited st
    /\ (answers net name y \/ (y = name /\ isIPAddress name = true)).

End Dns.

(** ** Rate limiter ([checkRateLimit]) *)

(** The key of a client in [rateLimitMap]: [`rate_${ip}`]. *)
Definition rate_key (ip : string) : string := "rate_" +:+ ip.

Module RateLimit.

Definition RATE_LIMIT_WINDOW : Z := 60000.

Record record : Type := { firstRequest : Z; count : Z }.

(** [checkRateLimit(ip)] at [Date.now() = now], for the configured
    [MAX_REQUESTS_PER_IP].  [record.count++] updates the record the map
    holds. *)
Definition checkRateLimit (MAX_REQUESTS_PER_IP : Z)
    (rateLimitMap : gmap string record) (ip : string) (now : Z)
    : bool * gmap string record :=
  let key := rate_key ip in
  match rateLimitMap !! key with
  | None =>
      (true, <[key := {| firstRequest := now; count := 1 |}]> rateLimitMap)
  | Some rec =>
      if RATE_LIMIT_WINDOW <? now - firstRequest rec then
        (true, <[key := {| firstRequest := now; count := 1 |}]> rateLimitMap)
      else if MAX_REQUESTS_PER_IP <=? count rec then (false, rateLimitMap)
      else
        (true,
         <[key := {| firstRequest := firstRequest rec;
                     count := count rec + 1 |}]> rateLimitMap)
  end.

(** A client's successive requests at the given times: the answers, in
    order, and the final map. *)
Fixpoint requests (limit : Z) (m : gmap string record) (ip : string)
    (times : list Z) : list bool * gmap string record :=
  match times with
  | [] => ([], m)
  | now :: rest =>
      let '(ok, m') := checkRateLimit limit m ip now in
      let '(oks, m'') := requests limit m' ip rest in
      (ok :: oks, m'')
  end.

End RateLimit.

(** ** Promises of the collaborators *)

(** The value a promise rejects with (what [catch (err)] binds): an
    [Error] object, or a value that has no properties at all. *)
Inductive thrown : Type :=
| ErrorObject (message : string)
| Undefined
| Null.

Inductive settled (A : Type) : Type :=
| Resolved (value : A)
| Rejected (err : thrown).

Arguments Resolved {A} value.
Arguments Rejected {A} err.

(** Reading [err.message]: the message of an [Error]; on [undefined] and
    [null] the read itself throws a [TypeError], whose message is on the
    right. *)
Definition read_message (err : thrown) : string + string :=
  match err with
  | ErrorObject message => inl message
  | Undefined => inr "Cannot read properties of undefined (reading 'message')"
  | Null => inr "Cannot read properties of null (reading 'message')"
  end.

(** ** CDN trace probe ([testCDNTrace]) *)

Module Cdn.

Definition CDN_TRACE_TIMEOUT : Z := 3000.

(** What becomes of the HTTPS request of [testCDNTrace].  The call
    [https.request(options, ...)] throws an [Error] (it does on a [host]
    that is not a legal value of a header, and [host] is not validated), or
    it returns and the request delivers to the listeners registered: a
    response (its status, the bytes of its ['data'] chunks, then ['end']),
    an ['error'] on the request, or a ['timeout']. *)
Inductive exchange : Type :=
| RequestThrows (message : string)
| Response (statusCode : Z) (chunks : list string)
| RequestError (message : string)
| RequestTimeout.

Record trace : Type := {
  success : bool;
  warp : string;
  reason : option string
}.

(** [data.match(/warp=(\w+)/)], the captured group: the leftmost place
    where [warp=] is followed by a word character, and the word characters
    from there. *)
Fixpoint warpMatch (data : string) : option string :=
  let here :=
    match Js.strip_prefix "warp=" data with
    | Some rest =>
        let word := Js.take_while Js.isWord rest in
        if Js.falsy word then None else Some word
    | None => None
    end in
  match here, data with
  | Some word, _ => Some word
  | None, EmptyString => None
  | None, String _ data' => warpMatch data'
  end.

(** [data += chunk] over the chunks received: each chunk, a buffer, is
    decoded on its own. *)
Definition body (chunks : list string) : string :=
  fold_left (fun data chunk => data +:+ Js.toText chunk) chunks "".

(** The ['end'] listener. *)
Definition onEnd (statusCode : Z) (data : string) : trace :=
  if negb (statusCode =? 200) || Js.isBlank data then
    {| success := false;
       warp := "off";
       reason := Some
         (if (statusCode =? 404) || (statusCode =? 403)
          then "端点不可用 (HTTP " +:+ pretty statusCode +:+ ")"
          else if negb (statusCode =? 200) then "HTTP " +:+ pretty statusCode
          else "响应为空") |}
  else
    let warp := default "off" (warpMatch data) in
    {| success := true;
       warp := if String.eqb warp "on" then "on" else "off";
       reason := None |}.

(** [testCDNTrace(ip, port, host)], given what becomes of the request to
    [/cdn-cgi/trace].  The executor of the promise calls [https.request]
    outside any [try], so what that call throws rejects the promise;
    otherwise the promise is settled by the first listener that runs. *)
Definition testCDNTrace (x : exchange) : settled trace :=
  match x with
  | RequestThrows message => Rejected (ErrorObject message)
  | Response statusCode chunks => Resolved (onEnd statusCode (body chunks))
  | RequestError message =>
      Resolved {| success := false;
                  warp := "off";
                  reason := Some (if Js.falsy message then "连接失败" else message) |}
  | RequestTimeout =>
      Resolved {| success := false;
                  warp := "off";
                  reason := Some ("请求超时（" +:+ pretty (CDN_TRACE_TIMEOUT / 1000) +:+ "秒）") |}
  end.

End Cdn.

(** ** Detection of one IP ([detectSingleIP]) and the batch loop *)

Module Detect.

(** A JavaScript value of the kinds the GeoIP record holds, and an object
    as the list of its own keys with their values.  The numbers (ASN,
    latitude, longitude) are only tested for being zero and passed on;
    they are integers here. *)
Inductive value : Type :=
| VString (s : string)
| VNumber (n : Z)
| VNull.

Definition object : Type := list (string * value).

Definition truthy (v : value) : bool :=
  match v with
  | VString s => negb (Js.falsy s)
  | VNumber n => negb (n =? 0)
  | VNull => false
  end.

(** [o[key] || null] *)
Definition get_or_null (o : object) (key : string) : value :=
  match Js.assoc o key with
  | Some v => if truthy v then v else VNull
  | None => VNull
  end.

Record Checks : Type := {
  tls_detect : bool;
  ws_real_connect : bool;
  cdn_trace : bool
}.

Record Latency : Type := {
  tls_handshake_ms : option Z;
  ws_connect_ms : option Z
}.

Record WsInfo : Type := {
  connected : bool;
  protocol : option string
}.

(** The [result] object of [detectSingleIP]. *)
Record detection : Type := {
  ip : string;
  checks : Checks;
  latency : Latency;
  geoip : option object;
  cdn_warp : string;
  websocket : option WsInfo;
  error : option string
}.

(** What the collaborators answer during the detection of one IP, and the
    two durations [Date.now() - start] the function reads. *)
Record observation : Type := {
  lookupGeoIP : settled (option object);
  testTLS : settled unit;
  tls_elapsed : Z;
  testWebSocket : settled (option WsInfo);
  ws_elapsed : Z;
  cdnExchange : Cdn.exchange
}.

(** The calls to collaborators, as they are logged. *)
Inductive call : Type :=
| CallGeoIP (ip : string)
| CallTLS (ip : string) (port : Z) (host : string)
| CallWebSocket (ip : string) (port : Z) (host : string) (wsPath : string)
| CallCDNTrace (ip : string) (port : Z) (host : string).

(** The state of one run: the [result] object under construction and the
    calls made so far. *)
Record run : Type := {
  result : detection;
  calls : list call
}.

(** One block of the [try] body: it updates the run and either completes
    ([None]) or lets an exception with the given message escape. *)
Definition block : Type := run -> run * option string.

Definition andThen (b1 b2 : block) : block :=
  fun st =>
    match b1 st with
    | (st', None) => b2 st'
    | (st', Some message) => (st', Some message)
    end.

Infix ">->" := andThen (at level 61, left associativity).

(** A block leaves the [ip] and [error] fields of the result alone. *)
Definition keeps (b : block) : Prop :=
  forall st,
    ip (result (b st).1) = ip (result st)
    /\ error (result (b st).1) = error (result st).

Definition called (c : call) (st : run) : run :=
  {| result := result st; calls := calls st ++ [c] |}.

Definition update (f : detection -> detection) (st : run) : run :=
  {| result := f (result st); calls := calls st |}.

Definition set_geoip (o : object) (r : detection) : detection :=
  {| ip := ip r; checks := checks r; latency := latency r; geoip := Some o;
     cdn_warp := cdn_warp r; websocket := websocket r; error := error r |}.

Definition set_tls (ok : bool) (ms : Z) (r : detection) : detection :=
  {| ip := ip r;
     checks := {| tls_detect := ok;
                  ws_real_connect := ws_real_connect (checks r);
                  cdn_trace := cdn_trace (checks r) |};
     latency := {| tls_handshake_ms := Some ms;
                   ws_connect_ms := ws_connect_ms (latency r) |};
     geoip := geoip r; cdn_warp := cdn_warp r; websocket := websocket r;
     error := error r |}.

Definition set_ws (ok : bool) (ms : Z) (r : detection) : detection :=
  {| ip := ip r;
     checks := {| tls_detect := tls_detect (checks r);
                  ws_real_connect := ok;
                  cdn_trace := cdn_trace (checks r) |};
     latency := {| tls_handshake_ms := tls_handshake_ms (latency r);
                   ws_connect_ms := Some ms |};
     geoip := geoip r; cdn_warp := cdn_warp r; websocket := websocket r;
     error := error r |}.

Definition set_websocket (wsInfo : WsInfo) (r : detection) : detection :=
  {| ip := ip r; checks := checks r; latency := latency r; geoip := geoip r;
     cdn_warp := cdn_warp r; websocket := Some wsInfo; error := error r |}.

Definition set_cdn_trace (ok : bool) (r : detection) : detection :=
  {| ip := ip r;
     checks := {| tls_detect := tls_detect (checks r);
                  ws_real_connect := ws_real_connect (checks r);
                  cdn_trace := ok |};
     latency := latency r; geoip := geoip r; cdn_warp := cdn_warp r;
     websocket := websocket r; error := error r |}.

Definition set_warp (warp : string) (r : detection) : detection :=
  {| ip := ip r; checks := checks r; latency := latency r; geoip := geoip r;
     cdn_warp := warp; websocket := websocket r; error := error r |}.

Definition set_error (message : string) (r : detection) : detection :=
  {| ip := ip r; checks := checks r; latency := latency r; geoip := geoip r;
     cdn_warp := cdn_warp r; websocket := websocket r; error := Some message |}.

(** A handler [catch (err) { ...; logger.warn(..., { error: err.message }) }]
    after its assignments: reading [err.message] completes, or throws in
    turn. *)
Definition warn (err : thrown) (st : run) : run * option string :=
  match read_message err with
  | inl _ => (st, None)
  | inr typeError => (st, Some typeError)
  end.

Section DetectSingleIP.

Variable DISABLE_WEBSOCKET : bool.
Variable DISABLE_CDN_TRACE : bool.

Variable obs : observation.
Variables (targetIP : string) (targetPort : Z) (host wsPath : string).

(** GeoIP lookup *)
Definition geoBlock : block := fun st =>
  let st := called (CallGeoIP targetIP) st in
  match lookupGeoIP obs with
  | Resolved (Some ((_ :: _) as geoipData)) =>
      (update (set_geoip geoipData) st, None)
  | Resolved _ => (st, None)
  | Rejected err => warn err st
  end.

(** TLS probe *)
Definition tlsBlock : block := fun st =>
  let st := called (CallTLS targetIP targetPort host) st in
  match testTLS obs with
  | Resolved _ => (update (set_tls true (tls_elapsed obs)) st, None)
  | Rejected err => warn err (update (set_tls false (tls_elapsed obs)) st)
  end.

(** WebSocket probe *)
Definition wsBlock : block := fun st =>
  if DISABLE_WEBSOCKET then (update (set_ws false 0) st, None)
  else
    let st := called (CallWebSocket targetIP targetPort host wsPath) st in
    match testWebSocket obs with
    | Resolved wsInfo =>
        let st := update (set_ws true (ws_elapsed obs)) st in
        (match wsInfo with
         | Some info => update (set_websocket info) st
         | None => st
         end, None)
    | Rejected err => warn err (update (set_ws false (ws_elapsed obs)) st)
    end.

(** CDN trace probe *)
Definition cdnBlock : block := fun st =>
  if DISABLE_CDN_TRACE then (update (set_cdn_trace false) st, None)
  else
    let st := called (CallCDNTrace targetIP targetPort host) st in
    match Cdn.testCDNTrace (cdnExchange obs) with
    | Resolved cdnResult =>
        let st := update (set_cdn_trace (Cdn.success cdnResult)) st in
        (if Js.falsy (Cdn.warp cdnResult) then st
         else update (set_warp (Cdn.warp cdnResult)) st, None)
    | Rejected err => warn err (update (set_cdn_trace false) st)
    end.

Definition fresh : run :=
  {| result :=
       {| ip := targetIP;
          checks := {| tls_detect := false; ws_real_connect := false;
                       cdn_trace := false |};
          latency := {| tls_handshake_ms := None; ws_connect_ms := None |};
          geoip := None;
          cdn_warp := "off";
          websocket := None;
          error := None |};
     calls := [] |}.

(** The body of the outer [try]: the four blocks, one after the other. *)
Definition tryBody : block := geoBlock >-> tlsBlock >-> wsBlock >-> cdnBlock.

(** [detectSingleIP(targetIP, index, total)]: an exception that leaves the
    body is caught, its message stored in [result.error], and the result
    returned as it is by then.  [index] and [total] only go to the debug
    log.  The logger writes to the console and does not throw; what can
    throw outside the inner handlers is the read of [err.message] in one
    of them. *)
Definition detectSingleIP (index total : nat) : detection * list call :=
  match tryBody fresh with
  | (st, None) => (result st, calls st)
  | (st, Some message) => (set_error message (result st), calls st)
  end.

(** The exception that leaves the [try] body, if one does. *)
Definition escapes : option string := (tryBody fresh).2.

(** The calls of a run that no exception cuts short. *)
Definition planned : list call :=
  [CallGeoIP targetIP; CallTLS targetIP targetPort host]
    ++ (if DISABLE_WEBSOCKET then []
        else [CallWebSocket targetIP targetPort host wsPath])
    ++ (if DISABLE_CDN_TRACE then []
        else [CallCDNTrace targetIP targetPort host]).

End DetectSingleIP.

Definition MAX_CONCURRENT : nat := 10.

(** The batch loop
    [for (let i = 0; i < targetIPs.length; i += MAX_CONCURRENT)]:
    [Promise.all] over [targetIPs.slice(i, i + MAX_CONCURRENT)] keeps the
    order of the batch, and the batch is appended to [results].  The loop
    ends because [i] grows; the embedding recurses on [fuel] and yields
    [None] when it runs out. *)
Fixpoint batchLoop {R : Type} (fuel : nat) (detect : string -> nat -> nat -> R)
    (targetIPs : list string) (i : nat) (results : list R) : option (list R) :=
  if (i <? length targetIPs)%nat then
    match fuel with
    | O => None
    | S fuel' =>
        let batch := take MAX_CONCURRENT (drop i targetIPs) in
        let batchResults :=
          imap (fun batchIndex targetIP =>
                  detect targetIP (i + batchIndex)%nat (length targetIPs)) batch in
        batchLoop fuel' detect targetIPs (i + MAX_CONCURRENT)%nat
          (results ++ batchResults)
    end
  else Some results.

Definition detectAll {R : Type} (detect : string -> nat -> nat -> R)
    (targetIPs : list string) : option (list R) :=
  batchLoop (length targetIPs) detect targetIPs 0 [].

End Detect.

(** ** The request handler ([app.get("/api")]) *)

Module Api.

Definition CACHE_DURATION : Z := 30000.
Definition DEFAULT_PORT : Z := 443.
Definition DEFAULT_HOST : string := "clpan.pages.dev".
Definition DEFAULT_WS_PATH : string := "/".
Definition MAX_IP_COUNT : nat := 50.

(** The settings the handler depends on ([MAX_REQUESTS_PER_IP] is 60 in
    this revision and 10 in the previous one; the two switches come from
    the process environment). *)
Record config : Type := {
  MAX_REQUESTS_PER_IP : Z;
  DISABLE_WEBSOCKET : bool;
  DISABLE_CDN_TRACE : bool
}.

(** A parameter of [req.query].  The query parser gives a string or, for
    a parameter that is repeated or written with brackets ([?ip=a&ip=b],
    [?ip[]=a], [?ip[k]=a]), an array or an object.  Such a value is truthy,
    it is strictly equal to no string, it has no [match] and no [trim]
    that can be called, and [shown] is what its conversion to a string
    gives. *)
Inductive param : Type :=
| Text (s : string)
| Composite (shown : string).

(** [req.query] and [getClientIP(req)].  Of [wsPath] the handler uses
    nothing but the conversion to a string, in the URL of the WebSocket
    probe, so [q_wsPath] holds that string. *)
Record request : Type := {
  q_ip : option param;
  q_port : option param;
  q_host : option param;
  q_wsPath : option string;
  clientIp : string
}.

(** [port] holds the number [DEFAULT_PORT], a string, or the array or
    object of the [port] parameter. *)
Inductive port_value : Type :=
| PortNumber (n : Z)
| PortString (s : string)
| PortComposite (shown : string).

(** The [geoip] object of a cleaned result. *)
Record geo : Type := {
  city : Detect.value;
  country : Detect.value;
  countryName : Detect.value;
  latitude : Detect.value;
  longitude : Detect.value;
  asn : Detect.value;
  organization : Detect.value
}.

(** An element of [cleanedResults]. *)
Record cleaned : Type := {
  ip : string;
  checks : Detect.Checks;
  latency : Detect.Latency;
  geoip : option geo;
  cdn_warp : string;
  websocket : option Detect.WsInfo
}.

(** What [res.json] is given. *)
Inductive payload : Type :=
| Failure (error message : string)
| Single (input : string) (isDomain : bool) (port : Z)
    (result : option cleaned) (timestamp : Z) (host : option string)
| Multi (input : string) (isDomain : bool) (resolvedIPs : list string)
    (port : Z) (results : list cleaned) (timestamp : Z) (host : option string).

Record response : Type := {
  status : Z;
  json : payload
}.

(** A value of [requestCache]. *)
Record entry : Type := {
  data : payload;
  timestamp : Z
}.

(** The two process-wide maps. *)
Record server : Type := {
  requestCache : gmap string entry;
  rateLimitMap : gmap string RateLimit.record
}.

(** The readings of the clock one request takes. *)
Record clock : Type := {
  at_rate_limit : Z;
  at_cache_lookup : Z;
  at_response : Z;
  at_cache_store : Z
}.

(** The outside world during one request: the DNS layer, and what the
    collaborators answer for a detection with the given target, port, host
    and WebSocket path. *)
Record world : Type := {
  dns : Dns.network;
  observe : string -> Z -> string -> string -> Detect.observation
}.

(** The effects of one request, in the order they happen. *)
Inductive event : Type :=
| Resolve (domain : string)
| Query (q : Dns.query)
| RateLimitCheck (clientIp : string) (allowed : bool)
| CacheLookup (key : string) (hit : bool)
| Probe (c : Detect.call)
| CacheWrite (key : string)
| Respond (status : Z).

(** [parseInt(port)], which converts its argument to a string first. *)
Definition parsePort (port : port_value) : option Z :=
  match port with
  | PortNumber n => Some n
  | PortString s => Js.parseInt s
  | PortComposite shown => Js.parseInt shown
  end.

(** The [TypeError] the first lines of the handler throw, if they do:
    [ip.match] is called on an [ip] that is not a string, or [host.trim]
    on a [host] that is not one (a missing or empty [ip] has been answered
    before).  Nothing else has happened by then, and the handler, whose
    promise is rejected, sends no response. *)
Definition throws (req : request) : option string :=
  match q_ip req with
  | Some (Composite _) => Some "ip.match is not a function"
  | Some (Text (String _ _)) =>
      match q_host req with
      | Some (Composite _) => Some "host.trim is not a function"
      | _ => None
      end
  | _ => None
  end.

(** The first lines of the handler: the query parameters with their
    defaults, the [ip:port] form taken apart, the host and the port
    normalised.  [None] when these lines end the request: the [ip]
    parameter is missing or empty, or they throw (see [throws]). *)
Definition parse (req : request) : option (string * port_value * string * string) :=
  match q_ip req, q_host req with
  | None, _ | Some (Text EmptyString), _ | Some (Composite _), _ => None
  | Some (Text _), Some (Composite _) => None
  | Some (Text given), given_host =>
      let port :=
        match q_port req with
        | Some (Text s) => PortString s
        | Some (Composite shown) => PortComposite shown
        | None => PortNumber DEFAULT_PORT
        end in
      let wsPath := default DEFAULT_WS_PATH (q_wsPath req) in
      let '(ip, port) :=
        match ipPortMatch given with
        | Some (address, digits) => (address, PortString digits)
        | None => (given, port)
        end in
      let host :=
        match given_host with
        | Some (Text h) => if Js.isBlank h then DEFAULT_HOST else h
        | _ => DEFAULT_HOST
        end in
      let port :=
        match port with
        | PortString s =>
            if Js.falsy s || String.eqb s (pretty DEFAULT_PORT)
            then PortNumber DEFAULT_PORT else port
        | PortNumber n => if n =? 0 then PortNumber DEFAULT_PORT else port
        | PortComposite _ => port
        end in
      Some (ip, port, host, wsPath)
  end.

Definition clean_geoip (o : Detect.object) : geo :=
  {| city := Detect.get_or_null o "city";
     country := Detect.get_or_null o "country";
     countryName := Detect.get_or_null o "countryName";
     latitude := Detect.get_or_null o "latitude";
     longitude := Detect.get_or_null o "longitude";
     asn := Detect.get_or_null o "asn";
     organization := Detect.get_or_null o "organization" |}.

(** The function mapped over [results] to get [cleanedResults]. *)
Definition clean (r : Detect.detection) : cleaned :=
  {| ip := Detect.ip r;
     checks := Detect.checks r;
     latency := Detect.latency r;
     geoip := clean_geoip <$> Detect.geoip r;
     cdn_warp := if Js.falsy (Detect.cdn_warp r) then "off" else Detect.cdn_warp r;
     websocket :=
       match Detect.websocket r with
       | Some ws =>
           if Detect.connected ws then
             Some {| Detect.connected := true;
                     Detect.protocol :=
                       match Detect.protocol ws with
                       | Some p => if Js.falsy p then None else Some p
                       | None => None
                       end |}
           else None
       | None => None
       end |}.

Definition cacheKey (isDomainName : bool) (ip : string) (targetPort : Z)
    (host : string) : string :=
  (if isDomainName then "domain_" else "ip_")
    +:+ ip +:+ "_" +:+ pretty targetPort +:+ "_" +:+ host.

(** The cache key of a request, when it has one. *)
Definition key_of (req : request) : option string :=
  match parse req with
  | Some (ip, port, host, _) =>
      match parsePort port with
      | Some targetPort => Some (cacheKey (isDomain ip) ip targetPort host)
      | None => None
      end
  | None => None
  end.



Definition is_resolver (e : event) : bool :=
  match e with
  | Resolve _ | Query _ => true
  | _ => false
  end.

Definition is_query (e : event) : bool :=
  match e with
  | Query _ => true
  | _ => false
  end.

Definition is_probe (e : event) : bool :=
  match e with
  | Probe _ => true
  | _ => false
  end.


Definition outcome : Type := server * response * list event.

(** [return res.status(code).json(body)] *)
Definition reply (st : server) (log : list event) (code : Z) (body : payload)
    : option outcome :=
  Some (st, {| status := code; json := body |}, log ++ [Respond code]).

Section Handler.

Variable cfg : config.
Variable w : world.
Variable clk : clock.

(** [detectSingleIP] as the handler's closure: the port, host and path of
    the request are fixed, the collaborators answer for the target. *)
Definition detect (targetPort : Z) (host wsPath : string)
    (targetIP : string) (index total : nat) : Detect.detection * list Detect.call :=
  Detect.detectSingleIP (DISABLE_WEBSOCKET cfg) (DISABLE_CDN_TRACE cfg)
    (observe w targetIP targetPort host wsPath)
    targetIP targetPort host wsPath index total.

(** The response object built from [cleanedResults]. *)
Definition build (ip : string) (isDomainName : bool) (targetIPs : list string)
    (targetPort : Z) (host : string) (cleanedResults : list cleaned) : payload :=
  let shown := if String.eqb host DEFAULT_HOST then None else Some host in
  match targetIPs with
  | [_] =>
      Single ip isDomainName targetPort (head cleanedResults)
        (at_response clk) shown
  | _ =>
      Multi ip isDomainName targetIPs targetPort cleanedResults
        (at_response clk) shown
  end.

(** From the cache lookup to the end of the handler.  The calls of the
    detections are logged target by target, in the order of [targetIPs];
    the source lets the detections of one batch run interleaved. *)
Definition serve (st : server) (log : list event) (ip : string)
    (isDomainName : bool) (targetIPs : list string) (targetPort : Z)
    (host wsPath : string) : option outcome :=
  let key := cacheKey isDomainName ip targetPort host in
  let cached := requestCache st !! key in
  let hit :=
    match cached with
    | Some e => at_cache_lookup clk - timestamp e <? CACHE_DURATION
    | None => false
    end in
  let log := log ++ [CacheLookup key hit] in
  match cached, hit with
  | Some e, true => reply st log 200 (data e)
  | _, _ =>
      match Detect.detectAll (detect targetPort host wsPath) targetIPs with
      | None => None
      | Some runs =>
          let results := fst <$> runs in
          let log := log ++ (Probe <$> concat (snd <$> runs)) in
          let cleanedResults := clean <$> results in
          let response :=
            build ip isDomainName targetIPs targetPort host cleanedResults in
          let st :=
            {| requestCache :=
                 <[key := {| data := response;
                             timestamp := at_cache_store clk |}]>
                   (requestCache st);
               rateLimitMap := rateLimitMap st |} in
          reply st (log ++ [CacheWrite key]) 200 response
      end
  end.

(** From the rate limiter on. *)
Definition throttle (st : server) (log : list event) (clientIp : string)
    (ip : string) (isDomainName : bool) (targetIPs : list string)
    (port : port_value) (host wsPath : string) : option outcome :=
  let '(allowed, limits) :=
    RateLimit.checkRateLimit (MAX_REQUESTS_PER_IP cfg) (rateLimitMap st)
      clientIp (at_rate_limit clk) in
  let st := {| requestCache := requestCache st; rateLimitMap := limits |} in
  let log := log ++ [RateLimitCheck clientIp allowed] in
  if negb allowed then
    reply st log 429 (Failure "请求过于频繁" "请稍后再试")
  else
    match parsePort port with
    | Some targetPort =>
        if (targetPort <? 1) || (65535 <? targetPort) then
          reply st log 400 (Failure "无效的端口号" "端口号必须在 1-65535 之间")
        else serve st log ip isDomainName targetIPs targetPort host wsPath
    | None =>
        reply st log 400 (Failure "无效的端口号" "端口号必须在 1-65535 之间")
    end.

(** The resolution step and the limit on the number of targets. *)
Definition route (st : server) (clientIp : string) (ip : string)
    (isDomainName : bool) (port : port_value) (host wsPath : string)
    : option outcome :=
  let limited (log : list event) (targetIPs : list string) :=
    if (MAX_IP_COUNT <? length targetIPs)%nat then
      reply st log 400
        (Failure "IP 数量过多"
           ("检测 IP 数量不能超过 " +:+ pretty MAX_IP_COUNT
              +:+ " 个，当前为 " +:+ pretty (length targetIPs) +:+ " 个"))
    else throttle st log clientIp ip isDomainName targetIPs port host wsPath in
  if isDomainName then
    match Dns.resolve (dns w) ip with
    | None => None
    | Some (dst, res) =>
        let log := Resolve ip :: (Query <$> Dns.queries dst) in
        match res with
        | Dns.Ok [] =>
            reply st log 400 (Failure "DNS 解析失败" "域名解析未返回任何 IP 地址")
        | Dns.Ok targetIPs => limited log targetIPs
        | Dns.Err err => reply st log 400 (Failure "DNS 解析失败" (Dns.message err))
        end
    end
  else limited [] [ip].

(** [app.get("/api", async (req, res) => ...)] on the server state [st].
    [None]: the first lines throw, the handler sends no response and the
    state of the server is as it was. *)
Definition api (st : server) (req : request) : option outcome :=
  match parse req with
  | None =>
      match throws req with
      | Some _ => None
      | None => reply st [] 400 (Failure "缺少必需参数" "需要提供 ip 参数")
      end
  | Some (ip, port, host, wsPath) =>
      let isIP := isIPAddress ip in
      let isDomainName := isDomain ip in
      if negb isIP && negb isDomainName then
        reply st [] 400
          (Failure "无效的 IP 地址或域名"
             "请提供有效的 IP 地址或域名（支持 IPv4、IPv6 或域名，也可使用 IP:端口 格式）")
      else route st (clientIp req) ip isDomainName port host wsPath
  end.

End Handler.

(** The request a payload answers: its [input], [isDomain] and [port]
    fields and its host, which is left out of a payload for the default
    host. *)
Definition addressed (p : payload) : option (string * bool * Z * string) :=
  match p with
  | Failure _ _ => None
  | Single input isDomainName port _ _ host
  | Multi input isDomainName _ port _ _ host =>
      Some (input, isDomainName, port, default DEFAULT_HOST host)
  end.

(** Every entry of the cache holds the payload of a detection, under the
    key of the request the payload answers. *)
Definition coherent (cache : gmap string entry) : Prop :=
  forall key e,
    cache !! key = Some e ->
    exists input port host,
      addressed (data e) = Some (input, isDomain input, port, host)
      /\ key = cacheKey (isDomain input) input port host.

(** A payload of a detection holds one result for each target, in the
    order of the targets. *)
Definition aligned (p : payload) : Prop :=
  match p with
  | Failure _ _ => False
  | Single _ _ _ result _ _ => is_Some result
  | Multi _ _ resolvedIPs _ results _ _ =>
      ip <$> results = resolvedIPs /\ length resolvedIPs <> 1%nat
  end.

(** What the outside sees of a request: the response and the effects. *)
Definition seen (o : outcome) : response * list event := (o.1.2, o.2).

(** The events of the resolution step of a request for [ip]: the call of
    [resolveDomain] and the DNS queries it sends when [ip] has the form of
    a domain, nothing otherwise. *)
Definition resolution (w : world) (ip : string) : list event :=
  if isDomain ip then
    match Dns.resolve (dns w) ip with
    | Some (dst, _) => Resolve ip :: (Query <$> Dns.queries dst)
    | None => []
    end
  else [].

(** The value of [targetIPs] after the resolution step, [None] when
    [resolveDomain] has thrown. *)
Definition targets (w : world) (ip : string) : option (list string) :=
  if isDomain ip then
    match Dns.resolve (dns w) ip with
    | Some (_, Dns.Ok targetIPs) => Some targetIPs
    | _ => None
    end
  else Some [ip].

End Api.

(** ** The identity of the client ([getClientIP]) *)

Module Client.

(** What [getClientIP] reads of a request: two headers, [req.ip], and the
    remote address of the connection and of the socket.  [None] is
    [undefined]. *)
Record incoming : Type := {
  x_forwarded_for : option string;
  x_real_ip : option string;
  ip : option string;
  connection_remoteAddress : option string;
  socket_remoteAddress : option string
}.

(** [req.headers['x-forwarded-for']?.split(',')[0].trim()] *)
Definition forwarded (req : incoming) : option string :=
  (fun header => Js.trim (hd "" (Js.split "," header))) <$> x_forwarded_for req.

Definition getClientIP (req : incoming) : string :=
  Js.or_else (forwarded req)
    (Js.or_else (x_real_ip req)
       (Js.or_else (ip req)
          (Js.or_else (connection_remoteAddress req)
             (Js.or_else (socket_remoteAddress req) "unknown")))).

End Client.

(** ** The periodic cleanup of the two maps *)

Module Cleanup.

(** The body of a loop
    [for (const [key, value] of map.entries())
       if (expired(value)) { map.delete(key); cleaned++; }]
    on the map and the counter. *)
Definition step {V : Type} (expired : V -> bool) (acc : gmap string V * nat)
    (kv : string * V) : gmap string V * nat :=
  if expired kv.2 then (delete kv.1 acc.1, S acc.2) else acc.

(** The loop.  A JavaScript [Map] may lose the entry its iterator is at,
    and the iterator still visits every other entry once.  The entries
    are taken here in the order of [map_to_list]. *)
Definition sweep {V : Type} (expired : V -> bool) (map : gmap string V)
    (cleaned : nat) : gmap string V * nat :=
  fold_left (step expired) (map_to_list map) (map, cleaned).

(** [now - value.timestamp > CACHE_DURATION] *)
Definition stale (now : Z) (value : Api.entry) : bool :=
  Api.CACHE_DURATION <? now - Api.timestamp value.

(** [now - record.firstRequest > RATE_LIMIT_WINDOW * 2] *)
Definition lapsed (now : Z) (record : RateLimit.record) : bool :=
  RateLimit.RATE_LIMIT_WINDOW * 2 <? now - RateLimit.firstRequest record.

(** The callback of the one-minute timer, at [Date.now() = now]: the
    server it leaves and the number of entries it has deleted. *)
Definition cleanup (now : Z) (st : Api.server) : Api.server * nat :=
  let '(requestCache, cleaned) := sweep (stale now) (Api.requestCache st) 0%nat in
  let '(rateLimitMap, cleaned) := sweep (lapsed now) (Api.rateLimitMap st) cleaned in
  ({| Api.requestCache := requestCache; Api.rateLimitMap := rateLimitMap |},
   cleaned).

End Cleanup.

(** ** GeoIP lookup ([lookupGeoIP]) *)

Module Geo.

(** The parts of a City record the function reads; [None] is a part that
    is missing ([undefined] anywhere along [cityData.city?.names?.en]). *)
Record cityData : Type := {
  city_en : option string;
  city_zh : option string;
  iso_code : option string;
  country_en : option string;
  country_zh : option string;
  location : option (option Z * option Z)
}.

Record asnData : Type := {
  autonomous_system_number : option Z;
  autonomous_system_organization : option string
}.

(** What [reader.get(ip)] does: it returns a record or [null], or throws. *)
Inductive answer (A : Type) : Type :=
| Found (data : A)
| NotFound
| Throws (err : thrown).

Arguments Found {A} data.
Arguments NotFound {A}.
Arguments Throws {A} err.

(** The two readers; [None] is a database that has not been loaded. *)
Record readers : Type := {
  cityReader : option (string -> answer cityData);
  asnReader : option (string -> answer asnData)
}.

(** [reader ? reader.get(ip) : null] *)
Definition consult {A : Type} (reader : option (string -> answer A))
    (ip : string) : answer A :=
  match reader with
  | Some get => get ip
  | None => NotFound
  end.

(** [n || null] *)
Definition number_or_null (n : option Z) : Detect.value :=
  match n with
  | Some n => if n =? 0 then Detect.VNull else Detect.VNumber n
  | None => Detect.VNull
  end.

Definition cityFields (c : cityData) : Detect.object :=
  [("city", Detect.VString (Js.or_else (city_en c) (Js.or_else (city_zh c) "")));
   ("country", Detect.VString (Js.or_else (iso_code c) ""));
   ("countryName",
    Detect.VString (Js.or_else (country_en c) (Js.or_else (country_zh c) "")))]
    ++ match location c with
       | Some (latitude, longitude) =>
           [("latitude", number_or_null latitude);
            ("longitude", number_or_null longitude)]
       | None => []
       end.

Definition asnFields (a : asnData) : Detect.object :=
  [("asn", number_or_null (autonomous_system_number a));
   ("organization",
    Detect.VString (Js.or_else (autonomous_system_organization a) ""))].

(** The handler [catch (err) { logger.warn(..., { error: err.message });
    return null; }]: the read of [err.message] throws in turn when [err]
    is [undefined] or [null], and the promise of the function rejects
    with that [TypeError]. *)
Definition caught (err : thrown) : settled (option Detect.object) :=
  match read_message err with
  | inl _ => Resolved None
  | inr typeError => Rejected (ErrorObject typeError)
  end.

(** [s || null] *)
Definition string_or_null (s : string) : Detect.value :=
  if Js.falsy s then Detect.VNull else Detect.VString s.

(** [lookupGeoIP(ip)] *)
Definition lookupGeoIP (r : readers) (ip : string) : settled (option Detect.object) :=
  match cityReader r, asnReader r with
  | None, None => Resolved None
  | _, _ =>
      match consult (cityReader r) ip with
      | Throws err => caught err
      | cityAnswer =>
          match consult (asnReader r) ip with
          | Throws err => caught err
          | asnAnswer =>
              match cityAnswer, asnAnswer with
              | NotFound, NotFound => Resolved None
              | _, _ =>
                  let result :=
                    match cityAnswer with
                    | Found c => cityFields c
                    | _ => []
                    end
                    ++ match asnAnswer with
                       | Found a => asnFields a
                       | _ => []
                       end in
                  Resolved (match result with
                            | [] => None
                            | _ :: _ => Some result
                            end)
              end
          end
      end
  end.

End Geo.

(** ** TLS probe ([testTLS]) *)

Module Tls.

Definition TLS_TIMEOUT : Z := 3000.

(** What the HTTPS [HEAD] request delivers to the listeners [testTLS]
    registers: a response, an ['error'] (its message, empty when it has
    none), or a ['timeout']. *)
Inductive exchange : Type :=
| Response (statusCode : Z)
| RequestError (message : string)
| RequestTimeout.

(** [testTLS(ip, port, host)]: the promise is settled by the first
    listener that runs. *)
Definition testTLS (x : exchange) : settled bool :=
  match x with
  | Response _ => Resolved true
  | RequestError message =>
      Rejected (ErrorObject (if Js.falsy message then "TLS 连接失败" else message))
  | RequestTimeout =>
      Rejected (ErrorObject
                  ("TLS 连接超时（" +:+ pretty (TLS_TIMEOUT / 1000) +:+ "秒）"))
  end.

End Tls.

(** ** WebSocket probe ([testWebSocket]) *)

Module Ws.

Definition WEBSOCKET_TIMEOUT : Z := 3000.

(** The events of the socket: ['open'] (with [ws.protocol] at that
    moment), ['error'] (with [err.message] and [err.code], empty when
    missing) and ['close']. *)
Inductive event : Type :=
| Open (protocol : string)
| Error (message code : string)
| Close.

(** What happens after the promise is created: [new WebSocket(...)]
    throws, or the socket delivers events until the timer of
    [WEBSOCKET_TIMEOUT] fires (events after that find [isResolved] set). *)
Inductive session : Type :=
| ConstructorThrows (err : thrown)
| Events (beforeTimeout : list event).

(** The message of the rejection for an ['error'] event. *)
Definition classify (errorMsg errorCode : string) : string :=
  if Js.includes "EACCES" errorMsg || Js.includes "permission denied" errorMsg
     || Js.includes "EPERM" errorMsg
  then "当前环境不支持 WebSocket 检测（权限限制）"
  else if Js.includes "ECONNREFUSED" errorMsg || String.eqb errorCode "ECONNREFUSED"
  then "WebSocket 连接被拒绝（目标服务器未开放该端口或服务）"
  else if Js.includes "ETIMEDOUT" errorMsg || Js.includes "timeout" errorMsg
  then "WebSocket 连接超时"
  else if Js.includes "ENOTFOUND" errorMsg || Js.includes "getaddrinfo" errorMsg
  then "无法解析目标地址"
  else if Js.falsy errorMsg then "WebSocket 连接失败" else errorMsg.

(** One event on a promise that is pending ([None]) or settled:
    [safeResolve] and [safeReject] do nothing once [isResolved] is set,
    and ['close'] settles nothing. *)
Definition deliver (outcome : option (settled Detect.WsInfo)) (e : event)
    : option (settled Detect.WsInfo) :=
  match outcome with
  | Some _ => outcome
  | None =>
      match e with
      | Open protocol =>
          Some (Resolved
                  {| Detect.connected := true;
                     Detect.protocol :=
                       if Js.falsy protocol then None else Some protocol |})
      | Error message code => Some (Rejected (ErrorObject (classify message code)))
      | Close => None
      end
  end.

(** [testWebSocket(ip, port, host, wsPath)] *)
Definition testWebSocket (s : session) : settled Detect.WsInfo :=
  match s with
  | ConstructorThrows err =>
      Rejected (ErrorObject
                  match read_message err with
                  | inl message => "创建 WebSocket 连接失败: " +:+ message
                  | inr typeError => typeError
                  end)
  | Events beforeTimeout =>
      match fold_left deliver beforeTimeout None with
      | Some outcome => outcome
      | None =>
          Rejected (ErrorObject
                      ("连接超时（" +:+ pretty (WEBSOCKET_TIMEOUT / 1000) +:+ "秒）"))
      end
  end.

End Ws.

(** ** The collaborators of a detection, put together *)

Module Probes.

(** What the outside delivers during the detection of one IP. *)
Record raw : Type := {
  readers : Geo.readers;
  tls : Tls.exchange;
  tls_elapsed : Z;
  ws : Ws.session;
  ws_elapsed : Z;
  cdn : Cdn.exchange
}.

(** What [detectSingleIP] then gets from its four collaborators; the
    value [true] of [testTLS] is dropped by its caller. *)
Definition observe (x : raw) (targetIP : string) : Detect.observation :=
  {| Detect.lookupGeoIP := Geo.lookupGeoIP (readers x) targetIP;
     Detect.testTLS :=
       match Tls.testTLS (tls x) with
       | Resolved _ => Resolved tt
       | Rejected err => Rejected err
       end;
     Detect.tls_elapsed := tls_elapsed x;
     Detect.testWebSocket :=
       match Ws.testWebSocket (ws x) with
       | Resolved wsInfo => Resolved (Some wsInfo)
       | Rejected err => Rejected err
       end;
     Detect.ws_elapsed := ws_elapsed x;
     Detect.cdnExchange := cdn x |}.

End Probes.

(** ** The logger ([log]) *)

Module Log.

(** The levels the [logger] object calls [log] with. *)
Inductive level : Type := DEBUG | INFO | WARN | ERROR.

Definition name (l : level) : string :=
  match l with
  | DEBUG => "DEBUG"
  | INFO => "INFO"
  | WARN => "WARN"
  | ERROR => "ERROR"
  end.

(** [LOG_LEVELS[key]] *)
Definition LOG_LEVELS (key : string) : option Z :=
  Js.assoc [("DEBUG", 0); ("INFO", 1); ("WARN", 2); ("ERROR", 3)] key.

(** [LOG_LEVELS[key] || LOG_LEVELS.INFO]: the number 0 is falsy. *)
Definition or_info (key : string) : Z :=
  match LOG_LEVELS key with
  | Some n => if n =? 0 then 1 else n
  | None => 1
  end.

(** [currentLogLevel], for [upper = LOG_LEVEL.toUpperCase()]. *)
Definition currentLogLevel (upper : string) : Z := or_info upper.

Inductive channel : Type := console_log | console_warn | console_error.

(** [log(level, message, data)]: whether the message is written, and
    with which method of the console. *)
Definition log (currentLogLevel : Z) (l : level) : option channel :=
  let levelNum := or_info (name l) in
  if levelNum <? currentLogLevel then None
  else Some match l with
            | ERROR => console_error
            | WARN => console_warn
            | _ => console_log
            end.

End Log.

(** ** Concrete situations

    The settings, worlds, clocks and requests the examples below are
    evaluated on. *)

(** Two requests one after the other, the second on the state the first
    leaves. *)
Definition twice (cfg : Api.config) (w1 w2 : Api.world) (clk1 clk2 : Api.clock)
    (st : Api.server) (req1 req2 : Api.request)
    : option (Api.outcome * Api.outcome) :=
  match Api.api cfg w1 clk1 st req1 with
  | Some o1 =>
      match Api.api cfg w2 clk2 o1.1.1 req2 with
      | Some o2 => Some (o1, o2)
      | None => None
      end
  | None => None
  end.

Definition settings : Api.config :=
  {| Api.MAX_REQUESTS_PER_IP := 60;
     Api.DISABLE_WEBSOCKET := false;
     Api.DISABLE_CDN_TRACE := false |}.

(** A target on which every probe succeeds. *)
Definition reachable : Detect.observation :=
  {| Detect.lookupGeoIP := Resolved None;
     Detect.testTLS := Resolved tt;
     Detect.tls_elapsed := 42;
     Detect.testWebSocket :=
       Resolved (Some {| Detect.connected := true; Detect.protocol := None |});
     Detect.ws_elapsed := 57;
     Detect.cdnExchange := Cdn.Response 200 ["warp=off"] |}.

(** A target on which every probe fails as the probes report failure. *)
Definition unreachable : Detect.observation :=
  {| Detect.lookupGeoIP := Resolved None;
     Detect.testTLS := Rejected (ErrorObject "connect ECONNREFUSED");
     Detect.tls_elapsed := 3;
     Detect.testWebSocket :=
       Rejected (ErrorObject "WebSocket 连接被拒绝（目标服务器未开放该端口或服务）");
     Detect.ws_elapsed := 4;
     Detect.cdnExchange := Cdn.RequestError "connect ECONNREFUSED" |}.

(** A target whose TLS probe rejects with [undefined]. *)
Definition misbehaving : Detect.observation :=
  {| Detect.lookupGeoIP := Resolved None;
     Detect.testTLS := Rejected Undefined;
     Detect.tls_elapsed := 3;
     Detect.testWebSocket := Resolved None;
     Detect.ws_elapsed := 4;
     Detect.cdnExchange := Cdn.RequestTimeout |}.

(** [edge.example] has one address; every target is reachable. *)
Definition internet : Api.world :=
  {| Api.dns := Dns.zone [] [("edge.example", ["192.0.2.1"])];
     Api.observe := fun _ _ _ _ => reachable |}.

(** [192.0.2.1] is unreachable, [192.0.2.2] misbehaves, the rest is
    reachable. *)
Definition mixed : Api.world :=
  {| Api.dns := Dns.zone [] [];
     Api.observe := fun targetIP _ _ _ =>
       if String.eqb targetIP "192.0.2.1" then unreachable
       else if String.eqb targetIP "192.0.2.2" then misbehaving
       else reachable |}.

Definition first_clock : Api.clock :=
  {| Api.at_rate_limit := 1000; Api.at_cache_lookup := 1001;
     Api.at_response := 1200; Api.at_cache_store := 1201 |}.

(** Five seconds later. *)
Definition second_clock : Api.clock :=
  {| Api.at_rate_limit := 6000; Api.at_cache_lookup := 6001;
     Api.at_response := 6200; Api.at_cache_store := 6201 |}.

(** More than three minutes later. *)
Definition late_clock : Api.clock :=
  {| Api.at_rate_limit := 200000; Api.at_cache_lookup := 200001;
     Api.at_response := 200200; Api.at_cache_store := 200201 |}.

(** [GET /api?ip=<input>] or [GET /api?ip=<input>&wsPath=<path>]. *)
Definition ask (input : string) (path : option string) : Api.request :=
  {| Api.q_ip := Some (Api.Text input); Api.q_port := None; Api.q_host := None;
     Api.q_wsPath := path; Api.clientIp := "198.51.100.7" |}.

(** A server that has seen no request. *)
Definition idle : Api.server :=
  {| Api.requestCache := ∅; Api.rateLimitMap := ∅ |}.

(** A server on which the client has used up its 60 requests. *)
Definition busy : Api.server :=
  {| Api.requestCache := ∅;
     Api.rateLimitMap :=
       {[ "rate_198.51.100.7" :=
            {| RateLimit.firstRequest := 0; RateLimit.count := 60 |} ]} |}.

Definition edge_key : string := "domain_edge.example_443_clpan.pages.dev".

(** The response to [ask "edge.example"] on [internet] at [first_clock]. *)
Definition edge_payload : Api.payload :=
  Api.Single "edge.example" true 443
    (Some {| Api.ip := "192.0.2.1";
             Api.checks := {| Detect.tls_detect := true;
                              Detect.ws_real_connect := true;
                              Detect.cdn_trace := true |};
             Api.latency := {| Detect.tls_handshake_ms := Some 42;
                               Detect.ws_connect_ms := Some 57 |};
             Api.geoip := None;
             Api.cdn_warp := "off";
             Api.websocket := Some {| Detect.connected := true;
                                      Detect.protocol := None |} |})
    1200 None.

(** The events of resolving [edge.example] on [internet]. *)
Definition edge_resolution : list Api.event :=
  [Api.Resolve "edge.example";
   Api.Query (Dns.QResolve4 "edge.example");
   Api.Query (Dns.QResolveCname "edge.example");
   Api.Query (Dns.QResolve "edge.example");
   Api.Query (Dns.QLookupAll "edge.example");
   Api.Query (Dns.QLookup "edge.example")].

Definition edge_probes (wsPath : string) : list Api.event :=
  [Api.Probe (Detect.CallGeoIP "192.0.2.1");
   Api.Probe (Detect.CallTLS "192.0.2.1" 443 "clpan.pages.dev");
   Api.Probe (Detect.CallWebSocket "192.0.2.1" 443 "clpan.pages.dev" wsPath);
   Api.Probe (Detect.CallCDNTrace "192.0.2.1" 443 "clpan.pages.dev")].

(** The server after that first request, and after [n] requests of the
    client in the same window. *)
Definition served (n : Z) : Api.server :=
  {| Api.requestCache :=
       {[ edge_key := {| Api.data := edge_payload; Api.timestamp := 1201 |} ]};
     Api.rateLimitMap :=
       {[ "rate_198.51.100.7" :=
            {| RateLimit.firstRequest := 1000; RateLimit.count := n |} ]} |}.

(** A CNAME loop of two names, neither of which has an address. *)
Definition loop_zone : Dns.network :=
  Dns.zone [("a.example", ["b.example"]); ("b.example", ["a.example"])] [].

(** The state of the resolution of [a.example] on [loop_zone] when the
    invocation on [a.example] has sent its first two queries and enters
    its CNAME loop, and the state when the nested invocation on
    [b.example] has done the same. *)
Definition loop_at_a : Dns.state :=
  Dns.send (Dns.QResolveCname "a.example")
    (Dns.send (Dns.QResolve4 "a.example")
       (Dns.visit "a.example" Dns.initial)).

Definition loop_at_b : Dns.state :=
  Dns.send (Dns.QResolveCname "b.example")
    (Dns.send (Dns.QResolve4 "b.example")
       (Dns.visit "b.example" loop_at_a)).

(** The state in which the resolution of [a.example] on [loop_zone] ends. *)
Definition loop_end : Dns.state :=
  {| Dns.visited := {["a.example"; "b.example"]};
     Dns.queries :=
       [Dns.QResolve4 "a.example"; Dns.QResolveCname "a.example";
        Dns.QResolve4 "b.example"; Dns.QResolveCname "b.example";
        Dns.QResolve "b.example"; Dns.QLookupAll "b.example";
        Dns.QLookup "b.example"; Dns.QResolve "a.example";
        Dns.QLookupAll "a.example"; Dns.QLookup "a.example"] |}.

(** A chain of eleven CNAME links, [d0.example] to [d11.example], with
    no address anywhere. *)
Definition chain_names : list string :=
  ["d0.example"; "d1.example"; "d2.example"; "d3.example"; "d4.example";
   "d5.example"; "d6.example"; "d7.example"; "d8.example"; "d9.example";
   "d10.example"; "d11.example"].

Definition chain_zone : Dns.network :=
  Dns.zone
    [("d0.example", ["d1.example"]); ("d1.example", ["d2.example"]);
     ("d2.example", ["d3.example"]); ("d3.example", ["d4.example"]);
     ("d4.example", ["d5.example"]); ("d5.example", ["d6.example"]);
     ("d6.example", ["d7.example"]); ("d7.example", ["d8.example"]);
     ("d8.example", ["d9.example"]); ("d9.example", ["d10.example"]);
     ("d10.example", ["d11.example"])]
    [].

(** [www.example] has one address, listed twice, and is an alias of
    [edge.example], which has two. *)
Definition alias_zone : Dns.network :=
  Dns.zone [("www.example", ["edge.example"])]
    [("www.example", ["192.0.2.1"; "192.0.2.1"]);
     ("edge.example", ["192.0.2.2"; "192.0.2.1"])].

(** The state in which the resolution of [www.example] on [alias_zone]
    ends. *)
Definition alias_end : Dns.state :=
  {| Dns.visited := {["www.example"; "edge.example"]};
     Dns.queries :=
       [Dns.QResolve4 "www.example"; Dns.QResolveCname "www.example"]
         ++ Dns.about "edge.example"
         ++ [Dns.QResolve "www.example"; Dns.QLookupAll "www.example";
             Dns.QLookup "www.example"] |}.

(** * Properties *)

(** ** Regular expressions and the classification of the input *)

Section RegexFacts.

Import Re.

Lemma append_cons (c : ascii) (s t : string) :
  String c s +:+ t = String c (s +:+ t).
Proof. reflexivity. Qed.

Lemma append_nil_l (s : string) : "" +:+ s = s.
Proof. reflexivity. Qed.

Lemma append_nil_r (s : string) : s +:+ "" = s.
Proof. induction s as [|c s IH]; [done|]. by rewrite append_cons, IH. Qed.

Lemma append_assoc (s1 s2 s3 : string) :
  (s1 +:+ s2) +:+ s3 = s1 +:+ (s2 +:+ s3).
Proof. induction s1 as [|c s1 IH]; [done|]. by rewrite !append_cons, IH. Qed.

Lemma append_eq_nil (s1 s2 : string) : s1 +:+ s2 = "" -> s1 = "" /\ s2 = "".
Proof. destruct s1; [done|discriminate]. Qed.

Lemma nullable_lang r : nullable r = true <-> lang r "".
Proof.
  split.
  - induction r as [| |p|r1 IH1 r2 IH2|r1 IH1 r2 IH2|r IH]; cbn; intros Hn;
      try discriminate.
    + constructor.
    + apply andb_true_iff in Hn as [H1 H2].
      rewrite <- (append_nil_l ""). apply lang_seq; auto.
    + apply orb_true_iff in Hn as [H1|H2];
        [apply lang_alt_l|apply lang_alt_r]; auto.
    + constructor.
  - intros Hl. remember "" as s eqn:Hs.
    induction Hl as [|p c Hp|r1 r2 s1 s2 _ IH1 _ IH2|r1 r2 s _ IH|r1 r2 s _ IH
                    |r|r s1 s2 _ _ _ _]; cbn; try done.
    + apply append_eq_nil in Hs as [-> ->]. by rewrite IH1, IH2.
    + by rewrite IH.
    + rewrite IH by done. by destruct (nullable r1).
Qed.

Lemma deriv_sound c r s : lang (deriv c r) s -> lang r (String c s).
Proof.
  revert s.
  induction r as [| |p|r1 IH1 r2 IH2|r1 IH1 r2 IH2|r IH]; cbn; intros s Hl.
  - inversion Hl.
  - inversion Hl.
  - destruct (p c) eqn:Hp; inversion Hl; subst. by constructor.
  - assert (Hleft : forall s', lang (Seq (deriv c r1) r2) s' ->
                               lang (Seq r1 r2) (String c s')).
    { intros s' Hs'. inversion Hs' as [| |? ? s1 s2 H1 H2| | | |]; subst.
      rewrite <- append_cons. apply lang_seq; auto. }
    destruct (nullable r1) eqn:Hn; [|by apply Hleft].
    inversion Hl as [| | |? ? ? H|? ? ? H| |]; subst; [by apply Hleft|].
    rewrite <- (append_nil_l (String c s)).
    apply lang_seq; [by apply nullable_lang|auto].
  - inversion Hl as [| | |? ? ? H|? ? ? H| |]; subst;
      [apply lang_alt_l|apply lang_alt_r]; auto.
  - inversion Hl as [| |? ? s1 s2 H1 H2| | | |]; subst.
    rewrite <- append_cons. apply lang_star_cons; auto.
Qed.

Lemma deriv_complete c r s : lang r (String c s) -> lang (deriv c r) s.
Proof.
  intros Hl. remember (String c s) as s' eqn:Hs'. revert s Hs'.
  induction Hl as [|p c' Hp|r1 r2 s1 s2 H1 IH1 H2 IH2|r1 r2 s' _ IH|r1 r2 s' _ IH
                  |r|r s1 s2 H1 IH1 H2 IH2]; intros s Hs'; cbn; try discriminate.
  - injection Hs' as -> <-. rewrite Hp. constructor.
  - destruct s1 as [|c1 s1]; [rewrite append_nil_l in Hs'|rewrite append_cons in Hs'].
    + subst s2. apply nullable_lang in H1. rewrite H1.
      apply lang_alt_r. by apply IH2.
    + injection Hs' as -> <-.
      assert (lang (Seq (deriv c r1) r2) (s1 +:+ s2))
        by (apply lang_seq; auto).
      destruct (nullable r1); [by apply lang_alt_l|done].
  - apply lang_alt_l. by apply IH.
  - apply lang_alt_r. by apply IH.
  - destruct s1 as [|c1 s1]; [rewrite append_nil_l in Hs'|rewrite append_cons in Hs'].
    + by apply IH2.
    + injection Hs' as -> <-. apply lang_seq; auto.
Qed.

(** [matches] decides membership in the language of the expression. *)
Lemma matches_lang r s : matches r s = true <-> lang r s.
Proof.
  revert r. induction s as [|c s IH]; intros r; cbn.
  - apply nullable_lang.
  - rewrite IH. split; [apply deriv_sound|apply deriv_complete].
Qed.

Lemma forall_chars_append p s1 s2 :
  Js.forall_chars p (s1 +:+ s2)
  = Js.forall_chars p s1 && Js.forall_chars p s2.
Proof.
  induction s1 as [|c s1 IH]; [done|]. rewrite append_cons. cbn.
  rewrite IH. by rewrite andb_assoc.
Qed.

(** A repetition of a character class: all characters are in the class. *)
Lemma lang_times_cls n p s :
  lang (times n (Cls p)) s ->
  Js.forall_chars p s = true /\ String.length s = n.
Proof.
  revert s. induction n as [|n IH]; cbn; intros s Hl.
  - inversion Hl. done.
  - inversion Hl as [| |? ? s1 s2 H1 H2| | | |]; subst.
    inversion H1 as [|? c Hp| | | | |]; subst.
    apply IH in H2 as [Hall Hlen].
    rewrite append_cons, append_nil_l. cbn. by rewrite Hp, Hall, Hlen.
Qed.

Lemma lang_upto_cls n p s :
  lang (upto n (Cls p)) s ->
  Js.forall_chars p s = true /\ (String.length s <= n)%nat.
Proof.
  revert s. induction n as [|n IH]; cbn; intros s Hl.
  - inversion Hl. done.
  - inversion Hl as [| | |? ? ? H|? ? ? H| |]; subst.
    + inversion H. cbn. split; [done|lia].
    + inversion H as [| |? ? s1 s2 H1 H2| | | |]; subst.
      inversion H1 as [|? c Hp| | | | |]; subst.
      apply IH in H2 as [Hall Hlen].
      rewrite append_cons, append_nil_l. cbn. rewrite Hp, Hall. split; [done|lia].
Qed.

Lemma string_length_append (s1 s2 : string) :
  String.length (s1 +:+ s2) = (String.length s1 + String.length s2)%nat.
Proof. induction s1 as [|c s1 IH]; [done|]. rewrite append_cons. cbn. by rewrite IH. Qed.

Lemma lang_between_cls lo hi p s :
  lang (between lo hi (Cls p)) s ->
  Js.forall_chars p s = true /\ (lo <= String.length s)%nat.
Proof.
  unfold between. intros Hl.
  inversion Hl as [| |? ? s1 s2 H1 H2| | | |]; subst.
  apply lang_times_cls in H1 as [Hall1 Hlen1].
  apply lang_upto_cls in H2 as [Hall2 _].
  rewrite forall_chars_append, Hall1, Hall2, string_length_append. split; [done|lia].
Qed.

Lemma lang_chr a s : lang (chr a) s -> s = String a "".
Proof.
  intros Hl. inversion Hl as [|p c Hp| | | | |]; subst.
  unfold Js.is_char, Js.code in Hp. apply N.eqb_eq in Hp.
  f_equal. rewrite <- (ascii_N_embedding a), <- (ascii_N_embedding c).
  by rewrite Hp.
Qed.

Lemma lang_star_cls p s : lang (Star (Cls p)) s <-> Js.forall_chars p s = true.
Proof.
  split.
  - intros Hl. remember (Star (Cls p)) as r eqn:Hr.
    induction Hl as [| | | | |r'|r' s1 s2 H1 _ _ IH2]; try discriminate; [done|].
    injection Hr as ->. inversion H1 as [|? c Hp| | | | |]; subst.
    rewrite append_cons, append_nil_l. cbn. by rewrite Hp, IH2.
  - induction s as [|c s IH]; cbn; intros Hall; [constructor|].
    apply andb_true_iff in Hall as [Hp Hall].
    rewrite <- (append_nil_l s), <- append_cons.
    apply lang_star_cons; [by constructor|auto].
Qed.

(** A string of characters of a class that is not empty ends with one. *)
Lemma forall_chars_last p s :
  Js.forall_chars p s = true -> (1 <= String.length s)%nat ->
  exists init l,
    s = init +:+ String l "" /\ Js.forall_chars p init = true /\ p l = true.
Proof.
  induction s as [|c s IH]; cbn; intros Hall Hlen; [lia|].
  apply andb_true_iff in Hall as [Hp Hall].
  destruct s as [|c' s'].
  - exists "", c. done.
  - destruct IH as (init & l & Heq & Hinit & Hl); [done|cbn; lia|].
    exists (String c init), l. rewrite append_cons, <- Heq. cbn.
    by rewrite Hp, Hinit.
Qed.

Lemma digit_alnum c : Js.isDigit c = true -> Js.isAlnum c = true.
Proof. unfold Js.isAlnum. intros ->. by rewrite !orb_true_r. Qed.

(** One group [[0-9]{1,3}\.] of the IPv4 pattern: it starts with a digit
    and holds digits and dots only. *)
Lemma lang_ipv4_group s :
  lang (Seq (between 1 3 (Cls Js.isDigit)) (chr ".")) s ->
  exists c rest,
    s = String c rest /\ Js.isDigit c = true
    /\ Js.forall_chars digit_or_dot rest = true.
Proof.
  intros Hl. inversion Hl as [| |? ? d dot Hd Hdot| | | |]; subst.
  apply lang_between_cls in Hd as [Hall Hlen]. apply lang_chr in Hdot as ->.
  destruct d as [|c d]; [cbn in Hlen; lia|]. cbn in Hall.
  apply andb_true_iff in Hall as [Hc Hall].
  exists c, (d +:+ "."). rewrite append_cons. split; [done|]. split; [done|].
  rewrite forall_chars_append. apply andb_true_iff. split; [|done].
  clear -Hall. induction d as [|c' d IH]; [done|]. cbn in *.
  apply andb_true_iff in Hall as [Hc' Hall]. unfold digit_or_dot at 1.
  by rewrite Hc', IH.
Qed.

(** What the IPv4 pattern accepts starts with a digit, ends with a digit
    and holds digits and dots in between. *)
Lemma ipv4_shape s :
  matches ipv4Regex s = true ->
  exists c mid l,
    s = String c (mid +:+ String l "")
    /\ Js.isDigit c = true /\ Js.isDigit l = true
    /\ Js.forall_chars digit_or_dot mid = true.
Proof.
  intros Hm. apply matches_lang in Hm. unfold ipv4Regex in Hm. cbn [times] in Hm.
  inversion Hm as [| |? ? g d4 Hg Hd4| | | |]; subst.
  inversion Hg as [| |? ? g1 g' Hg1 Hg'| | | |]; subst.
  inversion Hg' as [| |? ? g2 g'' Hg2 Hg''| | | |]; subst.
  inversion Hg'' as [| |? ? g3 e Hg3 He| | | |]; subst.
  inversion He; subst.
  apply lang_ipv4_group in Hg1 as (c & r1 & -> & Hc & Hr1).
  apply lang_ipv4_group in Hg2 as (c2 & r2 & -> & Hc2 & Hr2).
  apply lang_ipv4_group in Hg3 as (c3 & r3 & -> & Hc3 & Hr3).
  apply lang_between_cls in Hd4 as [Hall4 Hlen4].
  destruct (forall_chars_last _ _ Hall4 Hlen4) as (init & l & -> & Hinit & Hl).
  exists c, (r1 +:+ String c2 r2 +:+ String c3 r3 +:+ init), l.
  split; [|split; [done|split; [done|]]].
  - repeat first [rewrite append_cons|rewrite append_assoc|rewrite append_nil_l].
    reflexivity.
  - rewrite !forall_chars_append. cbn. unfold digit_or_dot at 2 4.
    rewrite Hr1, Hc2, Hr2, Hc3, Hr3. cbn.
    clear -Hinit. induction init as [|c' d IH]; [done|]. cbn in *.
    apply andb_true_iff in Hinit as [Hc' Hinit]. unfold digit_or_dot at 1.
    by rewrite Hc', IH.
Qed.

End RegexFacts.

Example isIPAddress_ipv4 : isIPAddress "1.164.110.203" = true.
Proof. reflexivity. Qed.

Example isIPAddress_octet_range : isIPAddress "1.164.110.256" = false.
Proof. reflexivity. Qed.

Example isIPAddress_ipv6 :
  isIPAddress "2001:db8:0:0:0:0:0:1" = true /\ isIPAddress "::ffff" = true.
Proof. split; reflexivity. Qed.

Example isDomain_name :
  isDomain "clpan.pages.dev" = true /\ isDomain "-bad.example" = false.
Proof. split; reflexivity. Qed.

Example ipPortMatch_splits :
  ipPortMatch "1.164.110.203:10029" = Some ("1.164.110.203", "10029")
  /\ ipPortMatch "example.com" = None.
Proof. split; reflexivity. Qed.

Example parseInt_port :
  Js.parseInt "8443" = Some 8443 /\ Js.parseInt "0x1F" = Some 31
  /\ Js.parseInt "80abc" = Some 80 /\ Js.parseInt "abc" = None.
Proof. repeat split; reflexivity. Qed.

Lemma domain_class_not_colon (c : ascii) :
  Js.isAlnum c || Js.is_char "." c || Js.is_char "-" c = true ->
  not_colon c = true.
Proof. destruct c as [[] [] [] [] [] [] [] []]; vm_compute; done. Qed.

Lemma domain_has_no_colon (s : string) :
  isDomain s = true -> Js.forall_chars not_colon s = true.
Proof.
  unfold isDomain, domainRegex. intros Hm. apply matches_lang in Hm.
  assert (Halnum : forall c, Js.isAlnum c = true -> not_colon c = true).
  { intros c Hc. apply domain_class_not_colon. by rewrite Hc. }
  inversion Hm as [| | |? ? ? Hlong|? ? ? Hone| |]; subst.
  - inversion Hlong as [| |? ? s1 s' H1 H'| | | |]; subst.
    inversion H' as [| |? ? mid s3 Hmid H3| | | |]; subst.
    inversion H1 as [|? c Hc| | | | |]; subst.
    inversion H3 as [|? l Hl| | | | |]; subst.
    apply lang_star_cls in Hmid.
    rewrite !forall_chars_append. cbn.
    rewrite (Halnum c Hc), (Halnum l Hl). cbn. rewrite andb_true_r.
    clear -Hmid. induction mid as [|c' mid IH]; [done|]. cbn in *.
    apply andb_true_iff in Hmid as [Hc' Hmid].
    by rewrite (domain_class_not_colon _ Hc'), IH.
  - inversion Hone as [|? c Hc| | | | |]; subst. cbn. by rewrite (Halnum c Hc).
Qed.

Lemma colon_first (r : Re.regex) (s : string) :
  Re.lang (Re.Seq (Re.chr ":") r) s -> Js.forall_chars not_colon s = false.
Proof.
  intros Hl. inversion Hl as [| |? ? s1 s2 H1 H2| | | |]; subst.
  apply lang_chr in H1 as ->. reflexivity.
Qed.

Lemma ipv6_has_colon (s : string) :
  Re.matches ipv6Regex s = true -> Js.forall_chars not_colon s = false.
Proof.
  unfold ipv6Regex. intros Hm. apply matches_lang in Hm.
  inversion Hm as [| | |? ? ? Hfull|? ? ? Hrest| |]; subst.
  - cbn [Re.times] in Hfull.
    inversion Hfull as [| |? ? groups last Hgroups _| | | |]; subst.
    inversion Hgroups as [| |? ? g1 others Hg1 _| | | |]; subst.
    inversion Hg1 as [| |? ? h colon _ Hcolon| | | |]; subst.
    apply lang_chr in Hcolon as ->.
    rewrite !forall_chars_append. cbn. by rewrite andb_false_r.
  - inversion Hrest as [| | |? ? ? H1|? ? ? Hrest'| |]; subst.
    + by apply colon_first in H1.
    + inversion Hrest' as [| | |? ? ? H2|? ? ? H3| |]; subst.
      * by apply colon_first in H2.
      * inversion H3 as [| |? ? s1 s2 Hcolons _| | | |]; subst.
        apply colon_first in Hcolons.
        by rewrite forall_chars_append, Hcolons.
Qed.

(** No IPv6 literal is accepted by the domain pattern: the overlap of the
    classifications is exactly the IPv4 literals. *)
Lemma ipv6_literals_are_not_domains (s : string) :
  isIPv6 s = true -> isDomain s = false.
Proof.
  unfold isIPv6. intros Hv6. apply andb_true_iff in Hv6 as [_ Hm].
  apply ipv6_has_colon in Hm.
  destruct (isDomain s) eqn:Hd; [|done].
  apply domain_has_no_colon in Hd. congruence.
Qed.

(** Every string the IPv4 pattern accepts is accepted by the domain
    pattern as well. *)
Lemma ipv4_pattern_is_domain (s : string) :
  Re.matches ipv4Regex s = true -> isDomain s = true.
Proof.
  intros Hm. destruct (ipv4_shape s Hm) as (c & mid & l & -> & Hc & Hl & Hmid).
  unfold isDomain. apply matches_lang. unfold domainRegex.
  apply Re.lang_alt_l.
  rewrite <- (append_nil_l (mid +:+ String l "")), <- append_cons.
  apply Re.lang_seq; [constructor; by apply digit_alnum|].
  apply Re.lang_seq; [|constructor; by apply digit_alnum].
  apply lang_star_cls. clear -Hmid.
  induction mid as [|c' mid IH]; [done|]. cbn in *.
  apply andb_true_iff in Hmid as [Hc' Hmid]. rewrite (IH Hmid), andb_true_r.
  unfold digit_or_dot in Hc'. apply orb_true_iff in Hc' as [Hd|Hdot].
  - by rewrite (digit_alnum _ Hd).
  - rewrite Hdot. by rewrite orb_true_r.
Qed.

(** The two classifications are not exclusive: every IPv4 literal is an
    IP address for [isIPAddress] and a domain for [isDomain]. *)
Lemma ipv4_literals_are_domains (s : string) :
  isIPv4 s = true -> isIPAddress s = true /\ isDomain s = true.
Proof.
  unfold isIPv4, isIPAddress. intros Hv4.
  apply andb_true_iff in Hv4 as [Hm Hparts]. split.
  - destruct s as [|c s]; [discriminate Hm|]. cbn [Js.falsy]. by rewrite Hm.
  - by apply ipv4_pattern_is_domain.
Qed.

(** [isIPAddress] accepts the IPv4 literals and the IPv6 literals, and no
    string is both. *)
Lemma isIPAddress_cases (s : string) :
  isIPAddress s = isIPv4 s || isIPv6 s
  /\ (isIPv4 s = true -> isIPv6 s = false).
Proof.
  unfold isIPAddress, isIPv4, isIPv6. split.
  - destruct s as [|c s]; [reflexivity|]. cbn [Js.falsy].
    destruct (Re.matches ipv4Regex (String c s)); cbn; [|done].
    by rewrite orb_false_r.
  - intros Hv4. apply andb_true_iff in Hv4 as [-> _]. done.
Qed.

(** ** The resolver *)

Section ResolverFacts.

Import Dns.

Variable net : network.

Lemma cnameLoop_total resolve cnameRecords st allIPs :
  (forall cname st', is_Some (resolve cname st')) ->
  is_Some (cnameLoop resolve cnameRecords st allIPs).
Proof.
  intros Hres. revert st allIPs.
  induction cnameRecords as [|cname rest IH]; intros st allIPs; simpl.
  - eauto.
  - destruct (Hres cname st) as [[st' [ips|e]] ->]; eauto.
Qed.

(** The depth guard bounds the recursion: with fuel for the levels that
    are left, the embedding does not run out. *)
Lemma resolveDomain_total fuel domain st depth :
  (0 < fuel)%nat ->
  (DNS_MAX_RECURSION_DEPTH + 2 <= fuel + depth)%nat ->
  is_Some (resolveDomain fuel net domain st depth).
Proof.
  revert domain st depth.
  induction fuel as [|fuel IH]; intros domain st depth Hpos Hfuel; [lia|].
  simpl. destruct (Nat.ltb_spec DNS_MAX_RECURSION_DEPTH depth) as [Hd|Hd]; [eauto|].
  case_bool_decide; [eauto|].
  destruct (isIPAddress domain); [eauto|].
  assert (Hnested : forall cname st',
             is_Some (resolveDomain fuel net cname st' (depth + 1))).
  { intros cname st'. apply IH; unfold DNS_MAX_RECURSION_DEPTH in *; lia. }
  destruct (dnsResolveCname net domain) as [cnameRecords|].
  - match goal with
    | |- context [cnameLoop ?f ?l ?s ?a] =>
        destruct (cnameLoop_total f l s a Hnested) as [[st' ips] ->]
    end.
    destruct (lookupStep _ _ _ _) as [st'' [|ip ips']]; eauto.
  - destruct (lookupStep _ _ _ _) as [st'' [|ip ips']]; eauto.
Qed.

Lemma resolve_total domain : is_Some (resolve net domain).
Proof.
  apply resolveDomain_total; unfold DNS_MAX_RECURSION_DEPTH; lia.
Qed.

Lemma visited_send q st : visited (send q st) = visited st.
Proof. reflexivity. Qed.

Lemma visited_lookupStep domain st allIPs :
  visited (lookupStep net domain st allIPs).1 = visited st.
Proof.
  unfold lookupStep.
  destruct (dnsLookupAll net domain) as [[addresses|address]|]; try reflexivity.
  destruct (dnsLookup net domain); reflexivity.
Qed.

Lemma cnameLoop_visited resolve cnameRecords st allIPs st' ips :
  (forall cname s s' r, resolve cname s = Some (s', r) -> visited s ⊆ visited s') ->
  cnameLoop resolve cnameRecords st allIPs = Some (st', ips) ->
  visited st ⊆ visited st'.
Proof.
  intros Hres. revert st allIPs.
  induction cnameRecords as [|cname rest IH]; intros st allIPs; simpl.
  - intros [= <- _]. done.
  - destruct (resolve cname st) as [[s1 [resolved|e]]|] eqn:Hcall; [| |done].
    + intros Hloop. apply IH in Hloop. apply Hres in Hcall.
      by etrans.
    + intros [= <- _]. by apply Hres in Hcall.
Qed.

(** The [visited] set only grows, and an invocation that passes the depth
    guard leaves its own name in it. *)
Lemma resolveDomain_visited fuel domain st depth st' res :
  resolveDomain fuel net domain st depth = Some (st', res) ->
  visited st ⊆ visited st'
  /\ ((depth <= DNS_MAX_RECURSION_DEPTH)%nat -> domain ∈ visited st').
Proof.
  revert domain st depth st' res.
  induction fuel as [|fuel IH]; intros domain st depth st' res; [done|].
  simpl. destruct (Nat.ltb_spec DNS_MAX_RECURSION_DEPTH depth) as [Hd|Hd].
  { intros [= <- _]. split; [done|lia]. }
  case_bool_decide as Hin.
  { intros [= <- _]. split; done. }
  destruct (isIPAddress domain).
  { intros [= <- _]. simpl. split; [apply union_subseteq_r|].
    intros _. apply elem_of_union_l. by apply elem_of_singleton. }
  set (st1 := send (QResolveCname domain) (send (QResolve4 domain) (visit domain st))).
  assert (Hst1 : visited st1 = {[domain]} ∪ visited st) by reflexivity.
  intros Hrun.
  assert (Hgrow : visited st1 ⊆ visited st').
  { destruct (dnsResolveCname net domain) as [cnameRecords|].
    - destruct (cnameLoop _ cnameRecords st1 _) as [[s2 ips]|] eqn:Hloop; [|done].
      apply cnameLoop_visited in Hloop;
        [|intros cname s s' r Hcall; by destruct (IH _ _ _ _ _ Hcall) as [? _]].
      destruct (lookupStep net domain (send (QResolve domain) s2) _)
        as [s3 ips3] eqn:Hlook.
      pose proof (visited_lookupStep domain (send (QResolve domain) s2)
                    (match dnsResolve net domain with
                     | Some records => addAll ips records
                     | None => ips
                     end)) as Hv.
      rewrite Hlook in Hv. simpl in Hv.
      destruct ips3; injection Hrun as <- _; rewrite Hv; done.
    - destruct (lookupStep net domain (send (QResolve domain) st1) _)
        as [s3 ips3] eqn:Hlook.
      pose proof (visited_lookupStep domain (send (QResolve domain) st1)
                    (match dnsResolve net domain with
                     | Some records =>
                         addAll match dnsResolve4 net domain with
                                | Some addresses => addAll [] addresses
                                | None => []
                                end records
                     | None =>
                         match dnsResolve4 net domain with
                         | Some addresses => addAll [] addresses
                         | None => []
                         end
                     end)) as Hv.
      rewrite Hlook in Hv. simpl in Hv.
      destruct ips3; injection Hrun as <- _; rewrite Hv; done. }
  rewrite Hst1 in Hgrow. split.
  - etrans; [apply union_subseteq_r|exact Hgrow].
  - intros _. apply Hgrow, elem_of_union_l. by apply elem_of_singleton.
Qed.

(** An invocation that passes both guards fails, if it fails, with the
    error of its own last step: the errors of nested invocations do not
    reach its caller. *)
Lemma resolveDomain_failure fuel domain st depth st' e :
  (depth <= DNS_MAX_RECURSION_DEPTH)%nat ->
  domain ∉ visited st ->
  resolveDomain fuel net domain st depth = Some (st', Err e) ->
  e = rethrow domain (NoRecords domain).
Proof.
  destruct fuel as [|fuel]; [done|]. intros Hd Hfresh. simpl.
  destruct (Nat.ltb_spec DNS_MAX_RECURSION_DEPTH depth) as [Hd'|_]; [lia|].
  case_bool_decide; [done|].
  destruct (isIPAddress domain); [done|].
  destruct (match dnsResolveCname net domain with
            | Some cnameRecords => _
            | None => _
            end) as [[s2 ips]|]; [|done].
  destruct (lookupStep _ _ _ _) as [s3 [|ip ips3]]; [|done].
  by intros [= _ <-].
Qed.

Lemma resolve_failure domain st' e :
  resolve net domain = Some (st', Err e) ->
  e = rethrow domain (NoRecords domain).
Proof.
  apply resolveDomain_failure; [unfold DNS_MAX_RECURSION_DEPTH; lia|].
  simpl. apply not_elem_of_empty.
Qed.

(** The queries sent are logged one after the other: what has been
    logged stays. *)
Lemma queries_lookupStep domain st allIPs :
  queries st `prefix_of` queries (lookupStep net domain st allIPs).1.
Proof.
  unfold lookupStep.
  destruct (dnsLookupAll net domain) as [[addresses|address]|]; cbn;
    try (by apply prefix_app_r).
  destruct (dnsLookup net domain); cbn; by do 2 apply prefix_app_r.
Qed.

Lemma cnameLoop_queries resolve cnameRecords st allIPs st' ips :
  (forall cname s s' r,
      resolve cname s = Some (s', r) -> queries s `prefix_of` queries s') ->
  cnameLoop resolve cnameRecords st allIPs = Some (st', ips) ->
  queries st `prefix_of` queries st'.
Proof.
  intros Hres. revert st allIPs.
  induction cnameRecords as [|cname rest IH]; intros st allIPs; simpl.
  - intros [= <- _]. done.
  - destruct (resolve cname st) as [[s1 [resolved|e]]|] eqn:Hcall; [| |done].
    + intros Hloop. apply IH in Hloop. apply Hres in Hcall.
      by etrans.
    + intros [= <- _]. by apply Hres in Hcall.
Qed.

(** What an invocation does after its first two queries. *)
Lemma resolveDomain_rest fuel domain st1 depth st' res allIPs :
  (forall cname s s' r,
      resolveDomain fuel net cname s (depth + 1) = Some (s', r) ->
      queries s `prefix_of` queries s') ->
  match
    match dnsResolveCname net domain with
    | Some cnameRecords =>
        cnameLoop
          (fun cname st => resolveDomain fuel net cname st (depth + 1))
          cnameRecords st1 allIPs
    | None => Some (st1, allIPs)
    end
  with
  | None => None
  | Some (st, allIPs) =>
      let st := send (QResolve domain) st in
      let allIPs :=
        match dnsResolve net domain with
        | Some records => addAll allIPs records
        | None => allIPs
        end in
      let '(st, allIPs) := lookupStep net domain st allIPs in
      match allIPs with
      | _ :: _ => Some (st, Ok allIPs)
      | [] => Some (st, Err (rethrow domain (NoRecords domain)))
      end
  end = Some (st', res) ->
  queries st1 `prefix_of` queries st'.
Proof.
  intros Hnested Hrun.
  assert (Hloop : exists s2 ips,
             match dnsResolveCname net domain with
             | Some cnameRecords =>
                 cnameLoop
                   (fun cname st => resolveDomain fuel net cname st (depth + 1))
                   cnameRecords st1 allIPs
             | None => Some (st1, allIPs)
             end = Some (s2, ips)
             /\ queries st1 `prefix_of` queries s2).
  { destruct (dnsResolveCname net domain) as [cnameRecords|].
    - destruct (cnameLoop _ cnameRecords st1 allIPs) as [[s2 ips]|] eqn:Hloop;
        [|done].
      exists s2, ips. split; [done|].
      eapply cnameLoop_queries; [|exact Hloop].
      intros cname s s' r. apply Hnested.
    - by exists st1, allIPs. }
  destruct Hloop as (s2 & ips & Hloop & Hprefix). rewrite Hloop in Hrun.
  cbv zeta in Hrun.
  match type of Hrun with
  | context [lookupStep net domain ?s ?a] =>
      pose proof (queries_lookupStep domain s a) as Hlook;
      destruct (lookupStep net domain s a) as [s3 ips3]
  end.
  cbn [fst] in Hlook.
  assert (st' = s3) as -> by (destruct ips3; by injection Hrun as <- _).
  etrans; [exact Hprefix|]. etrans; [|exact Hlook]. by apply prefix_app_r.
Qed.

Lemma resolveDomain_queries fuel domain st depth st' res :
  resolveDomain fuel net domain st depth = Some (st', res) ->
  queries st `prefix_of` queries st'.
Proof.
  revert domain st depth st' res.
  induction fuel as [|fuel IH]; intros domain st depth st' res; [done|].
  simpl. destruct (_ <? _)%nat; [by intros [= <- _]|].
  case_bool_decide; [by intros [= <- _]|].
  destruct (isIPAddress domain); [by intros [= <- _]|].
  intros Hrun. apply resolveDomain_rest in Hrun; [|intros; by eapply IH].
  etrans; [|exact Hrun]. cbn. by do 2 apply prefix_app_r.
Qed.

(** A name that is not an IP literal is asked about: the resolution of
    it starts with the query for its A records. *)
Lemma resolveDomain_first_query fuel domain st depth st' res :
  (depth <= DNS_MAX_RECURSION_DEPTH)%nat ->
  domain ∉ visited st ->
  isIPAddress domain = false ->
  resolveDomain (S fuel) net domain st depth = Some (st', res) ->
  (queries st ++ [QResolve4 domain]) `prefix_of` queries st'.
Proof.
  intros Hdepth Hfresh Hname. simpl.
  destruct (Nat.ltb_spec DNS_MAX_RECURSION_DEPTH depth); [lia|].
  case_bool_decide; [done|]. rewrite Hname.
  intros Hrun. apply resolveDomain_rest in Hrun;
    [|intros; by eapply resolveDomain_queries].
  etrans; [|exact Hrun]. cbn. by apply prefix_app_r.
Qed.

Lemma resolve_first_query domain st' res :
  isIPAddress domain = false ->
  resolve net domain = Some (st', res) ->
  exists rest, queries st' = QResolve4 domain :: rest.
Proof.
  intros Hname Hrun.
  change (resolveDomain 12 net domain initial 0 = Some (st', res)) in Hrun.
  apply resolveDomain_first_query in Hrun as [rest Hrest];
    [|unfold DNS_MAX_RECURSION_DEPTH; lia| |done].
  - exists rest. exact Hrest.
  - cbn. apply not_elem_of_empty.
Qed.

End ResolverFacts.

(** The base case of the resolver. *)
Lemma resolveDomain_literal (net : Dns.network) (fuel : nat) (domain : string)
    (st : Dns.state) (depth : nat) :
  isIPAddress domain = true ->
  (depth <= Dns.DNS_MAX_RECURSION_DEPTH)%nat ->
  domain ∉ Dns.visited st ->
  Dns.resolveDomain (S fuel) net domain st depth
  = Some (Dns.visit domain st, Dns.Ok [domain]).
Proof.
  intros Hip Hdepth Hfresh. simpl.
  destruct (Nat.ltb_spec Dns.DNS_MAX_RECURSION_DEPTH depth); [lia|].
  case_bool_decide; [done|]. by rewrite Hip.
Qed.

Lemma resolve_literal (net : Dns.network) (domain : string) :
  isIPAddress domain = true ->
  Dns.resolve net domain
  = Some (Dns.visit domain Dns.initial, Dns.Ok [domain]).
Proof.
  intros Hip. apply resolveDomain_literal; [done| |].
  - unfold Dns.DNS_MAX_RECURSION_DEPTH. lia.
  - cbn. apply not_elem_of_empty.
Qed.

(** C9.  For an input that is an IP literal, [resolveDomain(domain)]
    (fresh visited set, depth 0) returns the list holding exactly that
    address, and sends no DNS query. *)
Theorem resolve_ip_literal (net : Dns.network) (domain : string) :
  isIPAddress domain = true ->
  exists st, Dns.resolve net domain = Some (st, Dns.Ok [domain])
             /\ Dns.queries st = [].
Proof.
  intros Hip. rewrite (resolve_literal net domain Hip). eauto.
Qed.

Lemma resolve_ip_literal_witness :
  exists st,
    Dns.resolve (Dns.zone [] []) "1.164.110.203"
    = Some (st, Dns.Ok ["1.164.110.203"])
    /\ Dns.queries st = [].
Proof. apply resolve_ip_literal. reflexivity. Defined.

(** A name that is in [visited] makes an invocation within the depth
    limit fail at once with the cycle error: it sends no query and leaves
    the state as it is. *)
Lemma visited_name_is_refused (net : Dns.network) (fuel : nat)
    (domain : string) (st : Dns.state) (depth : nat) :
  (depth <= Dns.DNS_MAX_RECURSION_DEPTH)%nat ->
  domain ∈ Dns.visited st ->
  Dns.resolveDomain (S fuel) net domain st depth
  = Some (st, Dns.Err Dns.CycleDetected).
Proof.
  intros Hdepth Hin. simpl.
  destruct (Nat.ltb_spec Dns.DNS_MAX_RECURSION_DEPTH depth); [lia|].
  by case_bool_decide.
Qed.

(** C2 on a loop of two names with no address: [a.example] is an alias
    of [b.example] and [b.example] of [a.example].  The chain of
    [a.example] meets [a.example] again, and the nested invocation on it,
    at depth 2, fails with the cycle error without a query.  That error
    ends the CNAME loop of the invocation on [b.example] and is dropped
    there, so this invocation fails with the no-records error for
    [b.example], which is dropped in the same way one level up, and
    [resolveDomain("a.example")] fails with the no-records error for
    [a.example]. *)
Theorem cycle_error_is_swallowed :
  Dns.cname_chain loop_zone ["a.example"; "b.example"; "a.example"]
  /\ Dns.resolveDomain 1 loop_zone "a.example" loop_at_b 2
     = Some (loop_at_b, Dns.Err Dns.CycleDetected)
  /\ snd <$> Dns.resolveDomain 2 loop_zone "b.example" loop_at_a 1
     = Some (Dns.Err (Dns.NoRecords "b.example"))
  /\ Dns.resolve loop_zone "a.example"
     = Some (loop_end, Dns.Err (Dns.NoRecords "a.example"))
  /\ Dns.message (Dns.NoRecords "a.example") <> Dns.message Dns.CycleDetected.
Proof.
  split; [|split; [|split; [|split]]].
  - cbn [Dns.cname_chain].
    repeat split; eexists; (split; [reflexivity|apply list_elem_of_here]).
  - apply visited_name_is_refused.
    + unfold Dns.DNS_MAX_RECURSION_DEPTH. lia.
    + vm_compute. set_solver.
  - vm_compute. reflexivity.
  - vm_compute. reflexivity.
  - discriminate.
Qed.

(** C3 on a chain of eleven links with no address: the invocation on
    [d11.example], at depth 11, fails with the depth-exceeded error (it
    sends no query), but [resolveDomain("d0.example")] fails with the
    no-records error instead. *)
Theorem long_chain_not_reported :
  Dns.cname_chain chain_zone chain_names
  /\ length chain_names = 12%nat
  /\ (forall st, Dns.resolveDomain 1 chain_zone "d11.example" st 11
                 = Some (st, Dns.Err Dns.DepthExceeded))
  /\ snd <$> Dns.resolve chain_zone "d0.example"
     = Some (Dns.Err (Dns.NoRecords "d0.example")).
Proof.
  split; [|split; [reflexivity|split; [reflexivity|vm_compute; reflexivity]]].
  unfold chain_names. cbn [Dns.cname_chain].
  repeat split; eexists; (split; [reflexivity|apply list_elem_of_here]).
Qed.

(** ** The rate limiter *)

Section RateLimitFacts.

Import RateLimit.

Variable limit : Z.

Implicit Types (m : gmap string record) (ip : string) (now : Z).

Lemma checkRateLimit_first m ip now :
  m !! rate_key ip = None ->
  checkRateLimit limit m ip now
  = (true, <[rate_key ip := {| firstRequest := now; count := 1 |}]> m).
Proof. intros Hnone. unfold checkRateLimit. by rewrite Hnone. Qed.

Lemma checkRateLimit_expired m ip now rec :
  m !! rate_key ip = Some rec ->
  RATE_LIMIT_WINDOW < now - firstRequest rec ->
  checkRateLimit limit m ip now
  = (true, <[rate_key ip := {| firstRequest := now; count := 1 |}]> m).
Proof.
  intros Hrec Hlate. unfold checkRateLimit. rewrite Hrec.
  destruct (Z.ltb_spec RATE_LIMIT_WINDOW (now - firstRequest rec)); [done|lia].
Qed.

Lemma checkRateLimit_within m ip now rec :
  m !! rate_key ip = Some rec ->
  now - firstRequest rec <= RATE_LIMIT_WINDOW ->
  checkRateLimit limit m ip now
  = if count rec <? limit
    then (true, <[rate_key ip := {| firstRequest := firstRequest rec;
                                    count := count rec + 1 |}]> m)
    else (false, m).
Proof.
  intros Hrec Hin. unfold checkRateLimit. rewrite Hrec.
  destruct (Z.ltb_spec RATE_LIMIT_WINDOW (now - firstRequest rec)); [lia|].
  destruct (Z.leb_spec limit (count rec)), (Z.ltb_spec (count rec) limit);
    done || lia.
Qed.

(** Requests that all fall in the window of a record with count [c]: the
    request number [k] (from 0) is allowed exactly when [c + k < limit]. *)
Lemma requests_within m ip first c times :
  m !! rate_key ip = Some {| firstRequest := first; count := c |} ->
  Forall (fun now => now - first <= RATE_LIMIT_WINDOW) times ->
  (requests limit m ip times).1
  = imap (fun k _ => c + Z.of_nat k <? limit) times.
Proof.
  revert m c. induction times as [|now rest IH]; intros m c Hrec Hall; [done|].
  apply Forall_cons in Hall as [Hnow Hrest]. cbn [requests].
  rewrite (checkRateLimit_within _ _ _ _ Hrec Hnow). cbn [count firstRequest].
  destruct (Z.ltb_spec c limit) as [Hlt|Hge].
  - specialize (IH (<[rate_key ip := {| firstRequest := first; count := c + 1 |}]> m)
                  (c + 1) (lookup_insert_eq _ _ _) Hrest).
    destruct (requests limit _ ip rest) as [oks m'']. cbn [fst] in *.
    rewrite IH. cbn [imap]. f_equal.
    + rewrite Z.add_0_r. by destruct (Z.ltb_spec c limit); [|lia].
    + apply imap_ext. intros k now' _. cbn. f_equal. lia.
  - specialize (IH m c Hrec Hrest).
    destruct (requests limit m ip rest) as [oks m'']. cbn [fst] in *.
    rewrite IH. cbn [imap]. f_equal.
    + rewrite Z.add_0_r. by destruct (Z.ltb_spec c limit); [lia|].
    + apply imap_ext. intros k now' _. cbn.
      destruct (Z.ltb_spec (c + Z.of_nat k) limit),
               (Z.ltb_spec (c + Z.of_nat (S k)) limit); done || lia.
Qed.

Lemma imap_const_true {A} (l : list A) (f : nat -> A -> bool) :
  (forall k x, l !! k = Some x -> f k x = true) ->
  imap f l = replicate (length l) true.
Proof.
  revert f. induction l as [|x l IH]; intros f Hf; [done|].
  cbn [imap length replicate]. f_equal.
  - by apply (Hf 0%nat x).
  - apply IH. intros k y Hk. by apply (Hf (S k) y).
Qed.

End RateLimitFacts.

Lemma imap_threshold {A} (l : list A) (c limit : Z) :
  c <= limit ->
  length l = S (Z.to_nat (limit - c)) ->
  imap (fun k _ => c + Z.of_nat k <? limit) l
  = replicate (Z.to_nat (limit - c)) true ++ [false].
Proof.
  intros Hc Hlen. apply list_eq. intros i. rewrite list_lookup_imap.
  destruct (Nat.lt_trichotomy i (Z.to_nat (limit - c))) as [Hi|[->|Hi]].
  - rewrite lookup_app_l by (rewrite length_replicate; lia).
    rewrite lookup_replicate_2 by lia.
    destruct (lookup_lt_is_Some_2 l i) as [x ->]; [lia|]. cbn.
    f_equal. apply Z.ltb_lt. lia.
  - rewrite lookup_app_r by (rewrite length_replicate; lia).
    rewrite length_replicate, Nat.sub_diag.
    destruct (lookup_lt_is_Some_2 l (Z.to_nat (limit - c))) as [x ->]; [lia|].
    cbn. f_equal. apply Z.ltb_ge. lia.
  - rewrite lookup_ge_None_2 by lia.
    rewrite lookup_ge_None_2; [done|].
    rewrite length_app, length_replicate. cbn. lia.
Qed.

(** C5.  For one client identity: (a) the first request opens a window
    with count 1; (b) a later request inside the window (at most 60 s
    after its start) is allowed if and only if the count is below the
    limit, an allowed one adds 1 to the count and a refused one changes
    nothing; (c) of [limit + 1] requests in one window the first [limit]
    are allowed and the last is refused; (d) a refused request is
    answered with status 429; (e) the first request after the window has
    elapsed is allowed and opens a new window with count 1. *)
Theorem rate_limit_window (limit : Z) (m : gmap string RateLimit.record)
    (ip : string) :
  1 <= limit ->
  (forall now,
      m !! rate_key ip = None ->
      RateLimit.checkRateLimit limit m ip now
      = (true, <[rate_key ip := {| RateLimit.firstRequest := now;
                                   RateLimit.count := 1 |}]> m))
  /\ (forall now rec,
        m !! rate_key ip = Some rec ->
        now - RateLimit.firstRequest rec <= RateLimit.RATE_LIMIT_WINDOW ->
        ((RateLimit.checkRateLimit limit m ip now).1 = true
         <-> RateLimit.count rec < limit)
        /\ (RateLimit.checkRateLimit limit m ip now).2
           = if (RateLimit.checkRateLimit limit m ip now).1
             then <[rate_key ip :=
                      {| RateLimit.firstRequest := RateLimit.firstRequest rec;
                         RateLimit.count := RateLimit.count rec + 1 |}]> m
             else m)
  /\ (forall first later,
        m !! rate_key ip = None ->
        length later = Z.to_nat limit ->
        Forall (fun now => now - first <= RateLimit.RATE_LIMIT_WINDOW) later ->
        (RateLimit.requests limit m ip (first :: later)).1
        = replicate (Z.to_nat limit) true ++ [false])
  /\ (forall cfg w clk st log target isDomainName targetIPs port host wsPath,
        Api.MAX_REQUESTS_PER_IP cfg = limit ->
        Api.rateLimitMap st = m ->
        (RateLimit.checkRateLimit limit m ip (Api.at_rate_limit clk)).1 = false ->
        exists st' log',
          Api.throttle cfg w clk st log ip target isDomainName targetIPs port
            host wsPath
          = Some (st', {| Api.status := 429;
                          Api.json := Api.Failure "请求过于频繁" "请稍后再试" |},
                  log' ++ [Api.RateLimitCheck ip false; Api.Respond 429]))
  /\ (forall now rec,
        m !! rate_key ip = Some rec ->
        RateLimit.RATE_LIMIT_WINDOW < now - RateLimit.firstRequest rec ->
        RateLimit.checkRateLimit limit m ip now
        = (true, <[rate_key ip := {| RateLimit.firstRequest := now;
                                     RateLimit.count := 1 |}]> m)).
Proof.
  intros Hlimit. split; [|split; [|split; [|split]]].
  - intros now Hnone. by apply checkRateLimit_first.
  - intros now rec Hrec Hin.
    rewrite (checkRateLimit_within _ _ _ _ _ Hrec Hin).
    destruct (Z.ltb_spec (RateLimit.count rec) limit); cbn.
    + split; [done|]. reflexivity.
    + split; [|reflexivity]. split; [discriminate|lia].
  - intros first later Hnone Hlen Hall. cbn [RateLimit.requests].
    rewrite (checkRateLimit_first _ _ _ _ Hnone).
    pose proof (requests_within limit
                  (<[rate_key ip := {| RateLimit.firstRequest := first;
                                       RateLimit.count := 1 |}]> m)
                  ip first 1 later (lookup_insert_eq _ _ _) Hall) as Hrest.
    destruct (RateLimit.requests limit _ ip later) as [oks m'].
    cbn [fst] in *. rewrite Hrest.
    rewrite (imap_threshold later 1 limit) by lia.
    replace (Z.to_nat limit) with (S (Z.to_nat (limit - 1))) by lia.
    reflexivity.
  - intros cfg w clk st log target isDomainName targetIPs port host wsPath
      Hcfg Hmap Hdenied.
    unfold Api.throttle. rewrite Hcfg, Hmap.
    destruct (RateLimit.checkRateLimit limit m ip (Api.at_rate_limit clk))
      as [allowed limits]. cbn in Hdenied. subst allowed. cbn.
    unfold Api.reply. eexists _, log. rewrite <- app_assoc. reflexivity.
  - intros now rec Hrec Hlate. by apply (checkRateLimit_expired _ _ _ _ rec).
Qed.

Lemma rate_limit_window_witness :
  (RateLimit.requests 60 ∅ "198.51.100.7" (0 :: replicate 60 1000)).1
  = replicate 60 true ++ [false].
Proof.
  destruct (rate_limit_window 60 ∅ "198.51.100.7") as (_ & _ & Hrun & _).
  - lia.
  - apply Hrun.
    + reflexivity.
    + reflexivity.
    + apply Forall_replicate. unfold RateLimit.RATE_LIMIT_WINDOW. lia.
Defined.

(** ** The CDN trace probe *)

(** C6, as stated, fails: a 200 response whose body is one space is not
    empty, and the probe resolves with [success: false]. *)
Lemma blank_body_is_unavailable :
  Cdn.body [" "] <> ""
  /\ Cdn.testCDNTrace (Cdn.Response 200 [" "])
     = Resolved {| Cdn.success := false; Cdn.warp := "off";
                   Cdn.reason := Some "响应为空" |}.
Proof. split; [discriminate|reflexivity]. Qed.

Lemma onEnd_failure statusCode data :
  negb (statusCode =? 200) || Js.isBlank data = true ->
  Cdn.success (Cdn.onEnd statusCode data) = false
  /\ Cdn.warp (Cdn.onEnd statusCode data) = "off"
  /\ is_Some (Cdn.reason (Cdn.onEnd statusCode data)).
Proof. intros Hbad. unfold Cdn.onEnd. rewrite Hbad. cbn. eauto. Qed.

Lemma onEnd_success statusCode data :
  negb (statusCode =? 200) || Js.isBlank data = false ->
  Cdn.success (Cdn.onEnd statusCode data) = true
  /\ (Cdn.warp (Cdn.onEnd statusCode data) = "on"
      \/ Cdn.warp (Cdn.onEnd statusCode data) = "off")
  /\ Cdn.reason (Cdn.onEnd statusCode data) = None.
Proof.
  intros Hok. unfold Cdn.onEnd. rewrite Hok. cbn.
  destruct (String.eqb _ "on"); eauto.
Qed.

(** C6, amended.  When the call of [https.request] returns,
    [testCDNTrace] resolves.  It resolves with [success: false],
    [warp: "off"] and a reason on a status other than 200, on a body that
    is blank (nothing is left of it once white space is trimmed), on a
    connection error and on a timeout; on a 200 response whose body is not
    blank it resolves with [success: true], no reason, and [warp] equal to
    ["on"] or to ["off"]. *)
Theorem testCDNTrace_resolves (x : Cdn.exchange) :
  (forall message, x <> Cdn.RequestThrows message) ->
  exists t,
    Cdn.testCDNTrace x = Resolved t
    /\ match x with
       | Cdn.RequestThrows _ => False
       | Cdn.Response statusCode chunks =>
           if (statusCode =? 200) && negb (Js.isBlank (Cdn.body chunks))
           then Cdn.success t = true
                /\ (Cdn.warp t = "on" \/ Cdn.warp t = "off")
                /\ Cdn.reason t = None
           else Cdn.success t = false /\ Cdn.warp t = "off"
                /\ is_Some (Cdn.reason t)
       | Cdn.RequestError _ | Cdn.RequestTimeout =>
           Cdn.success t = false /\ Cdn.warp t = "off"
           /\ is_Some (Cdn.reason t)
       end.
Proof.
  intros Hreturns.
  destruct x as [message|statusCode chunks|message|]; cbn [Cdn.testCDNTrace].
  - by destruct (Hreturns message).
  - eexists. split; [reflexivity|].
    destruct (negb (statusCode =? 200) || Js.isBlank (Cdn.body chunks))
      eqn:Hbad.
    + replace ((statusCode =? 200) && negb (Js.isBlank (Cdn.body chunks)))
        with false
        by (destruct (statusCode =? 200), (Js.isBlank (Cdn.body chunks));
            done).
      by apply onEnd_failure.
    + replace ((statusCode =? 200) && negb (Js.isBlank (Cdn.body chunks)))
        with true
        by (destruct (statusCode =? 200), (Js.isBlank (Cdn.body chunks));
            done).
      by apply onEnd_success.
  - eexists. split; [reflexivity|]. cbn. eauto.
  - eexists. split; [reflexivity|]. cbn. eauto.
Qed.

Lemma testCDNTrace_resolves_witness :
  exists t,
    Cdn.testCDNTrace (Cdn.Response 200 ["fl=29f1"; String "010" "warp=on"])
    = Resolved t
    /\ Cdn.success t = true
    /\ (Cdn.warp t = "on" \/ Cdn.warp t = "off")
    /\ Cdn.reason t = None.
Proof.
  apply (testCDNTrace_resolves
           (Cdn.Response 200 ["fl=29f1"; String "010" "warp=on"])).
  intros message. discriminate.
Defined.

(** White space is read from the decoded text: a body of U+00A0, U+3000
    and U+FEFF is blank; the single byte A0 is not, it decodes to U+FFFD,
    and neither is U+00A0 when its two bytes come in two chunks. *)
Example blank_bodies :
  Js.isBlank (String "194" (String "160" (String "227" (String "128"
               (String "128" (String "239" (String "187" (String "191" ""))))))))
  = true
  /\ Cdn.testCDNTrace (Cdn.Response 200 [String "227" (String "128" (String "128" ""))])
     = Resolved {| Cdn.success := false; Cdn.warp := "off";
                   Cdn.reason := Some "响应为空" |}
  /\ Cdn.body [String "160" ""] = Js.replacement
  /\ Cdn.testCDNTrace (Cdn.Response 200 [String "160" ""])
     = Resolved {| Cdn.success := true; Cdn.warp := "off"; Cdn.reason := None |}
  /\ Cdn.body [String "194" ""; String "160" ""] = Js.replacement +:+ Js.replacement
  /\ Cdn.testCDNTrace (Cdn.Response 200 [String "194" ""; String "160" ""])
     = Resolved {| Cdn.success := true; Cdn.warp := "off"; Cdn.reason := None |}.
Proof. repeat split. Qed.

(** Decoding keeps well-formed text and replaces what is ill-formed: an
    overlong form, a surrogate, a sequence cut short by an ASCII byte. *)
Example toText_examples :
  Js.toText "warp=on 域名" = "warp=on 域名"
  /\ Js.toText (String "192" (String "175" "")) = Js.replacement +:+ Js.replacement
  /\ Js.toText (String "237" (String "160" (String "128" "")))
     = Js.replacement +:+ Js.replacement +:+ Js.replacement
  /\ Js.toText (String "226" (String "128" "a")) = Js.replacement +:+ "a"
  /\ Js.toText (String "240" (String "159" (String "152" (String "128" ""))))
     = String "240" (String "159" (String "152" (String "128" ""))).
Proof. repeat split. Qed.

(** The example of the specification: a 404 answer. *)
Example testCDNTrace_404 :
  Cdn.testCDNTrace (Cdn.Response 404 ["<html>not found</html>"])
  = Resolved {| Cdn.success := false; Cdn.warp := "off";
                Cdn.reason := Some "端点不可用 (HTTP 404)" |}.
Proof. vm_compute. reflexivity. Qed.

Example testCDNTrace_warp_on :
  Cdn.testCDNTrace
    (Cdn.Response 200 ["fl=29f1"; String "010" "warp="; "on"; String "010" "gateway=off"])
  = Resolved {| Cdn.success := true; Cdn.warp := "on"; Cdn.reason := None |}.
Proof. vm_compute. reflexivity. Qed.

Example testCDNTrace_warp_plus :
  Cdn.testCDNTrace (Cdn.Response 200 ["warp=plus"])
  = Resolved {| Cdn.success := true; Cdn.warp := "off"; Cdn.reason := None |}.
Proof. vm_compute. reflexivity. Qed.

(** ** Detection *)

Section DetectFacts.

Import Detect.

Variables (dw dc : bool) (obs : observation).
Variables (targetIP : string) (targetPort : Z) (host wsPath : string).

Lemma keeps_andThen b1 b2 : keeps b1 -> keeps b2 -> keeps (b1 >-> b2).
Proof.
  intros H1 H2 st. unfold andThen.
  destruct (H1 st) as [Hip Herr]. destruct (b1 st) as [st' [message|]]; [done|].
  destruct (H2 st') as [Hip' Herr']. cbn in *. split; congruence.
Qed.

Lemma keeps_warn err f :
  (forall r, ip (f r) = ip r /\ error (f r) = error r) ->
  forall st, ip (result (warn err (update f st)).1) = ip (result st)
             /\ error (result (warn err (update f st)).1) = error (result st).
Proof.
  intros Hf st. unfold warn. destruct (read_message err); cbn; apply Hf.
Qed.

Lemma keeps_geoBlock : keeps (geoBlock obs targetIP).
Proof.
  intros st. unfold geoBlock, warn.
  destruct (lookupGeoIP obs) as [[[|kv o]|]|err]; try done.
  destruct (read_message err); done.
Qed.

Lemma keeps_tlsBlock : keeps (tlsBlock obs targetIP targetPort host).
Proof.
  intros st. unfold tlsBlock, warn.
  destruct (testTLS obs) as [u|err]; [done|].
  destruct (read_message err); done.
Qed.

Lemma keeps_wsBlock : keeps (wsBlock dw obs targetIP targetPort host wsPath).
Proof.
  intros st. unfold wsBlock, warn. destruct dw; [done|].
  destruct (testWebSocket obs) as [[info|]|err]; try done.
  destruct (read_message err); done.
Qed.

Lemma keeps_cdnBlock : keeps (cdnBlock dc obs targetIP targetPort host).
Proof.
  intros st. unfold cdnBlock, warn. destruct dc; [done|].
  destruct (Cdn.testCDNTrace (cdnExchange obs)) as [t|err].
  - destruct (Js.falsy (Cdn.warp t)); done.
  - destruct (read_message err); done.
Qed.

Lemma keeps_tryBody :
  keeps (tryBody dw dc obs targetIP targetPort host wsPath).
Proof.
  unfold tryBody.
  auto using keeps_andThen, keeps_geoBlock, keeps_tlsBlock, keeps_wsBlock,
    keeps_cdnBlock.
Qed.

(** The result is always for the IP the function was given. *)
Lemma detectSingleIP_ip index total :
  ip (detectSingleIP dw dc obs targetIP targetPort host wsPath index total).1
  = targetIP.
Proof.
  unfold detectSingleIP.
  destruct (keeps_tryBody (fresh targetIP)) as [Hip _].
  destruct (tryBody _ _ _ _ _ _ _ _) as [st [message|]]; exact Hip.
Qed.

(** The [error] field is there exactly when an exception left the [try]
    body, and holds its message. *)
Lemma detectSingleIP_error index total :
  error (detectSingleIP dw dc obs targetIP targetPort host wsPath index total).1
  = escapes dw dc obs targetIP targetPort host wsPath.
Proof.
  unfold detectSingleIP, escapes.
  destruct (keeps_tryBody (fresh targetIP)) as [_ Herr].
  destruct (tryBody _ _ _ _ _ _ _ _) as [st [message|]]; [done|exact Herr].
Qed.

(** An exception leaves the [try] body when a collaborator rejects with
    a value that has no [message] to read, here the TLS probe. *)
Lemma escapes_tls geoipData err typeError :
  lookupGeoIP obs = Resolved geoipData ->
  testTLS obs = Rejected err ->
  read_message err = inr typeError ->
  escapes dw dc obs targetIP targetPort host wsPath = Some typeError.
Proof.
  intros Hgeo Htls Hread.
  unfold escapes, tryBody, andThen, geoBlock, tlsBlock, warn.
  rewrite Hgeo, Htls, Hread. by destruct geoipData as [[|kv o]|].
Qed.

(** No exception leaves it when every rejection carries an [Error]. *)
Lemma escapes_none :
  (forall err, lookupGeoIP obs = Rejected err -> exists m, err = ErrorObject m) ->
  (forall err, testTLS obs = Rejected err -> exists m, err = ErrorObject m) ->
  (forall err, testWebSocket obs = Rejected err -> exists m, err = ErrorObject m) ->
  escapes dw dc obs targetIP targetPort host wsPath = None.
Proof.
  intros Hgeo Htls Hws.
  unfold escapes, tryBody, andThen, geoBlock, tlsBlock, wsBlock, cdnBlock, warn.
  destruct (lookupGeoIP obs) as [geoipData|err1];
    [|destruct (Hgeo err1 eq_refl) as [m1 ->]];
    (destruct (testTLS obs) as [u|err2];
     [|destruct (Htls err2 eq_refl) as [m2 ->]]);
    (destruct (testWebSocket obs) as [wsInfo|err3];
     [|destruct (Hws err3 eq_refl) as [m3 ->]]);
    try destruct geoipData as [[|kv o]|]; try destruct wsInfo as [info|];
    destruct dw, dc; cbn;
    try (destruct (cdnExchange obs); cbn;
         try destruct (Js.falsy (Cdn.warp (Cdn.onEnd _ _))));
    reflexivity.
Qed.

(** When the GeoIP lookup settles normally and every probe fails in the
    expected way (an [Error] from TLS and WebSocket, an unsuccessful CDN
    trace), the three checks are false and there is no [error] field. *)
Lemma detectSingleIP_all_failed index total geoipData tlsError wsError :
  lookupGeoIP obs = Resolved geoipData ->
  testTLS obs = Rejected (ErrorObject tlsError) ->
  testWebSocket obs = Rejected (ErrorObject wsError) ->
  (forall t, Cdn.testCDNTrace (cdnExchange obs) = Resolved t ->
             Cdn.success t = false) ->
  let r := (detectSingleIP dw dc obs targetIP targetPort host wsPath index total).1 in
  checks r = {| tls_detect := false; ws_real_connect := false; cdn_trace := false |}
  /\ error r = None.
Proof.
  intros Hgeo Htls Hws Hcdn.
  unfold detectSingleIP, tryBody, andThen, geoBlock, tlsBlock, wsBlock, cdnBlock.
  rewrite Hgeo, Htls, Hws.
  destruct (Cdn.testCDNTrace (cdnExchange obs)) as [t|err] eqn:Ht.
  - specialize (Hcdn t eq_refl).
    destruct geoipData as [[|kv o]|], dw, dc; cbn; rewrite ?Hcdn;
      try (destruct (Js.falsy (Cdn.warp t))); done.
  - destruct (cdnExchange obs) as [message| | |]; try discriminate Ht.
    injection Ht as <-.
    destruct geoipData as [[|kv o]|], dw, dc; done.
Qed.

Lemma geoBlock_calls st :
  calls (geoBlock obs targetIP st).1 = calls st ++ [CallGeoIP targetIP].
Proof.
  unfold geoBlock, warn.
  destruct (lookupGeoIP obs) as [[[|kv o]|]|err]; try reflexivity.
  destruct (read_message err); reflexivity.
Qed.

Lemma tlsBlock_calls st :
  calls (tlsBlock obs targetIP targetPort host st).1
  = calls st ++ [CallTLS targetIP targetPort host].
Proof.
  unfold tlsBlock, warn. destruct (testTLS obs) as [u|err]; [reflexivity|].
  destruct (read_message err); reflexivity.
Qed.

Lemma wsBlock_calls st :
  calls (wsBlock dw obs targetIP targetPort host wsPath st).1
  = calls st ++ (if dw then []
                 else [CallWebSocket targetIP targetPort host wsPath]).
Proof.
  unfold wsBlock, warn. destruct dw; [cbn; by rewrite app_nil_r|].
  destruct (testWebSocket obs) as [[info|]|err]; try reflexivity.
  destruct (read_message err); reflexivity.
Qed.

Lemma cdnBlock_calls st :
  calls (cdnBlock dc obs targetIP targetPort host st).1
  = calls st ++ (if dc then [] else [CallCDNTrace targetIP targetPort host]).
Proof.
  unfold cdnBlock, warn. destruct dc; [cbn; by rewrite app_nil_r|].
  destruct (Cdn.testCDNTrace (cdnExchange obs)) as [t|err].
  - destruct (Js.falsy (Cdn.warp t)); reflexivity.
  - destruct (read_message err); reflexivity.
Qed.

(** The calls of a run are the planned ones, up to the block an exception
    leaves; the GeoIP lookup is always among them. *)
Lemma detectSingleIP_calls index total :
  exists k,
    (1 <= k)%nat
    /\ (detectSingleIP dw dc obs targetIP targetPort host wsPath index total).2
       = take k (planned dw dc targetIP targetPort host wsPath).
Proof.
  assert (Hbody : exists k,
             (1 <= k)%nat
             /\ calls (tryBody dw dc obs targetIP targetPort host wsPath
                         (fresh targetIP)).1
                = take k (planned dw dc targetIP targetPort host wsPath)).
  { unfold tryBody, andThen, planned.
    pose proof (geoBlock_calls (fresh targetIP)) as Hgeo.
    destruct (geoBlock obs targetIP (fresh targetIP)) as [st1 [m1|]];
      cbn [fst] in *.
    { exists 1%nat. rewrite Hgeo. split; [lia|reflexivity]. }
    pose proof (tlsBlock_calls st1) as Htls.
    destruct (tlsBlock obs targetIP targetPort host st1) as [st2 [m2|]];
      cbn [fst] in *.
    { exists 2%nat. rewrite Htls, Hgeo. split; [lia|reflexivity]. }
    pose proof (wsBlock_calls st2) as Hws.
    destruct (wsBlock dw obs targetIP targetPort host wsPath st2)
      as [st3 [m3|]] eqn:Hthrown; cbn [fst] in *.
    { exists 3%nat. rewrite Hws, Htls, Hgeo. split; [lia|].
      destruct dw; [discriminate Hthrown|]. by destruct dc. }
    pose proof (cdnBlock_calls st3) as Hcdn.
    destruct (cdnBlock dc obs targetIP targetPort host st3) as [st4 m4];
      cbn [fst] in *.
    exists 4%nat. split; [lia|].
    assert (calls st4 = calls st3 ++
              (if dc then [] else [CallCDNTrace targetIP targetPort host]))
      as -> by (by destruct m4).
    rewrite Hws, Htls, Hgeo. destruct dw, dc; reflexivity. }
  destruct Hbody as (k & Hk & Hcalls). exists k. split; [done|].
  unfold detectSingleIP.
  by destruct (tryBody _ _ _ _ _ _ _ _) as [st [message|]].
Qed.

Lemma detectSingleIP_calls_nonempty index total :
  (detectSingleIP dw dc obs targetIP targetPort host wsPath index total).2 <> [].
Proof.
  destruct (detectSingleIP_calls index total) as (k & Hk & ->).
  destruct k as [|k]; [lia|]. discriminate.
Qed.

(** Every WebSocket probe of a run is made with the path of the request. *)
Lemma detectSingleIP_calls_wsPath index total a p h path :
  CallWebSocket a p h path
    ∈ (detectSingleIP dw dc obs targetIP targetPort host wsPath index total).2 ->
  path = wsPath.
Proof.
  destruct (detectSingleIP_calls index total) as (k & _ & ->).
  intros Hin. apply subseteq_take in Hin. unfold planned in Hin.
  destruct dw, dc; cbn in Hin;
    repeat match goal with
      | H : _ ∈ _ :: _ |- _ => apply elem_of_cons in H as [H|H]
      | H : _ ∈ [] |- _ => by apply elem_of_nil in H
      end; congruence.
Qed.

End DetectFacts.

Lemma imap_take_drop {A B : Type} (f : nat -> A -> B) (n : nat) (l : list A) :
  imap f l = imap f (take n l) ++ imap (fun k => f (n + k)%nat) (drop n l).
Proof.
  revert n f. induction l as [|x l IH]; intros [|n] f; try reflexivity.
  cbn. f_equal. apply (IH n (f ∘ S)).
Qed.

(** The batch loop is the indexed map of the detection over the targets:
    no batch boundary drops, repeats or reorders a target. *)
Lemma batchLoop_spec {R : Type} (detect : string -> nat -> nat -> R)
    (targetIPs : list string) (fuel i : nat) (results : list R) :
  (length targetIPs - i <= fuel)%nat ->
  Detect.batchLoop fuel detect targetIPs i results
  = Some (results
            ++ imap (fun k targetIP => detect targetIP (i + k)%nat (length targetIPs))
                 (drop i targetIPs)).
Proof.
  revert i results.
  induction fuel as [|fuel IH]; intros i results Hfuel; cbn [Detect.batchLoop];
    destruct (Nat.ltb_spec i (length targetIPs)) as [Hi|Hi]; try lia.
  - rewrite drop_ge by lia. cbn. by rewrite app_nil_r.
  - rewrite IH by (unfold Detect.MAX_CONCURRENT; lia).
    f_equal. rewrite <- app_assoc. f_equal.
    rewrite (imap_take_drop _ Detect.MAX_CONCURRENT (drop i targetIPs)).
    rewrite drop_drop. f_equal.
    apply imap_ext. intros k targetIP _. cbn beta. f_equal.
    unfold Detect.MAX_CONCURRENT. lia.
  - rewrite drop_ge by lia. cbn. by rewrite app_nil_r.
Qed.

Lemma detectAll_spec {R : Type} (detect : string -> nat -> nat -> R)
    (targetIPs : list string) :
  Detect.detectAll detect targetIPs
  = Some (imap (fun k targetIP => detect targetIP k (length targetIPs)) targetIPs).
Proof.
  unfold Detect.detectAll. rewrite batchLoop_spec by lia. reflexivity.
Qed.

(** C1.  For a target list of [n] IPs the detection stage of a request
    produces exactly [n] results, and the result at index [i] is the one
    [detectSingleIP] computes for the IP at index [i], from what the
    collaborators answer for that IP alone: its [ip] field is that IP.
    When all its probes fail, the result is still there, with the three
    checks false; when an exception leaves the detection of that IP, the
    result is still there, with the message in its [error] field. *)
Theorem one_result_per_ip (cfg : Api.config) (w : Api.world)
    (targetPort : Z) (host wsPath : string) (targetIPs : list string) :
  exists runs,
    Detect.detectAll (Api.detect cfg w targetPort host wsPath) targetIPs
    = Some runs
    /\ length runs = length targetIPs
    /\ forall i targetIP,
        targetIPs !! i = Some targetIP ->
        let obs := Api.observe w targetIP targetPort host wsPath in
        exists r,
          fst <$> runs !! i = Some r
          /\ r = (Detect.detectSingleIP
                    (Api.DISABLE_WEBSOCKET cfg) (Api.DISABLE_CDN_TRACE cfg)
                    obs targetIP targetPort host wsPath i (length targetIPs)).1
          /\ Detect.ip r = targetIP
          /\ (forall geoipData tlsError wsError,
                Detect.lookupGeoIP obs = Resolved geoipData ->
                Detect.testTLS obs = Rejected (ErrorObject tlsError) ->
                Detect.testWebSocket obs = Rejected (ErrorObject wsError) ->
                (forall t, Cdn.testCDNTrace (Detect.cdnExchange obs) = Resolved t ->
                           Cdn.success t = false) ->
                Detect.checks r
                = {| Detect.tls_detect := false;
                     Detect.ws_real_connect := false;
                     Detect.cdn_trace := false |}
                /\ Detect.error r = None)
          /\ (forall message,
                Detect.escapes
                  (Api.DISABLE_WEBSOCKET cfg) (Api.DISABLE_CDN_TRACE cfg)
                  obs targetIP targetPort host wsPath = Some message ->
                Detect.error r = Some message).
Proof.
  eexists. split; [apply detectAll_spec|]. split; [by rewrite length_imap|].
  intros i targetIP Hi obs. eexists.
  rewrite list_lookup_imap, Hi. cbn. split; [reflexivity|].
  unfold Api.detect. fold obs. split; [reflexivity|].
  split; [apply detectSingleIP_ip|]. split.
  - intros geoipData tlsError wsError Hgeo Htls Hws Hcdn.
    by apply (detectSingleIP_all_failed _ _ _ _ _ _ _ _ _ geoipData tlsError wsError).
  - intros message Hescapes. by rewrite detectSingleIP_error.
Qed.

Lemma one_result_per_ip_witness :
  exists runs r0 r1,
    Detect.detectAll (Api.detect settings mixed 443 "clpan.pages.dev" "/")
      ["192.0.2.1"; "192.0.2.2"; "192.0.2.3"] = Some runs
    /\ length runs = 3%nat
    /\ fst <$> runs !! 0%nat = Some r0
    /\ Detect.ip r0 = "192.0.2.1"
    /\ Detect.checks r0 = {| Detect.tls_detect := false;
                             Detect.ws_real_connect := false;
                             Detect.cdn_trace := false |}
    /\ Detect.error r0 = None
    /\ fst <$> runs !! 1%nat = Some r1
    /\ Detect.ip r1 = "192.0.2.2"
    /\ Detect.error r1
       = Some "Cannot read properties of undefined (reading 'message')".
Proof.
  destruct (one_result_per_ip settings mixed 443 "clpan.pages.dev" "/"
              ["192.0.2.1"; "192.0.2.2"; "192.0.2.3"])
    as (runs & Hruns & Hlen & Hall).
  destruct (Hall 0%nat "192.0.2.1" eq_refl) as (r0 & H0 & _ & Hip0 & Hfail0 & _).
  destruct (Hall 1%nat "192.0.2.2" eq_refl) as (r1 & H1 & _ & Hip1 & _ & Herr1).
  destruct (Hfail0 None "connect ECONNREFUSED"
              "WebSocket 连接被拒绝（目标服务器未开放该端口或服务）")
    as [Hchecks0 Herr0].
  - reflexivity.
  - reflexivity.
  - reflexivity.
  - intros t [= <-]. reflexivity.
  - exists runs, r0, r1. repeat split; try assumption.
    apply Herr1. vm_compute. reflexivity.
Defined.

(** ** The request handler *)

Section HandlerFacts.

Import Api.

Variables (cfg : config) (w : world) (clk : clock).

(** What [serve] does: a hit answers from the cache and changes nothing;
    a miss runs the detection, stores the response and answers with it. *)
Lemma serve_inv st log ip isDomainName targetIPs targetPort host wsPath
    st' r log' :
  serve cfg w clk st log ip isDomainName targetIPs targetPort host wsPath
  = Some (st', r, log') ->
  let key := cacheKey isDomainName ip targetPort host in
  status r = 200
  /\ ((exists e,
         requestCache st !! key = Some e
         /\ at_cache_lookup clk - timestamp e < CACHE_DURATION
         /\ st' = st /\ json r = data e
         /\ log' = log ++ [CacheLookup key true; Respond 200])
      \/ ((forall e, requestCache st !! key = Some e ->
                     CACHE_DURATION <= at_cache_lookup clk - timestamp e)
          /\ exists runs,
              Detect.detectAll (detect cfg w targetPort host wsPath) targetIPs
              = Some runs
              /\ json r = build clk ip isDomainName targetIPs targetPort host
                            (clean <$> (fst <$> runs))
              /\ requestCache st'
                 = <[key := {| data := json r;
                               timestamp := at_cache_store clk |}]>
                     (requestCache st)
              /\ rateLimitMap st' = rateLimitMap st
              /\ log' = log ++ [CacheLookup key false]
                          ++ (Probe <$> concat (snd <$> runs))
                          ++ [CacheWrite key; Respond 200])).
Proof.
  intros Hserve key. unfold serve, reply in Hserve.
  rewrite detectAll_spec in Hserve. fold key in Hserve.
  destruct (requestCache st !! key) as [e|] eqn:Hcached.
  - destruct (Z.ltb_spec (at_cache_lookup clk - timestamp e) CACHE_DURATION)
      as [Hfresh|Hstale].
    + injection Hserve as <- <- <-. split; [done|]. left. exists e.
      rewrite <- app_assoc. done.
    + injection Hserve as <- <- <-. split; [done|]. right. split.
      * intros e' [= <-]. done.
      * eexists. split; [apply detectAll_spec|]. cbn.
        rewrite <- !app_assoc. done.
  - injection Hserve as <- <- <-. split; [done|]. right. split; [done|].
    eexists. split; [apply detectAll_spec|]. cbn. rewrite <- !app_assoc. done.
Qed.


Lemma throttle_inv st log client ip isDomainName targetIPs port host wsPath
    st' r log' :
  throttle cfg w clk st log client ip isDomainName targetIPs port host wsPath
  = Some (st', r, log') ->
  exists allowed limits,
    RateLimit.checkRateLimit (MAX_REQUESTS_PER_IP cfg) (rateLimitMap st)
      client (at_rate_limit clk) = (allowed, limits)
    /\ ((allowed = false /\ status r = 429
         /\ st' = {| requestCache := requestCache st; rateLimitMap := limits |}
         /\ log' = log ++ [RateLimitCheck client false; Respond 429])
        \/ (allowed = true /\ status r = 400
            /\ st' = {| requestCache := requestCache st; rateLimitMap := limits |}
            /\ log' = log ++ [RateLimitCheck client true; Respond 400]
            /\ forall targetPort,
                parsePort port = Some targetPort ->
                targetPort < 1 \/ 65535 < targetPort)
        \/ (allowed = true
            /\ exists targetPort,
                parsePort port = Some targetPort
                /\ 1 <= targetPort <= 65535
                /\ serve cfg w clk
                     {| requestCache := requestCache st; rateLimitMap := limits |}
                     (log ++ [RateLimitCheck client true])
                     ip isDomainName targetIPs targetPort host wsPath
                   = Some (st', r, log'))).
Proof.
  unfold throttle, reply.
  destruct (RateLimit.checkRateLimit _ _ _ _) as [allowed limits].
  intros Hthrottle. exists allowed, limits. split; [done|].
  destruct allowed; cbn in Hthrottle.
  - destruct (parsePort port) as [targetPort|].
    + destruct (Z.ltb_spec targetPort 1), (Z.ltb_spec 65535 targetPort);
        cbn in Hthrottle.
      1-3: injection Hthrottle as <- <- <-; right; left;
           rewrite <- app_assoc; (do 4 (split; [done|]));
           intros ? [= <-]; lia.
      right. right. split; [done|]. exists targetPort. split; [done|].
      split; [lia|done].
    + injection Hthrottle as <- <- <-. right. left. rewrite <- app_assoc.
      do 4 (split; [done|]). by intros ? [=].
  - injection Hthrottle as <- <- <-. left. by rewrite <- app_assoc.
Qed.

Lemma route_inv st client ip isDomainName port host wsPath st' r log' :
  route cfg w clk st client ip isDomainName port host wsPath
  = Some (st', r, log') ->
  exists resolver targetIPs,
    Forall (fun e => is_resolver e = true) resolver
    /\ (isDomainName = false -> resolver = [] /\ targetIPs = [ip])
    /\ (isDomainName = true ->
        exists dst res,
          Dns.resolve (dns w) ip = Some (dst, res)
          /\ resolver = Resolve ip :: (Query <$> Dns.queries dst))
    /\ ((status r = 400 /\ st' = st /\ log' = resolver ++ [Respond 400])
        \/ (targetIPs <> []
            /\ (isDomainName = true ->
                exists dst,
                  Dns.resolve (dns w) ip = Some (dst, Dns.Ok targetIPs))
            /\ throttle cfg w clk st resolver client ip isDomainName targetIPs
                 port host wsPath
               = Some (st', r, log'))).
Proof.
  unfold route, reply. destruct isDomainName.
  - destruct (Dns.resolve (dns w) ip) as [[dst res]|] eqn:Hres; [|done].
    intros Hroute.
    assert (Hresolver : Forall (fun e => is_resolver e = true)
                          (Resolve ip :: (Query <$> Dns.queries dst))).
    { constructor; [done|]. apply Forall_fmap, Forall_true. done. }
    destruct res as [[|ip1 ips]|err].
    + injection Hroute as <- <- <-.
      exists (Resolve ip :: (Query <$> Dns.queries dst)), [].
      split; [done|]. split; [done|]. split; [eauto|]. left. done.
    + exists (Resolve ip :: (Query <$> Dns.queries dst)), (ip1 :: ips).
      split; [done|]. split; [done|]. split; [eauto|].
      destruct (Nat.ltb_spec MAX_IP_COUNT (length (ip1 :: ips))).
      * injection Hroute as <- <- <-. left. done.
      * right. split; [done|]. split; [eauto|]. done.
    + injection Hroute as <- <- <-.
      exists (Resolve ip :: (Query <$> Dns.queries dst)), [].
      split; [done|]. split; [done|]. split; [eauto|]. left. done.
  - intros Hroute. exists [], [ip]. split; [done|]. split; [done|].
    split; [done|]. right. split; [done|]. split; [done|]. exact Hroute.
Qed.

(** Every way through the handler: the request is refused before the
    rate limiter, or it is stopped at the rate limiter or at the port
    check, or it reaches [serve]. *)
Lemma api_inv st req st' r log' :
  api cfg w clk st req = Some (st', r, log') ->
  exists resolver,
    Forall (fun e => is_resolver e = true) resolver
    /\ ((status r = 400 /\ st' = st /\ log' = resolver ++ [Respond 400])
        \/ (exists allowed limits,
              RateLimit.checkRateLimit (MAX_REQUESTS_PER_IP cfg) (rateLimitMap st)
                (clientIp req) (at_rate_limit clk) = (allowed, limits)
              /\ st' = {| requestCache := requestCache st; rateLimitMap := limits |}
              /\ ((allowed = false /\ status r = 429)
                  \/ (allowed = true /\ status r = 400))
              /\ log' = resolver ++ [RateLimitCheck (clientIp req) allowed;
                                     Respond (status r)])
        \/ (exists ip port host wsPath targetIPs targetPort limits,
              parse req = Some (ip, port, host, wsPath)
              /\ parsePort port = Some targetPort
              /\ targetIPs <> []
              /\ (isDomain ip = false -> resolver = [])
              /\ (isDomain ip = true ->
                  exists dst,
                    Dns.resolve (dns w) ip = Some (dst, Dns.Ok targetIPs)
                    /\ resolver = Resolve ip :: (Query <$> Dns.queries dst))
              /\ RateLimit.checkRateLimit (MAX_REQUESTS_PER_IP cfg)
                   (rateLimitMap st) (clientIp req) (at_rate_limit clk)
                 = (true, limits)
              /\ serve cfg w clk
                   {| requestCache := requestCache st; rateLimitMap := limits |}
                   (resolver ++ [RateLimitCheck (clientIp req) true])
                   ip (isDomain ip) targetIPs targetPort host wsPath
                 = Some (st', r, log'))).
Proof.
  unfold api, reply.
  destruct (parse req) as [[[[ip port] host] wsPath]|] eqn:Hparse.
  - destruct (negb (isIPAddress ip) && negb (isDomain ip)).
    + intros [= <- <- <-]. exists []. split; [done|]. left. done.
    + intros Hroute. apply route_inv in Hroute
        as (resolver & targetIPs & Hresolver & Hip & Hdom & [Hrefused|Hgo]).
      * exists resolver. split; [done|]. left. done.
      * destruct Hgo as (Hne & Hres & Hthrottle).
        apply throttle_inv in Hthrottle
          as (allowed & limits & Hcheck & [Hlim|[Hport|Hserve]]).
        -- destruct Hlim as (-> & Hs & -> & ->). exists resolver.
           split; [done|]. right. left. exists false, limits. rewrite Hs.
           split; [done|]. split; [done|]. split; [by left|done].
        -- destruct Hport as (-> & Hs & -> & -> & _). exists resolver.
           split; [done|]. right. left. exists true, limits. rewrite Hs.
           split; [done|]. split; [done|]. split; [by right|done].
        -- destruct Hserve as (-> & targetPort & Hpp & _ & Hserve).
           exists resolver. split; [done|]. right. right.
           exists ip, port, host, wsPath, targetIPs, targetPort, limits.
           split; [done|]. split; [done|]. split; [done|].
           split; [intros Hd; by apply Hip|]. split; [|done].
           intros Hd. destruct (Hres Hd) as [dst Hdst].
           destruct (Hdom Hd) as (dst' & res' & Hdst' & ->).
           rewrite Hdst in Hdst'. injection Hdst' as <- <-. eauto.
  - destruct (throws req); [done|].
    intros [= <- <- <-]. exists []. split; [done|]. left. done.
Qed.





(** For an input of the domain form the resolution step calls
    [resolveDomain], which sends DNS queries unless the input is an IP
    literal as well. *)
Lemma resolution_domain ip :
  isDomain ip = true ->
  exists dst res,
    Dns.resolve (dns w) ip = Some (dst, res)
    /\ resolution w ip = Resolve ip :: (Query <$> Dns.queries dst)
    /\ (isIPAddress ip = false ->
        exists rest, Dns.queries dst = Dns.QResolve4 ip :: rest)
    /\ (isIPAddress ip = true -> Dns.queries dst = []).
Proof.
  intros Hdom. unfold resolution. rewrite Hdom.
  destruct (resolve_total (dns w) ip) as [[dst res] Hres]. rewrite Hres.
  exists dst, res. split; [done|]. split; [done|]. split.
  - intros Hname. by eapply resolve_first_query.
  - intros Hliteral. rewrite (resolve_literal (dns w) ip Hliteral) in Hres.
    by injection Hres as <- _.
Qed.

Lemma resolution_literal ip :
  isIPAddress ip = true ->
  Forall (fun e => is_query e = false) (resolution w ip).
Proof.
  intros Hliteral. destruct (isDomain ip) eqn:Hdom.
  - destruct (resolution_domain ip Hdom) as (dst & res & _ & -> & _ & Hnone).
    rewrite (Hnone Hliteral). by repeat constructor.
  - unfold resolution. rewrite Hdom. constructor.
Qed.


End HandlerFacts.

Section CacheFacts.

Import Api.

Variable cfg : config.

Lemma parse_same_triple req1 req2 ip port host wsPath :
  q_ip req1 = q_ip req2 ->
  q_port req1 = q_port req2 ->
  q_host req1 = q_host req2 ->
  parse req1 = Some (ip, port, host, wsPath) ->
  parse req2 = Some (ip, port, host, default DEFAULT_WS_PATH (q_wsPath req2))
  /\ wsPath = default DEFAULT_WS_PATH (q_wsPath req1).
Proof.
  unfold parse. intros <- <- <-.
  destruct (q_ip req1) as [[[|c given]|shown]|]; try done.
  destruct (q_host req1) as [[h|shown]|]; try done;
    destruct (ipPortMatch (String c given)) as [[address digits]|];
    intros [= <- <- <- <-]; done.
Qed.

Lemma resolver_not_other resolver e :
  Forall (fun e => is_resolver e = true) resolver ->
  e ∈ resolver -> is_resolver e = true.
Proof. intros Hall Hin. by apply (proj1 (Forall_forall _ _) Hall). Qed.

(** The probes of a detection carry the WebSocket path it was run with. *)
Lemma runs_wsPath w targetPort host wsPath targetIPs runs a p h path :
  Detect.detectAll (detect cfg w targetPort host wsPath) targetIPs = Some runs ->
  Detect.CallWebSocket a p h path ∈ concat (snd <$> runs) ->
  path = wsPath.
Proof.
  rewrite detectAll_spec. intros [= <-] Hin.
  apply list_elem_of_In, in_concat in Hin as (calls & Hcalls & Hin).
  apply list_elem_of_In in Hcalls, Hin.
  apply list_elem_of_fmap in Hcalls as ([r calls'] & -> & Hrun).
  apply list_elem_of_lookup in Hrun as [i Hrun].
  rewrite list_lookup_imap in Hrun.
  destruct (targetIPs !! i) as [targetIP|]; [|done].
  cbn in Hrun. injection Hrun as Hrun. unfold detect in Hrun.
  cbn in Hin.
  eapply detectSingleIP_calls_wsPath. rewrite Hrun. exact Hin.
Qed.

Lemma runs_probe w targetPort host wsPath targetIPs runs :
  targetIPs <> [] ->
  Detect.detectAll (detect cfg w targetPort host wsPath) targetIPs = Some runs ->
  concat (snd <$> runs) <> [].
Proof.
  rewrite detectAll_spec. intros Hne [= <-].
  destruct targetIPs as [|targetIP rest]; [done|]. cbn.
  intros Hnil. apply app_eq_nil in Hnil as [Hnil _].
  unfold detect in Hnil. by eapply detectSingleIP_calls_nonempty.
Qed.

(** A request answered with status 200 went through [serve], after the
    resolution step. *)
Lemma api_served w clk st req st' r log :
  api cfg w clk st req = Some (st', r, log) ->
  status r = 200 ->
  exists resolver ip port host wsPath targetIPs targetPort limits,
    Forall (fun e => is_resolver e = true) resolver
    /\ parse req = Some (ip, port, host, wsPath)
    /\ parsePort port = Some targetPort
    /\ targetIPs <> []
    /\ resolver = resolution w ip
    /\ serve cfg w clk
         {| requestCache := requestCache st; rateLimitMap := limits |}
         (resolver ++ [RateLimitCheck (clientIp req) true])
         ip (isDomain ip) targetIPs targetPort host wsPath
       = Some (st', r, log).
Proof.
  intros Hapi Hok. apply api_inv in Hapi as (resolver & Hres & [H|[H|H]]).
  - destruct H as (Hs & _). rewrite Hs in Hok. done.
  - destruct H as (allowed & limits & _ & _ & [[_ Hs]|[_ Hs]] & _);
      rewrite Hs in Hok; done.
  - destruct H as (ip & port & host & wsPath & targetIPs & targetPort & limits
                   & Hparse & Hport & Hne & Hplain & Hdomain & _ & Hserve).
    exists resolver, ip, port, host, wsPath, targetIPs, targetPort, limits.
    do 4 (split; [done|]). split; [|done].
    unfold resolution. destruct (isDomain ip).
    + destruct (Hdomain eq_refl) as (dst & Hdst & ->). by rewrite Hdst.
    + by rewrite (Hplain eq_refl).
Qed.

Lemma resolver_is_not_probe e : is_resolver e = true -> is_probe e = false.
Proof. by destruct e. Qed.

(** A request answered with status 200, in full: it is a cache hit, which
    changes no cache entry and makes no probe, or a detection, whose
    response is stored under the key of the request. *)
Lemma api_ok_inv w clk st req st' r log :
  api cfg w clk st req = Some (st', r, log) ->
  status r = 200 ->
  exists key resolver,
    key_of req = Some key
    /\ Forall (fun e => is_resolver e = true) resolver
    /\ (forall ip port host wsPath,
          parse req = Some (ip, port, host, wsPath) ->
          resolver = resolution w ip)
    /\ ((exists e,
           requestCache st !! key = Some e
           /\ at_cache_lookup clk - timestamp e < CACHE_DURATION
           /\ requestCache st' = requestCache st
           /\ json r = data e
           /\ log = resolver ++ [RateLimitCheck (clientIp req) true;
                                 CacheLookup key true; Respond 200])
        \/ ((forall e, requestCache st !! key = Some e ->
                       CACHE_DURATION <= at_cache_lookup clk - timestamp e)
            /\ exists calls,
                calls <> []
                /\ (forall a p h path,
                      Detect.CallWebSocket a p h path ∈ calls ->
                      path = default DEFAULT_WS_PATH (q_wsPath req))
                /\ requestCache st'
                   = <[key := {| data := json r;
                                 timestamp := at_cache_store clk |}]>
                       (requestCache st)
                /\ log = resolver ++ [RateLimitCheck (clientIp req) true;
                                      CacheLookup key false]
                           ++ (Probe <$> calls)
                           ++ [CacheWrite key; Respond 200])).
Proof.
  intros Hapi Hok.
  apply api_served in Hapi
    as (resolver & ip & port & host & wsPath & targetIPs & targetPort & limits
        & Hres & Hparse & Hport & Hne & Hresolver & Hserve); [|done].
  exists (cacheKey (isDomain ip) ip targetPort host), resolver.
  split; [unfold key_of; by rewrite Hparse, Hport|]. split; [done|].
  split.
  { intros ip' port' host' wsPath' Hparse'. rewrite Hparse in Hparse'.
    injection Hparse' as <- _ _ _. exact Hresolver. }
  apply serve_inv in Hserve as [_ [Hhit|Hmiss]]; cbn [requestCache] in *.
  - left. destruct Hhit as (e & He & Hfresh & -> & Hjson & ->).
    exists e. rewrite <- app_assoc. done.
  - right. destruct Hmiss as (Hstale & runs & Hruns & _ & Hcache & _ & ->).
    split; [done|]. exists (concat (snd <$> runs)).
    split; [by eapply runs_probe|]. split.
    + intros a p h path Hin.
      rewrite (runs_wsPath _ _ _ _ _ _ _ _ _ _ Hruns Hin).
      unfold parse in Hparse.
      destruct (q_ip req) as [[[|c given]|shown]|]; try done.
      destruct (q_host req) as [[given_host|shown]|]; try done;
        destruct (ipPortMatch (String c given)) as [[address digits]|];
        by injection Hparse as _ _ _ <-.
    + split; [done|]. by rewrite <- !app_assoc.
Qed.

Lemma key_of_same_triple req1 req2 :
  q_ip req1 = q_ip req2 ->
  q_port req1 = q_port req2 ->
  q_host req1 = q_host req2 ->
  key_of req1 = key_of req2.
Proof.
  intros Hip Hport Hhost. unfold key_of.
  destruct (parse req1) as [[[[ip port] host] wsPath]|] eqn:Hparse1.
  - destruct (parse_same_triple _ _ _ _ _ _ Hip Hport Hhost Hparse1) as [-> _].
    done.
  - destruct (parse req2) as [[[[ip port] host] wsPath]|] eqn:Hparse2; [|done].
    destruct (parse_same_triple req2 req1 ip port host wsPath)
      as [Hparse1' _]; try done.
    congruence.
Qed.

Lemma lookup_in_hit_log resolver client key key' hit :
  Forall (fun e => is_resolver e = true) resolver ->
  CacheLookup key' hit
    ∈ resolver ++ [RateLimitCheck client true; CacheLookup key true; Respond 200] ->
  key' = key /\ hit = true.
Proof.
  intros Hres Hin. rewrite elem_of_app, !elem_of_cons in Hin.
  destruct Hin as [Hin|[Hin|[Hin|[Hin|Hin]]]]; try done.
  - by apply (resolver_not_other _ _ Hres) in Hin.
  - by injection Hin as -> ->.
  - by apply elem_of_nil in Hin.
Qed.

(** Two requests with the same [ip], [port] and [host] parameters, the
    second handled on the state the first left, both answered with status
    200: they have the same cache key; after the first the cache holds
    its response under that key; the second is answered from that entry,
    with no probe, while the age of the entry is under [CACHE_DURATION],
    and runs a detection of its own once it is not. *)
Lemma second_request w1 w2 clk1 clk2 st0 st1 st2 req1 req2 r1 r2 log1 log2 :
  q_ip req1 = q_ip req2 ->
  q_port req1 = q_port req2 ->
  q_host req1 = q_host req2 ->
  api cfg w1 clk1 st0 req1 = Some (st1, r1, log1) -> status r1 = 200 ->
  api cfg w2 clk2 st1 req2 = Some (st2, r2, log2) -> status r2 = 200 ->
  exists key e,
    key_of req1 = Some key /\ key_of req2 = Some key
    /\ requestCache st1 !! key = Some e /\ data e = json r1
    /\ ((exists key', CacheLookup key' false ∈ log1) ->
        timestamp e = at_cache_store clk1
        /\ forall a p h path,
            Probe (Detect.CallWebSocket a p h path) ∈ log1 ->
            path = default DEFAULT_WS_PATH (q_wsPath req1))
    /\ (at_cache_lookup clk2 - timestamp e < CACHE_DURATION ->
        json r2 = json r1 /\ requestCache st2 = requestCache st1
        /\ Forall (fun ev => is_probe ev = false) log2
        /\ exists resolver,
            Forall (fun ev => is_resolver ev = true) resolver
            /\ (forall ip port host wsPath,
                  parse req2 = Some (ip, port, host, wsPath) ->
                  resolver = resolution w2 ip)
            /\ log2 = resolver ++ [RateLimitCheck (clientIp req2) true;
                                   CacheLookup key true; Respond 200])
    /\ (CACHE_DURATION <= at_cache_lookup clk2 - timestamp e ->
        CacheLookup key false ∈ log2
        /\ Exists (fun ev => is_probe ev = true) log2
        /\ CacheWrite key ∈ log2
        /\ requestCache st2 !! key
           = Some {| data := json r2; timestamp := at_cache_store clk2 |}).
Proof.
  intros Hip Hport Hhost Hapi1 Hok1 Hapi2 Hok2.
  apply api_ok_inv in Hapi1 as (key & R1 & Hkey1 & HR1 & _ & Hfirst); [|done].
  apply api_ok_inv in Hapi2 as (key2 & R2 & Hkey2 & HR2 & HQ2 & Hsecond); [|done].
  pose proof Hkey2 as Hsame.
  rewrite <- (key_of_same_triple _ _ Hip Hport Hhost), Hkey1 in Hsame.
  injection Hsame as <-.
  assert (Hentry : exists e,
             requestCache st1 !! key = Some e /\ data e = json r1
             /\ ((exists key', CacheLookup key' false ∈ log1) ->
                 timestamp e = at_cache_store clk1
                 /\ forall a p h path,
                     Probe (Detect.CallWebSocket a p h path) ∈ log1 ->
                     path = default DEFAULT_WS_PATH (q_wsPath req1))).
  { destruct Hfirst as [(e & He & _ & Hcache & Hjson & ->)
                       |(_ & calls & _ & Hpath & Hcache & ->)].
    - exists e. rewrite Hcache. split; [done|]. split; [done|].
      intros [key' Hin]. by apply lookup_in_hit_log in Hin as [_ ?].
    - eexists. rewrite Hcache, lookup_insert_eq. split; [done|].
      split; [done|]. intros _. split; [done|].
      intros a p h path Hin. rewrite !elem_of_app, !elem_of_cons in Hin.
      destruct Hin as [Hin|[[Hin|[Hin|Hin]]|[Hin|Hin]]]; try done.
      + by apply (resolver_not_other _ _ HR1) in Hin.
      + by apply elem_of_nil in Hin.
      + apply list_elem_of_fmap in Hin as (c & [= <-] & Hin). eauto.
      + destruct Hin as [Hin|[Hin|Hin]]; try done. by apply elem_of_nil in Hin. }
  destruct Hentry as (e & He & Hdata & Hstamp).
  exists key, e. do 4 (split; [done|]). split; [done|]. split.
  - intros Hfresh.
    destruct Hsecond as [(e' & He' & _ & Hcache & Hjson & ->)|(Hstale & _)].
    + rewrite He in He'. injection He' as <-.
      split; [congruence|]. split; [done|]. split; [|eauto].
      apply Forall_app; split; [|by repeat constructor].
      eapply Forall_impl; [exact HR2|]. apply resolver_is_not_probe.
    + specialize (Hstale e He). lia.
  - intros Hold.
    destruct Hsecond as [(e' & He' & Hfresh & _)
                        |(_ & calls & Hcalls & _ & Hcache & ->)].
    + rewrite He in He'. injection He' as <-. lia.
    + split; [|split; [|split]].
      * rewrite !elem_of_app, !elem_of_cons. auto.
      * apply Exists_app. right. apply Exists_app. right.
        apply Exists_app. left.
        destruct calls as [|c calls]; [done|]. by constructor.
      * rewrite !elem_of_app, !elem_of_cons. auto.
      * rewrite Hcache. apply lookup_insert_eq.
Qed.

End CacheFacts.

(** ** The handler as a whole *)





(** Parameters that are not strings: a repeated [ip] makes the first
    lines throw, and so does a repeated [host] unless an empty [ip] is
    answered first; a repeated [port] is converted by [parseInt], and one
    that converts to the empty string, unlike the empty string itself,
    does not stand for the default port. *)
Example parameters_that_are_not_strings :
  let given ip port host :=
    {| Api.q_ip := ip; Api.q_port := port; Api.q_host := host;
       Api.q_wsPath := None; Api.clientIp := "198.51.100.7" |} in
  let answer req :=
    (fun o : Api.outcome => (Api.status o.1.2, o.2))
      <$> Api.api settings internet first_clock idle req in
  answer (given (Some (Api.Composite "192.0.2.1,192.0.2.2")) None None) = None
  /\ answer (given (Some (Api.Text "192.0.2.1")) None (Some (Api.Composite "a,b")))
     = None
  /\ answer (given (Some (Api.Text "")) None (Some (Api.Composite "a,b")))
     = Some (400, [Api.Respond 400])
  /\ Api.key_of (given (Some (Api.Text "::a")) (Some (Api.Composite "8443,80")) None)
     = Some "ip_::a_8443_clpan.pages.dev"
  /\ Api.key_of (given (Some (Api.Text "::a")) (Some (Api.Text "")) None)
     = Some "ip_::a_443_clpan.pages.dev"
  /\ answer (given (Some (Api.Text "::a")) (Some (Api.Composite "")) None)
     = Some (400, [Api.RateLimitCheck "198.51.100.7" true; Api.Respond 400]).
Proof. cbv zeta. repeat split; vm_compute; reflexivity. Qed.





(** C4, as stated, fails: the same request for a domain, made again five
    seconds after its response was cached, is answered with the cached
    payload, but the Resolver has sent its queries again before the cache
    was looked up. *)
Lemma cached_domain_is_resolved_again :
  twice settings internet internet first_clock second_clock idle
    (ask "edge.example" None) (ask "edge.example" None)
  = Some
      ((served 1, {| Api.status := 200; Api.json := edge_payload |},
        edge_resolution
          ++ [Api.RateLimitCheck "198.51.100.7" true;
              Api.CacheLookup edge_key false]
          ++ edge_probes "/"
          ++ [Api.CacheWrite edge_key; Api.Respond 200]),
       (served 2, {| Api.status := 200; Api.json := edge_payload |},
        edge_resolution
          ++ [Api.RateLimitCheck "198.51.100.7" true;
              Api.CacheLookup edge_key true; Api.Respond 200]))
  /\ Api.at_cache_lookup second_clock - Api.at_cache_store first_clock
     < Api.CACHE_DURATION
  /\ ~ Forall (fun e => Api.is_resolver e = false)
         (edge_resolution
            ++ [Api.RateLimitCheck "198.51.100.7" true;
                Api.CacheLookup edge_key true; Api.Respond 200]).
Proof.
  split; [vm_compute; reflexivity|]. split; [reflexivity|].
  intros Hnone. apply Forall_inv in Hnone. discriminate Hnone.
Qed.

(** C4, amended.  Take the same request twice, the second time on the
    state the first left, each answered with status 200 (not refused by
    the validation, the resolution step, the rate limiter or the port
    check).  After the first, the cache holds its payload under the key of
    the request, stamped with the time of the store when the first ran a
    detection.  While the age of that entry at the second lookup is under
    30 s, the second is answered with the same payload, makes no probe and
    leaves the cache as it is; its effects are those of the resolution
    step, then the rate-limit check, the cache hit and the response.  For
    an input of the domain form the resolution step calls [resolveDomain]
    again, and DNS queries are sent again unless the input is an IP
    literal as well; for an IP literal no DNS query is sent.  Once the age
    is 30 s or more, the lookup is a miss: probes run, and the new response
    replaces the entry. *)
Theorem cache_answers_within_ttl (cfg : Api.config) (w1 w2 : Api.world)
    (clk1 clk2 : Api.clock) (st0 st1 st2 : Api.server) (req : Api.request)
    (r1 r2 : Api.response) (log1 log2 : list Api.event) :
  Api.api cfg w1 clk1 st0 req = Some (st1, r1, log1) -> Api.status r1 = 200 ->
  Api.api cfg w2 clk2 st1 req = Some (st2, r2, log2) -> Api.status r2 = 200 ->
  exists key e ip port host wsPath,
    Api.parse req = Some (ip, port, host, wsPath)
    /\ Api.key_of req = Some key
    /\ Api.requestCache st1 !! key = Some e /\ Api.data e = Api.json r1
    /\ ((exists key', Api.CacheLookup key' false ∈ log1) ->
        Api.timestamp e = Api.at_cache_store clk1)
    /\ (Api.at_cache_lookup clk2 - Api.timestamp e < Api.CACHE_DURATION ->
        Api.json r2 = Api.json r1
        /\ Api.requestCache st2 = Api.requestCache st1
        /\ Forall (fun ev => Api.is_probe ev = false) log2
        /\ log2 = Api.resolution w2 ip
                    ++ [Api.RateLimitCheck (Api.clientIp req) true;
                        Api.CacheLookup key true; Api.Respond 200]
        /\ (isDomain ip = true ->
            exists dst res,
              Dns.resolve (Api.dns w2) ip = Some (dst, res)
              /\ Api.resolution w2 ip
                 = Api.Resolve ip :: (Api.Query <$> Dns.queries dst)
              /\ (isIPAddress ip = false ->
                  exists rest, Dns.queries dst = Dns.QResolve4 ip :: rest))
        /\ (isIPAddress ip = true ->
            Forall (fun ev => Api.is_query ev = false) (Api.resolution w2 ip))
        /\ (isDomain ip = false -> Api.resolution w2 ip = []))
    /\ (Api.CACHE_DURATION <= Api.at_cache_lookup clk2 - Api.timestamp e ->
        Api.CacheLookup key false ∈ log2
        /\ Exists (fun ev => Api.is_probe ev = true) log2
        /\ Api.CacheWrite key ∈ log2
        /\ Api.requestCache st2 !! key
           = Some {| Api.data := Api.json r2;
                     Api.timestamp := Api.at_cache_store clk2 |}).
Proof.
  intros Hapi1 Hok1 Hapi2 Hok2.
  destruct (second_request cfg w1 w2 clk1 clk2 st0 st1 st2 req req r1 r2
              log1 log2 eq_refl eq_refl eq_refl Hapi1 Hok1 Hapi2 Hok2)
    as (key & e & Hkey & _ & He & Hdata & Hstamp & Hfresh & Hstale).
  assert (Hparse : exists ip port host wsPath,
             Api.parse req = Some (ip, port, host, wsPath)).
  { unfold Api.key_of in Hkey.
    destruct (Api.parse req) as [[[[ip port] host] wsPath]|]; [|done].
    by exists ip, port, host, wsPath. }
  destruct Hparse as (ip & port & host & wsPath & Hparse).
  exists key, e, ip, port, host, wsPath. do 4 (split; [done|]).
  split; [intros Hmiss; by destruct (Hstamp Hmiss)|]. split; [|done].
  intros Hsoon.
  destruct (Hfresh Hsoon) as (Hjson & Hcache & Hquiet & resolver & _ & Hres & ->).
  rewrite (Hres _ _ _ _ Hparse) in *.
  do 4 (split; [done|]). split; [|split].
  - intros Hdom.
    destruct (resolution_domain w2 ip Hdom) as (dst & res & Hrun & Heq & Hq & _).
    by exists dst, res.
  - apply resolution_literal.
  - intros Hdom. unfold Api.resolution. by rewrite Hdom.
Qed.

Lemma cache_answers_within_ttl_witness :
  exists key e,
    Api.key_of (ask "edge.example" None) = Some key
    /\ Api.requestCache (served 1) !! key = Some e
    /\ Api.data e = edge_payload
    /\ Api.timestamp e = 1201
    /\ Api.requestCache (served 2) = Api.requestCache (served 1).
Proof.
  destruct (cache_answers_within_ttl settings internet internet
              first_clock second_clock idle (served 1) (served 2)
              (ask "edge.example" None)
              {| Api.status := 200; Api.json := edge_payload |}
              {| Api.status := 200; Api.json := edge_payload |}
              (edge_resolution
                 ++ [Api.RateLimitCheck "198.51.100.7" true;
                     Api.CacheLookup edge_key false]
                 ++ edge_probes "/"
                 ++ [Api.CacheWrite edge_key; Api.Respond 200])
              (edge_resolution
                 ++ [Api.RateLimitCheck "198.51.100.7" true;
                     Api.CacheLookup edge_key true; Api.Respond 200]))
    as (key & e & ip & port & host & wsPath & _ & Hkey & He & Hdata & Hstamp
        & Hfresh & _).
  - vm_compute. reflexivity.
  - reflexivity.
  - vm_compute. reflexivity.
  - reflexivity.
  - exists key, e. split; [exact Hkey|]. split; [exact He|].
    split; [exact Hdata|].
    assert (Hat : Api.timestamp e = 1201).
    { apply Hstamp. exists edge_key. apply elem_of_app. right.
      apply list_elem_of_further, list_elem_of_here. }
    split; [exact Hat|].
    apply Hfresh. rewrite Hat. reflexivity.
Defined.

(** C10.  The cache key is built from the input, the port and the host
    only.  Take two requests with the same [ip], [port] and [host]
    parameters and any [wsPath] parameters, the second on the state the
    first left, each answered with status 200, the first by a detection
    (its cache lookup missed), and the cache lookup of the second less than
    30 s after the cache store of the first.  The two have the same cache
    key; the WebSocket probes of the first all went to the path of the
    first; and the second is answered with the payload of the first,
    without any probe of its own. *)
Theorem cache_key_ignores_wsPath (cfg : Api.config) (w1 w2 : Api.world)
    (clk1 clk2 : Api.clock) (st0 st1 st2 : Api.server)
    (req1 req2 : Api.request) (r1 r2 : Api.response)
    (log1 log2 : list Api.event) :
  Api.q_ip req1 = Api.q_ip req2 ->
  Api.q_port req1 = Api.q_port req2 ->
  Api.q_host req1 = Api.q_host req2 ->
  Api.api cfg w1 clk1 st0 req1 = Some (st1, r1, log1) -> Api.status r1 = 200 ->
  (exists key, Api.CacheLookup key false ∈ log1) ->
  Api.api cfg w2 clk2 st1 req2 = Some (st2, r2, log2) -> Api.status r2 = 200 ->
  Api.at_cache_lookup clk2 - Api.at_cache_store clk1 < Api.CACHE_DURATION ->
  (exists key, Api.key_of req1 = Some key /\ Api.key_of req2 = Some key)
  /\ (forall a p h path,
        Api.Probe (Detect.CallWebSocket a p h path) ∈ log1 ->
        path = default Api.DEFAULT_WS_PATH (Api.q_wsPath req1))
  /\ Api.json r2 = Api.json r1
  /\ Forall (fun ev => Api.is_probe ev = false) log2.
Proof.
  intros Hip Hport Hhost Hapi1 Hok1 Hmiss Hapi2 Hok2 Hsoon.
  destruct (second_request cfg w1 w2 clk1 clk2 st0 st1 st2 req1 req2 r1 r2
              log1 log2 Hip Hport Hhost Hapi1 Hok1 Hapi2 Hok2)
    as (key & e & Hkey1 & Hkey2 & He & Hdata & Hstamp & Hfresh & _).
  destruct (Hstamp Hmiss) as [Hat Hpath]. rewrite Hat in Hfresh.
  destruct (Hfresh Hsoon) as (Hjson & _ & Hquiet & _).
  split; [eauto|]. split; [exact Hpath|]. split; [exact Hjson|exact Hquiet].
Qed.

Lemma cache_key_ignores_wsPath_witness :
  (exists key,
      Api.key_of (ask "edge.example" (Some "/ws")) = Some key
      /\ Api.key_of (ask "edge.example" (Some "/other")) = Some key)
  /\ (forall a p h path,
        Api.Probe (Detect.CallWebSocket a p h path)
          ∈ edge_resolution
              ++ [Api.RateLimitCheck "198.51.100.7" true;
                  Api.CacheLookup edge_key false]
              ++ edge_probes "/ws"
              ++ [Api.CacheWrite edge_key; Api.Respond 200] ->
        path = "/ws")
  /\ Api.json {| Api.status := 200; Api.json := edge_payload |} = edge_payload
  /\ Forall (fun ev => Api.is_probe ev = false)
       (edge_resolution
          ++ [Api.RateLimitCheck "198.51.100.7" true;
              Api.CacheLookup edge_key true; Api.Respond 200]).
Proof.
  apply (cache_key_ignores_wsPath settings internet internet
           first_clock second_clock idle (served 1) (served 2)
           (ask "edge.example" (Some "/ws")) (ask "edge.example" (Some "/other"))
           {| Api.status := 200; Api.json := edge_payload |}
           {| Api.status := 200; Api.json := edge_payload |}).
  - reflexivity.
  - reflexivity.
  - reflexivity.
  - vm_compute. reflexivity.
  - reflexivity.
  - exists edge_key. apply elem_of_app. right.
    apply list_elem_of_further, list_elem_of_here.
  - vm_compute. reflexivity.
  - reflexivity.
  - reflexivity.
Defined.

(** C8 on the input [1.2.3.4]: it is an IPv4 literal and it also matches
    the domain pattern; the request is accepted, takes the branch for
    domains, and its response says [isDomain: true]. *)
Theorem ipv4_literal_is_also_a_domain :
  isIPAddress "1.2.3.4" = true
  /\ isIPv4 "1.2.3.4" = true
  /\ isDomain "1.2.3.4" = true
  /\ (fun o : Api.outcome => (Api.status o.1.2, o.2))
       <$> Api.api settings internet first_clock idle (ask "1.2.3.4" None)
     = Some (200,
             [Api.Resolve "1.2.3.4";
              Api.RateLimitCheck "198.51.100.7" true;
              Api.CacheLookup "domain_1.2.3.4_443_clpan.pages.dev" false;
              Api.Probe (Detect.CallGeoIP "1.2.3.4");
              Api.Probe (Detect.CallTLS "1.2.3.4" 443 "clpan.pages.dev");
              Api.Probe (Detect.CallWebSocket "1.2.3.4" 443 "clpan.pages.dev" "/");
              Api.Probe (Detect.CallCDNTrace "1.2.3.4" 443 "clpan.pages.dev");
              Api.CacheWrite "domain_1.2.3.4_443_clpan.pages.dev";
              Api.Respond 200])
  /\ (exists result timestamp host,
        (fun o : Api.outcome => Api.json o.1.2)
          <$> Api.api settings internet first_clock idle (ask "1.2.3.4" None)
        = Some (Api.Single "1.2.3.4" true 443 result timestamp host)).
Proof.
  split; [reflexivity|]. split; [reflexivity|]. split; [reflexivity|].
  split; [vm_compute; reflexivity|].
  eexists _, _, _. vm_compute. reflexivity.
Qed.

(** * Further properties of the server *)

(** ** The [ip:port] form of the input *)

Lemma is_char_eq (a c : ascii) : Js.is_char a c = true <-> a = c.
Proof.
  unfold Js.is_char, Js.code. rewrite N.eqb_eq. split; [|by intros ->].
  intros Heq. rewrite <- (ascii_N_embedding a), <- (ascii_N_embedding c).
  by rewrite Heq.
Qed.

Lemma rev_onto_append (acc s : string) :
  Js.rev_onto acc s = Js.rev s +:+ acc.
Proof.
  unfold Js.rev. revert acc. induction s as [|c s IH]; intros acc; [done|].
  cbn [Js.rev_onto]. rewrite IH, (IH (String c "")), append_assoc. done.
Qed.

Lemma rev_cons (c : ascii) (s : string) :
  Js.rev (String c s) = Js.rev s +:+ String c "".
Proof. unfold Js.rev at 1. cbn [Js.rev_onto]. apply rev_onto_append. Qed.

(** A line terminator starts with LF, with CR, or with the byte E2. *)
Lemma startsLineTerminator_first (c : ascii) (rest : string) :
  Js.startsLineTerminator (String c rest) = true ->
  ((Js.code c =? 10) || (Js.code c =? 13) || (Js.code c =? 226))%N = true.
Proof.
  cbn [Js.startsLineTerminator].
  destruct (Js.code c =? 10)%N, (Js.code c =? 13)%N; try done. cbn [orb].
  destruct rest as [|c2 [|c3 rest]]; try done.
  destruct (Js.code c =? 226)%N; done.
Qed.

(** Whether a line terminator starts at a place before a colon does not
    depend on what follows the colon. *)
Lemma startsLineTerminator_colon (c : ascii) (pre rest : string) :
  Js.startsLineTerminator (String c (pre +:+ ":" +:+ rest))
  = Js.startsLineTerminator (String c pre).
Proof.
  cbn [Js.startsLineTerminator].
  destruct pre as [|c2 [|c3 pre]]; rewrite ?append_cons, ?append_nil_l.
  - change (":" +:+ rest) with (String ":" rest).
    destruct rest as [|c3 rest]; [done|].
    change (Js.code ":" =? 128)%N with false. by rewrite andb_false_r.
  - change (":" +:+ rest) with (String ":" rest).
    change (Js.in_range 168 169 ":") with false. by rewrite andb_false_r.
  - done.
Qed.

(** Text without the bytes 10, 13 and 226 holds no line terminator. *)
Lemma no_line_terminator p (s : string) :
  (forall c, p c = true ->
             ((Js.code c =? 10) || (Js.code c =? 13) || (Js.code c =? 226))%N
             = false) ->
  Js.forall_chars p s = true -> Js.hasLineTerminator s = false.
Proof.
  intros Hp. induction s as [|c s IH]; [done|]. cbn [Js.forall_chars].
  intros Hall. apply andb_true_iff in Hall as [Hc Hall].
  cbn [Js.hasLineTerminator]. rewrite (IH Hall), orb_false_r.
  destruct (Js.startsLineTerminator (String c s)) eqn:Hlt; [|done].
  apply startsLineTerminator_first in Hlt. by rewrite (Hp c Hc) in Hlt.
Qed.

(** The lazy group stops at the first colon that is followed by digits up
    to the end: that is the last colon. *)
Lemma ipPortMatch_from_complete (taken address digits : string) :
  Js.falsy taken = false \/ Js.falsy address = false ->
  Js.hasLineTerminator address = false ->
  Js.falsy digits = false ->
  Js.forall_chars Js.isDigit digits = true ->
  ipPortMatch_from taken (address +:+ ":" +:+ digits)
  = Some (Js.rev taken +:+ address, digits).
Proof.
  intros Hne Hlt Hd Hdigits. revert taken Hne.
  induction address as [|c address IH]; intros taken Hne.
  - rewrite append_nil_l, append_nil_r, append_cons, append_nil_l.
    cbn [ipPortMatch_from]. destruct Hne as [Hne|Hne]; [|done].
    rewrite Hne, Hd, Hdigits. reflexivity.
  - rewrite append_cons. cbn [ipPortMatch_from].
    cbn [Js.hasLineTerminator] in Hlt. apply orb_false_iff in Hlt as [Hc Hlt].
    assert (Hrest : Js.forall_chars Js.isDigit (address +:+ ":" +:+ digits) = false).
    { rewrite !forall_chars_append. cbn. by rewrite andb_false_r. }
    rewrite Hrest, !andb_false_r, startsLineTerminator_colon, Hc.
    rewrite (IH Hlt (String c taken)) by (by left).
    rewrite rev_cons, append_assoc. reflexivity.
Qed.

Lemma ipPortMatch_from_sound (taken s address digits : string) :
  ipPortMatch_from taken s = Some (address, digits) ->
  exists pre,
    s = pre +:+ ":" +:+ digits
    /\ address = Js.rev taken +:+ pre
    /\ Js.falsy address = false
    /\ Js.hasLineTerminator pre = false
    /\ Js.falsy digits = false
    /\ Js.forall_chars Js.isDigit digits = true.
Proof.
  revert taken. induction s as [|c s IH]; intros taken; [done|].
  cbn [ipPortMatch_from].
  destruct (negb (Js.falsy taken) && Js.is_char ":" c && negb (Js.falsy s)
            && Js.forall_chars Js.isDigit s) eqn:Hhere.
  - intros [= <- <-].
    apply andb_true_iff in Hhere as [Hhere Hdigits].
    apply andb_true_iff in Hhere as [Hhere Hs].
    apply andb_true_iff in Hhere as [Htaken Hc].
    apply is_char_eq in Hc as <-. apply negb_true_iff in Htaken, Hs.
    exists "". rewrite append_nil_l, append_nil_r.
    repeat split; try done.
    destruct taken as [|t taken]; [done|]. rewrite rev_cons.
    by destruct (Js.rev taken).
  - destruct (Js.startsLineTerminator (String c s)) eqn:Hlt; [done|].
    intros Hrec. apply IH in Hrec as (pre & -> & -> & Hne & Hpre & Hd & Hdigits).
    exists (String c pre). rewrite rev_cons, append_assoc in *.
    repeat split; try done.
    cbn [Js.hasLineTerminator]. rewrite startsLineTerminator_colon in Hlt.
    by rewrite Hlt, Hpre.
Qed.

(** X1.  [ip.match(/^(.+?):(\d+)$/)] succeeds exactly on the strings of
    the form [address:digits], with a non-empty [address] free of line
    terminators (LF, CR, U+2028 and U+2029) and one decimal digit or more,
    and then yields that [address] and those [digits]: the input is split
    at its last colon, whatever colons [address] holds itself. *)
Theorem ipPortMatch_splits_at_last_colon (ip address digits : string) :
  ipPortMatch ip = Some (address, digits)
  <-> ip = address +:+ ":" +:+ digits
      /\ Js.falsy address = false
      /\ Js.hasLineTerminator address = false
      /\ Js.falsy digits = false
      /\ Js.forall_chars Js.isDigit digits = true.
Proof.
  unfold ipPortMatch. split.
  - intros Hm. apply ipPortMatch_from_sound in Hm
      as (pre & -> & -> & Hne & Hpre & Hd & Hdigits).
    rewrite append_nil_l in *. done.
  - intros (-> & Hne & Hpre & Hd & Hdigits).
    rewrite ipPortMatch_from_complete by auto. by rewrite append_nil_l.
Qed.

Lemma count_append p (s t : string) :
  Js.count p (s +:+ t) = (Js.count p s + Js.count p t)%nat.
Proof.
  induction s as [|c s IH]; [done|]. rewrite append_cons. cbn. rewrite IH. lia.
Qed.

Lemma count_none p q (s : string) :
  (forall c, q c = true -> p c = false) ->
  Js.forall_chars q s = true -> Js.count p s = 0%nat.
Proof.
  intros Hpq. induction s as [|c s IH]; [done|]. cbn. intros Hall.
  apply andb_true_iff in Hall as [Hc Hall]. by rewrite (Hpq c Hc), IH.
Qed.

Lemma forall_chars_impl p q (s : string) :
  (forall c, p c = true -> q c = true) ->
  Js.forall_chars p s = true -> Js.forall_chars q s = true.
Proof.
  intros Hpq. induction s as [|c s IH]; [done|]. cbn. intros Hall.
  apply andb_true_iff in Hall as [Hc Hall]. by rewrite (Hpq c Hc), IH.
Qed.

Lemma hex_is_no_colon (c : ascii) : Js.isHex c = true -> Js.is_char ":" c = false.
Proof. destruct c as [[] [] [] [] [] [] [] []]; vm_compute; done. Qed.

Lemma hex_or_colon_on_a_line (c : ascii) :
  hex_or_colon c = true ->
  ((Js.code c =? 10) || (Js.code c =? 13) || (Js.code c =? 226))%N = false.
Proof. destruct c as [[] [] [] [] [] [] [] []]; vm_compute; done. Qed.

Lemma digit_is_no_colon (c : ascii) : Js.isDigit c = true -> Js.is_char ":" c = false.
Proof. destruct c as [[] [] [] [] [] [] [] []]; vm_compute; done. Qed.

Lemma colon_is_counted (s : string) :
  Js.forall_chars not_colon s = true <-> Js.count (Js.is_char ":") s = 0%nat.
Proof.
  induction s as [|c s IH]; [done|]. cbn. unfold not_colon at 1.
  destruct (Js.is_char ":" c); cbn; [split; [done|lia]|exact IH].
Qed.

(** One group [[0-9a-fA-F]{1,4}] of the IPv6 pattern. *)
Lemma lang_hex_group (s : string) :
  Re.lang (Re.between 1 4 (Re.Cls Js.isHex)) s ->
  Js.count (Js.is_char ":") s = 0%nat
  /\ Js.forall_chars hex_or_colon s = true
  /\ exists c rest, s = String c rest /\ Js.isHex c = true.
Proof.
  intros Hl. apply lang_between_cls in Hl as [Hall Hlen]. split; [|split].
  - by apply (count_none _ Js.isHex); [apply hex_is_no_colon|].
  - apply (forall_chars_impl Js.isHex); [|done].
    intros c Hc. unfold hex_or_colon. by rewrite Hc.
  - destruct s as [|c rest]; [cbn in Hlen; lia|]. cbn in Hall.
    apply andb_true_iff in Hall as [Hc _]. eauto.
Qed.

(** [n] groups, each followed by its colon. *)
Lemma lang_hex_groups (n : nat) (s : string) :
  Re.lang (Re.times n (Re.Seq (Re.between 1 4 (Re.Cls Js.isHex)) (Re.chr ":"))) s ->
  Js.count (Js.is_char ":") s = n
  /\ Js.forall_chars hex_or_colon s = true
  /\ ((0 < n)%nat -> exists c rest, s = String c rest /\ Js.isHex c = true).
Proof.
  revert s. induction n as [|n IH]; cbn [Re.times]; intros s Hl.
  - inversion Hl; subst. split; [done|]. split; [done|lia].
  - inversion Hl as [| |? ? g s' Hg Hs'| | | |]; subst.
    inversion Hg as [| |? ? h colon Hh Hcolon| | | |]; subst.
    apply lang_chr in Hcolon as ->. apply IH in Hs' as (Hn & Hall & _).
    apply lang_hex_group in Hh as (H0 & Hhall & c & rest & -> & Hc).
    rewrite !count_append, !forall_chars_append, H0, Hn, Hhall, Hall.
    split; [done|]. split; [done|]. intros _. exists c.
    eexists. rewrite !append_cons. split; [reflexivity|done].
Qed.

Lemma lang_ipv6Full (s : string) :
  Re.lang ipv6Full s ->
  Js.count (Js.is_char ":") s = 7%nat
  /\ Js.forall_chars hex_or_colon s = true
  /\ exists c rest, s = String c rest /\ Js.isHex c = true.
Proof.
  unfold ipv6Full. intros Hl.
  inversion Hl as [| |? ? groups last Hgroups Hlast| | | |]; subst.
  apply (lang_hex_groups 7) in Hgroups as (Hn & Hall & Hfirst).
  apply lang_hex_group in Hlast as (H0 & Hlall & _).
  rewrite count_append, forall_chars_append, Hn, H0, Hall, Hlall.
  split; [done|]. split; [done|].
  destruct Hfirst as (c & rest & -> & Hc); [lia|]. exists c.
  eexists. rewrite append_cons. split; [reflexivity|done].
Qed.

(** The other alternatives of the IPv6 pattern start with two colons. *)
Lemma ipv6_cases (s : string) :
  Re.matches ipv6Regex s = true ->
  Re.lang ipv6Full s \/ exists rest, s = "::" +:+ rest.
Proof.
  unfold ipv6Regex. intros Hm. apply matches_lang in Hm.
  inversion Hm as [| | |? ? ? Hfull|? ? ? Hrest| |]; subst; [by left|right].
  assert (Hlit : forall t, Re.lang (Re.lit "::") t -> t = "::").
  { intros t Ht. cbn [Re.lit] in Ht.
    inversion Ht as [| |? ? c1 t1 Hc1 Ht1| | | |]; subst.
    inversion Ht1 as [| |? ? c2 t2 Hc2 Ht2| | | |]; subst.
    inversion Ht2; subst. apply lang_chr in Hc1 as ->. by apply lang_chr in Hc2 as ->. }
  inversion Hrest as [| | |? ? ? H1|? ? ? Hrest'| |]; subst.
  - cbn [Re.lit] in H1.
    inversion H1 as [| |? ? c1 t1 Hc1 Ht1| | | |]; subst.
    inversion Ht1 as [| |? ? c2 t2 Hc2 Ht2| | | |]; subst.
    apply lang_chr in Hc1 as ->. apply lang_chr in Hc2 as ->. exists t2. reflexivity.
  - inversion Hrest' as [| | |? ? ? H2|? ? ? H3| |]; subst.
    + apply Hlit in H2 as ->. exists "". reflexivity.
    + inversion H3 as [| |? ? s1 s2 Hcolons _| | | |]; subst.
      apply Hlit in Hcolons as ->. exists s2. reflexivity.
Qed.

Lemma not_an_address (pre digits : string) :
  Js.forall_chars Js.isDigit digits = true ->
  Re.lang ipv6Full (pre +:+ ":" +:+ digits) ->
  Js.falsy pre = false
  /\ Js.hasLineTerminator pre = false
  /\ isIPAddress pre = false /\ isDomain pre = false.
Proof.
  intros Hdigits Hfull.
  apply lang_ipv6Full in Hfull as (Hcount & Hall & c & rest & Hfirst & Hc).
  rewrite !count_append in Hcount. rewrite !forall_chars_append in Hall.
  apply andb_true_iff in Hall as [Hall _].
  rewrite (count_none _ Js.isDigit digits digit_is_no_colon Hdigits) in Hcount.
  change (Js.count (Js.is_char ":") ":") with 1%nat in Hcount.
  assert (Hsix : Js.count (Js.is_char ":") pre = 6%nat) by lia. clear Hcount.
  assert (Hcolon : Js.forall_chars not_colon pre = false).
  { destruct (Js.forall_chars not_colon pre) eqn:Hnc; [|done].
    apply colon_is_counted in Hnc. lia. }
  destruct pre as [|p pre]; [done|]. rewrite append_cons in Hfirst.
  injection Hfirst as <- _.
  split; [done|]. split.
  { by apply (no_line_terminator hex_or_colon); [apply hex_or_colon_on_a_line|]. }
  split.
  - unfold isIPAddress. cbn [Js.falsy].
    destruct (Re.matches ipv4Regex (String p pre)) eqn:Hv4.
    { apply ipv4_pattern_is_domain, domain_has_no_colon in Hv4. congruence. }
    destruct (Re.matches ipv6Regex (String p pre)) eqn:Hv6; [|done].
    apply ipv6_cases in Hv6 as [Hfull|[rest' Hrest]].
    + apply lang_ipv6Full in Hfull as (Hseven & _). lia.
    + injection Hrest as -> _. vm_compute in Hc. discriminate Hc.
  - destruct (isDomain (String p pre)) eqn:Hd; [|done].
    apply domain_has_no_colon in Hd. congruence.
Qed.

Lemma ipPortMatch_complete (address digits : string) :
  Js.falsy address = false ->
  Js.hasLineTerminator address = false ->
  Js.falsy digits = false ->
  Js.forall_chars Js.isDigit digits = true ->
  ipPortMatch (address +:+ ":" +:+ digits) = Some (address, digits).
Proof.
  intros Hne Hlt Hd Hdigits. unfold ipPortMatch.
  rewrite ipPortMatch_from_complete by auto. by rewrite append_nil_l.
Qed.

(** The values the first lines give for a request whose [ip] has the
    [ip:port] form, when they do not throw: the port is the one of that
    form. *)
Lemma parse_ip_port (req : Api.request) (address digits : string) :
  Api.q_ip req = Some (Api.Text (address +:+ ":" +:+ digits)) ->
  Js.falsy address = false ->
  Js.hasLineTerminator address = false ->
  Js.falsy digits = false ->
  Js.forall_chars Js.isDigit digits = true ->
  Api.parse req
  = match Api.q_host req with
    | Some (Api.Composite _) => None
    | given_host =>
        Some (address,
              if String.eqb digits (pretty Api.DEFAULT_PORT)
              then Api.PortNumber Api.DEFAULT_PORT else Api.PortString digits,
              match given_host with
              | Some (Api.Text h) => if Js.isBlank h then Api.DEFAULT_HOST else h
              | _ => Api.DEFAULT_HOST
              end,
              default Api.DEFAULT_WS_PATH (Api.q_wsPath req))
    end.
Proof.
  intros Hq Hne Hlt Hd Hdigits. unfold Api.parse. rewrite Hq.
  destruct address as [|a address]; [done|]. rewrite append_cons.
  destruct (Api.q_host req) as [[h|shown]|]; [|done|];
    rewrite <- append_cons;
    rewrite (ipPortMatch_complete (String a address) digits) by done;
    cbv beta iota zeta; rewrite Hd; cbn [orb]; reflexivity.
Qed.

Lemma throws_ip_port (req : Api.request) (address digits : string) :
  Api.q_ip req = Some (Api.Text (address +:+ ":" +:+ digits)) ->
  Js.falsy address = false ->
  Api.throws req
  = match Api.q_host req with
    | Some (Api.Composite _) => Some "host.trim is not a function"
    | _ => None
    end.
Proof.
  intros Hq Hne. unfold Api.throws. rewrite Hq.
  destruct address as [|a address]; [done|]. by rewrite append_cons.
Qed.

(** X2.  An IPv6 literal that [isIPAddress] accepts is still refused by
    the handler when the pattern for [ip:port] takes its last group for a
    port: the text [::] followed by decimal digits (so [::1]), and every
    literal in full form (eight groups) whose last group is written with
    decimal digits only.  The request (one whose [host] parameter, if
    there is one, is a string, so that the first lines do not throw) is
    answered with status 400 and the message for an invalid address; the
    state is unchanged and nothing is resolved, counted or probed. *)
Theorem ipv6_literal_with_decimal_tail_is_refused (cfg : Api.config)
    (w : Api.world) (clk : Api.clock) (st : Api.server) (req : Api.request)
    (groups digits : string) :
  Api.q_ip req = Some (Api.Text (groups +:+ ":" +:+ digits)) ->
  Api.throws req = None ->
  Js.falsy digits = false ->
  Js.forall_chars Js.isDigit digits = true ->
  groups = ":" \/ Re.matches ipv6Full (groups +:+ ":" +:+ digits) = true ->
  isIPAddress (groups +:+ ":" +:+ digits) = true
  /\ Api.api cfg w clk st req
     = Some (st,
             {| Api.status := 400;
                Api.json :=
                  Api.Failure "无效的 IP 地址或域名"
                    "请提供有效的 IP 地址或域名（支持 IPv4、IPv6 或域名，也可使用 IP:端口 格式）" |},
             [Api.Respond 400]).
Proof.
  intros Hq Hquiet Hd Hdigits Hform.
  assert (Hpre : Js.falsy groups = false
                 /\ Js.hasLineTerminator groups = false
                 /\ isIPAddress groups = false /\ isDomain groups = false).
  { destruct Hform as [->|Hfull]; [done|].
    apply matches_lang in Hfull. by apply not_an_address with digits. }
  destruct Hpre as (Hne & Hlt & Hip & Hdom). split.
  - assert (Hcolon : Js.forall_chars not_colon (groups +:+ ":" +:+ digits) = false).
    { rewrite !forall_chars_append. cbn. by rewrite andb_false_r. }
    assert (Hv4 : Re.matches ipv4Regex (groups +:+ ":" +:+ digits) = false).
    { destruct (Re.matches ipv4Regex _) eqn:Hv4; [|done].
      apply ipv4_pattern_is_domain, domain_has_no_colon in Hv4. congruence. }
    unfold isIPAddress. rewrite Hv4.
    destruct groups as [|g groups]; [done|]. rewrite append_cons. cbn [Js.falsy].
    rewrite <- append_cons. apply matches_lang. unfold ipv6Regex.
    destruct Hform as [Hform|Hfull].
    + injection Hform as -> ->. do 3 apply Re.lang_alt_r.
      change (":" +:+ ":" +:+ digits) with ("::" +:+ digits).
      apply Re.lang_seq.
      * change "::" with (":" +:+ ":" +:+ ""). cbn [Re.lit].
        repeat (apply Re.lang_seq; [by constructor|]). constructor.
      * apply lang_star_cls. clear. by induction digits.
    + apply Re.lang_alt_l. by apply matches_lang in Hfull.
  - pose proof (parse_ip_port req groups digits Hq Hne Hlt Hd Hdigits) as Hparse.
    rewrite (throws_ip_port req groups digits Hq Hne) in Hquiet.
    unfold Api.api.
    destruct (Api.q_host req) as [[h|shown]|]; [|done|];
      rewrite Hparse, Hip, Hdom; reflexivity.
Qed.

Lemma ipv6_literal_with_decimal_tail_is_refused_witness :
  isIPAddress "2001:db8:0:0:0:0:0:1" = true
  /\ Api.api settings internet first_clock idle (ask "2001:db8:0:0:0:0:0:1" None)
     = Some (idle,
             {| Api.status := 400;
                Api.json :=
                  Api.Failure "无效的 IP 地址或域名"
                    "请提供有效的 IP 地址或域名（支持 IPv4、IPv6 或域名，也可使用 IP:端口 格式）" |},
             [Api.Respond 400]).
Proof.
  apply (ipv6_literal_with_decimal_tail_is_refused settings internet first_clock
           idle (ask "2001:db8:0:0:0:0:0:1" None) "2001:db8:0:0:0:0:0" "1").
  - reflexivity.
  - reflexivity.
  - reflexivity.
  - reflexivity.
  - right. reflexivity.
Defined.

(** X3.  When the [ip] parameter has the form [address:digits]
    ([address] not empty and free of line terminators, [digits] decimal),
    the [port] parameter of the request plays no part: two requests that
    differ in that parameter only are processed alike, whatever the value
    of the parameter, and, unless a [host] that is not a string makes the
    first lines throw, the handler works on [address] with the port
    [digits]. *)
Theorem port_of_the_input_overrides_the_parameter (cfg : Api.config)
    (w : Api.world) (clk : Api.clock) (st : Api.server)
    (req1 req2 : Api.request) (address digits : string) :
  Api.q_ip req1 = Some (Api.Text (address +:+ ":" +:+ digits)) ->
  Js.falsy address = false ->
  Js.hasLineTerminator address = false ->
  Js.falsy digits = false ->
  Js.forall_chars Js.isDigit digits = true ->
  Api.q_ip req2 = Api.q_ip req1 ->
  Api.q_host req2 = Api.q_host req1 ->
  Api.q_wsPath req2 = Api.q_wsPath req1 ->
  Api.clientIp req2 = Api.clientIp req1 ->
  Api.api cfg w clk st req2 = Api.api cfg w clk st req1
  /\ (Api.throws req1 = None ->
      exists host wsPath,
        Api.parse req1
        = Some (address,
                if String.eqb digits "443"
                then Api.PortNumber 443 else Api.PortString digits,
                host, wsPath)).
Proof.
  intros Hq Hne Hlt Hd Hdigits Hip Hhost Hpath Hclient.
  pose proof (parse_ip_port req1 address digits Hq Hne Hlt Hd Hdigits) as H1.
  pose proof (throws_ip_port req1 address digits Hq Hne) as T1.
  rewrite <- Hip in Hq.
  pose proof (parse_ip_port req2 address digits Hq Hne Hlt Hd Hdigits) as H2.
  pose proof (throws_ip_port req2 address digits Hq Hne) as T2.
  rewrite Hhost, Hpath in H2. rewrite Hhost in T2. split.
  - unfold Api.api. by rewrite H1, H2, T1, T2, Hclient.
  - intros Hquiet. rewrite T1 in Hquiet. rewrite H1.
    destruct (Api.q_host req1) as [[h|shown]|]; [|done|]; eauto.
Qed.

Lemma port_of_the_input_overrides_the_parameter_witness :
  Api.api settings internet first_clock idle
    {| Api.q_ip := Some (Api.Text "192.0.2.1:8443");
       Api.q_port := Some (Api.Composite "80,81");
       Api.q_host := None; Api.q_wsPath := None; Api.clientIp := "198.51.100.7" |}
  = Api.api settings internet first_clock idle (ask "192.0.2.1:8443" None)
  /\ exists host wsPath,
      Api.parse (ask "192.0.2.1:8443" None)
      = Some ("192.0.2.1",
              if String.eqb "8443" "443"
              then Api.PortNumber 443 else Api.PortString "8443",
              host, wsPath).
Proof.
  destruct (port_of_the_input_overrides_the_parameter settings internet
              first_clock idle (ask "192.0.2.1:8443" None)
              {| Api.q_ip := Some (Api.Text "192.0.2.1:8443");
                 Api.q_port := Some (Api.Composite "80,81");
                 Api.q_host := None; Api.q_wsPath := None;
                 Api.clientIp := "198.51.100.7" |}
              "192.0.2.1" "8443") as [Hsame Hparse]; try reflexivity.
  split; [exact Hsame|]. apply Hparse. reflexivity.
Defined.

(** The line separator U+2028 is three bytes that [.] does not match:
    an input that holds it before its last colon is not taken apart, and
    is an IP literal for [isIPAddress] when it starts with two colons. *)
Example line_separator_is_not_matched :
  ipPortMatch ("a" +:+ String "226" (String "128" (String "168" "b:80"))) = None
  /\ ipPortMatch ("a" +:+ String "226" (String "128" (String "167" "b:80")))
     = Some ("a" +:+ String "226" (String "128" (String "167" "b")), "80")
  /\ ipPortMatch ("::" +:+ String "226" (String "128" (String "168" ":80"))) = None
  /\ isIPAddress ("::" +:+ String "226" (String "128" (String "168" ":80"))) = true.
Proof. repeat split. Qed.

(** ** More on the resolver *)

Section ResolverMore.
Import Dns.
Variable net : network.

Lemma add_spec (l : list string) (x y : string) :
  y ∈ add l x <-> y ∈ l \/ y = x.
Proof.
  unfold add. case_bool_decide as Hin.
  - split; [auto|]. intros [H| ->]; done.
  - rewrite elem_of_app, list_elem_of_singleton. done.
Qed.

Lemma add_NoDup (l : list string) (x : string) : NoDup l -> NoDup (add l x).
Proof.
  intros Hl. unfold add. case_bool_decide as Hin; [done|].
  apply NoDup_app. split; [done|]. split.
  - intros y Hy Hx. apply list_elem_of_singleton in Hx as ->. done.
  - apply NoDup_singleton.
Qed.

Lemma add_prefix (l : list string) (x : string) : l `prefix_of` add l x.
Proof.
  unfold add. case_bool_decide; [done|]. by apply prefix_app_r.
Qed.

Lemma addAll_spec (ips l : list string) (y : string) :
  y ∈ addAll l ips <-> y ∈ l \/ y ∈ ips.
Proof.
  unfold addAll. revert l. induction ips as [|x ips IH]; intros l; cbn.
  - rewrite elem_of_nil. tauto.
  - rewrite IH, add_spec, elem_of_cons. tauto.
Qed.

Lemma addAll_NoDup (ips l : list string) : NoDup l -> NoDup (addAll l ips).
Proof.
  unfold addAll. revert l. induction ips as [|x ips IH]; intros l Hl; cbn; [done|].
  by apply IH, add_NoDup.
Qed.

Lemma addAll_prefix (ips l : list string) : l `prefix_of` addAll l ips.
Proof.
  unfold addAll. revert l. induction ips as [|x ips IH]; intros l; cbn; [done|].
  etrans; [apply add_prefix|apply IH].
Qed.

Lemma grows_refl l : grows l l.
Proof. split; done. Qed.

Lemma grows_trans l1 l2 l3 : grows l1 l2 -> grows l2 l3 -> grows l1 l3.
Proof. intros [H1 H1'] [H2 H2']. split; [by etrans|auto]. Qed.

Lemma grows_add l x : grows l (add l x).
Proof. split; [apply add_prefix|apply add_NoDup]. Qed.

Lemma grows_addAll l ips : grows l (addAll l ips).
Proof. split; [apply addAll_prefix|apply addAll_NoDup]. Qed.

Lemma cnameLoop_grows resolve cnameRecords st allIPs st' ips :
  cnameLoop resolve cnameRecords st allIPs = Some (st', ips) ->
  grows allIPs ips.
Proof.
  revert st allIPs. induction cnameRecords as [|cname rest IH]; intros st allIPs; cbn.
  - intros [= _ <-]. apply grows_refl.
  - destruct (resolve cname st) as [[s1 [resolved|e]]|]; [| |done].
    + intros Hloop. apply IH in Hloop.
      eapply grows_trans; [apply grows_addAll|exact Hloop].
    + intros [= _ <-]. apply grows_refl.
Qed.

Lemma lookupStep_grows domain st allIPs :
  grows allIPs (lookupStep net domain st allIPs).2.
Proof.
  unfold lookupStep.
  destruct (dnsLookupAll net domain) as [[addresses|address]|]; cbn.
  - apply grows_addAll.
  - apply grows_add.
  - destruct (dnsLookup net domain); cbn; [apply grows_add|apply grows_refl].
Qed.

(** The addresses an invocation returns, in terms of what its first
    method found. *)
Lemma resolveDomain_grows fuel domain st depth st' ips :
  resolveDomain fuel net domain st depth = Some (st', Ok ips) ->
  ips <> []
  /\ NoDup ips
  /\ (isIPAddress domain = false ->
      forall addresses,
        dnsResolve4 net domain = Some addresses ->
        addAll [] addresses `prefix_of` ips).
Proof.
  destruct fuel as [|fuel]; [done|]. simpl.
  destruct (Nat.ltb_spec DNS_MAX_RECURSION_DEPTH depth); [done|]. case_bool_decide; [done|].
  destruct (isIPAddress domain).
  { intros [= _ <-]. split; [done|]. split; [apply NoDup_singleton|done]. }
  set (first := match dnsResolve4 net domain with
                | Some addresses => addAll [] addresses
                | None => []
                end).
  assert (Hfirst : NoDup first).
  { unfold first. destruct (dnsResolve4 net domain);
      [apply addAll_NoDup|]; apply NoDup_nil_2. }
  destruct (match dnsResolveCname net domain with
            | Some cnameRecords => _
            | None => _
            end) as [[s2 ips2]|] eqn:Hcname; [|done].
  assert (H2 : grows first ips2).
  { destruct (dnsResolveCname net domain).
    - by apply cnameLoop_grows in Hcname.
    - injection Hcname as _ <-. apply grows_refl. }
  set (ips3 := match dnsResolve net domain with
               | Some records => addAll ips2 records
               | None => ips2
               end).
  assert (H3 : grows ips2 ips3).
  { unfold ips3. destruct (dnsResolve net domain);
      [apply grows_addAll|apply grows_refl]. }
  pose proof (lookupStep_grows domain (send (QResolve domain) s2) ips3) as H4.
  destruct (lookupStep net domain (send (QResolve domain) s2) ips3)
    as [s4 [|ip ips4]]; [done|].
  intros [= _ <-]. cbn [snd] in H4.
  destruct (grows_trans _ _ _ H2 (grows_trans _ _ _ H3 H4)) as [Hpre Hnd].
  split; [done|]. split; [auto|].
  intros _ addresses Ha. unfold first in Hpre. by rewrite Ha in Hpre.
Qed.

End ResolverMore.



Section ResolverQueries.
Import Dns.
Variable net : network.






End ResolverQueries.

Section ResolverAnswers.
Import Dns.
Variable net : network.

Lemma lookupStep_spec domain st allIPs y :
  y ∈ (lookupStep net domain st allIPs).2
  <-> y ∈ allIPs
      \/ match dnsLookupAll net domain with
         | Some (LookupArray addresses) => y ∈ addresses
         | Some (LookupObject address) => y = address
         | None => dnsLookup net domain = Some y
         end.
Proof.
  unfold lookupStep.
  destruct (dnsLookupAll net domain) as [[addresses|address]|]; cbn.
  - apply addAll_spec.
  - apply add_spec.
  - destruct (dnsLookup net domain) as [address|]; cbn.
    + rewrite add_spec. split; intros [H|H]; auto; right; congruence.
    + split; [auto|]. intros [H|H]; done.
Qed.

(** An invocation that gets past its guards and is not on an IP literal:
    the addresses it collects start with those of its A records, hold
    those of the generic resolution and of the lookup, and decide the
    result. *)
Lemma resolveDomain_collects fuel domain st depth st' res :
  (depth <= DNS_MAX_RECURSION_DEPTH)%nat ->
  domain ∉ visited st ->
  isIPAddress domain = false ->
  resolveDomain fuel net domain st depth = Some (st', res) ->
  exists ips,
    grows (match dnsResolve4 net domain with
           | Some addresses => addAll [] addresses
           | None => []
           end) ips
    /\ (forall records y, dnsResolve net domain = Some records -> y ∈ records -> y ∈ ips)
    /\ (forall y,
          match dnsLookupAll net domain with
          | Some (LookupArray addresses) => y ∈ addresses
          | Some (LookupObject address) => y = address
          | None => dnsLookup net domain = Some y
          end -> y ∈ ips)
    /\ res = match ips with
             | [] => Err (rethrow domain (NoRecords domain))
             | _ :: _ => Ok ips
             end.
Proof.
  intros Hd Hfresh Hip.
  destruct fuel as [|fuel]; [done|]. simpl.
  destruct (Nat.ltb_spec DNS_MAX_RECURSION_DEPTH depth); [lia|].
  case_bool_decide; [done|]. rewrite Hip.
  set (first := match dnsResolve4 net domain with
                | Some addresses => addAll [] addresses
                | None => []
                end).
  destruct (match dnsResolveCname net domain with
            | Some cnameRecords => _
            | None => _
            end) as [[s2 ips2]|] eqn:Hcname; [|done].
  assert (H2 : grows first ips2).
  { destruct (dnsResolveCname net domain).
    - by apply cnameLoop_grows in Hcname.
    - injection Hcname as _ <-. apply grows_refl. }
  set (ips3 := match dnsResolve net domain with
               | Some records => addAll ips2 records
               | None => ips2
               end).
  assert (H3 : grows ips2 ips3).
  { unfold ips3. destruct (dnsResolve net domain);
      [apply grows_addAll|apply grows_refl]. }
  pose proof (lookupStep_grows net domain (send (QResolve domain) s2) ips3) as H4.
  pose proof (lookupStep_spec domain (send (QResolve domain) s2) ips3) as Hin4.
  destruct (lookupStep net domain (send (QResolve domain) s2) ips3)
    as [s4 ips4]. cbn [snd] in H4, Hin4.
  intros Hres. exists ips4. split; [|split; [|split]].
  - eapply grows_trans; [exact H2|]. by eapply grows_trans.
  - intros records y Hrec Hy. apply Hin4. left. unfold ips3. rewrite Hrec.
    apply addAll_spec. by right.
  - intros y Hy. apply Hin4. by right.
  - destruct ips4; by injection Hres as _ <-.
Qed.

End ResolverAnswers.

(** Substring search across the fixed parts of a message. *)
Lemma includes_unfold (needle hay : string) :
  Js.includes needle hay
  = match Js.strip_prefix needle hay with
    | Some _ => true
    | None =>
        match hay with
        | EmptyString => false
        | String _ hay' => Js.includes needle hay'
        end
    end.
Proof. destruct hay; reflexivity. Qed.

Lemma includes_skip (a : ascii) (needle pre rest : string) :
  Js.forall_chars (fun c => negb (Js.is_char a c)) pre = true ->
  Js.includes (String a needle) (pre +:+ rest)
  = Js.includes (String a needle) rest.
Proof.
  induction pre as [|c pre IH]; [done|]. cbn [Js.forall_chars].
  intros Hpre. apply andb_true_iff in Hpre as [Hc Hpre].
  rewrite append_cons, includes_unfold. cbn [Js.strip_prefix].
  apply negb_true_iff in Hc. rewrite Hc. auto.
Qed.

Lemma strip_prefix_boundary (needle d : string) (c : ascii) (post : string) :
  Js.forall_chars (fun a => negb (Js.is_char a c)) needle = true ->
  Js.strip_prefix needle (d +:+ String c post) = None
  <-> Js.strip_prefix needle d = None.
Proof.
  revert d. induction needle as [|a needle IH]; intros d; [done|].
  cbn [Js.forall_chars]. intros Hn. apply andb_true_iff in Hn as [Ha Hn].
  apply negb_true_iff in Ha. destruct d as [|b d].
  - rewrite append_nil_l. cbn [Js.strip_prefix]. by rewrite Ha.
  - rewrite append_cons. cbn [Js.strip_prefix].
    destruct (Js.is_char a b); [by apply IH|done].
Qed.

Lemma includes_boundary (needle d : string) (c : ascii) (post : string) :
  needle <> "" ->
  Js.forall_chars (fun a => negb (Js.is_char a c)) needle = true ->
  Js.includes needle (String c post) = false ->
  Js.includes needle (d +:+ String c post) = Js.includes needle d.
Proof.
  intros Hne Hn Hpost. induction d as [|b d IH].
  - rewrite append_nil_l, Hpost. by destruct needle.
  - rewrite append_cons, (includes_unfold needle (String b d)).
    rewrite includes_unfold, <- append_cons.
    pose proof (strip_prefix_boundary needle (String b d) c post Hn) as Hb.
    destruct (Js.strip_prefix needle (String b d +:+ String c post)),
      (Js.strip_prefix needle (String b d)); try done.
    + by destruct Hb as [_ Hb]; specialize (Hb eq_refl).
    + by destruct Hb as [Hb _]; specialize (Hb eq_refl).
Qed.

Lemma rethrow_NoRecords (domain : string) :
  Dns.rethrow domain (Dns.NoRecords domain)
  = if Js.includes "ENOTFOUND" domain || Js.includes "ENODATA" domain
    then Dns.Unresolvable domain
    else Dns.NoRecords domain.
Proof.
  unfold Dns.rethrow. cbn [Dns.message].
  assert (Hin : forall needle,
             needle = "NOTFOUND" \/ needle = "NODATA" ->
             Js.includes (String "E" needle)
               ("未找到 " +:+ domain +:+ " 的 A 记录或 CNAME 记录")
             = Js.includes (String "E" needle) domain).
  { intros needle Hneedle. rewrite includes_skip by reflexivity.
    apply includes_boundary; [done| |]; by destruct Hneedle as [-> | ->]. }
  rewrite (Hin "NOTFOUND"), (Hin "NODATA") by auto. reflexivity.
Qed.



(** X4.  The addresses an invocation of [resolveDomain] returns are never
    an empty list and hold no address twice, whatever the DNS layer
    answers (so the test of the handler for an empty result cannot
    succeed). *)
Theorem resolved_addresses_are_distinct (net : Dns.network) (fuel : nat)
    (domain : string) (st : Dns.state) (depth : nat) (st' : Dns.state)
    (ips : list string) :
  Dns.resolveDomain fuel net domain st depth = Some (st', Dns.Ok ips) ->
  ips <> [] /\ NoDup ips.
Proof.
  intros Hres. destruct (isIPAddress domain) eqn:Hip.
  - destruct fuel as [|fuel]; [done|]. simpl in Hres.
    destruct (Nat.ltb_spec Dns.DNS_MAX_RECURSION_DEPTH depth); [done|].
    case_bool_decide; [done|]. rewrite Hip in Hres. injection Hres as _ <-.
    split; [done|apply NoDup_singleton].
  - destruct (Nat.ltb_spec Dns.DNS_MAX_RECURSION_DEPTH depth) as [Hd|Hd].
    { destruct fuel as [|fuel]; [done|]. simpl in Hres.
      destruct (Nat.ltb_spec Dns.DNS_MAX_RECURSION_DEPTH depth); [done|lia]. }
    destruct (decide (domain ∈ Dns.visited st)) as [Hin|Hout].
    { destruct fuel as [|fuel]; [done|]. simpl in Hres.
      destruct (Nat.ltb_spec Dns.DNS_MAX_RECURSION_DEPTH depth); [done|].
      case_bool_decide; done. }
    destruct (resolveDomain_collects net fuel domain st depth st' _ Hd Hout Hip Hres)
      as (ips' & [_ Hnd] & _ & _ & Heq).
    destruct ips' as [|ip ips']; [done|]. injection Heq as ->.
    split; [done|]. apply Hnd.
    destruct (Dns.dnsResolve4 net domain); [apply addAll_NoDup|]; apply NoDup_nil_2.
Qed.

Lemma resolved_addresses_are_distinct_witness :
  ["192.0.2.1"; "192.0.2.2"] <> [] /\ NoDup ["192.0.2.1"; "192.0.2.2"].
Proof.
  apply (resolved_addresses_are_distinct
           alias_zone
           12 "www.example" Dns.initial 0 alias_end).
  vm_compute. reflexivity.
Defined.

(** X5.  For a name that is not an IP literal, every address that one of
    the direct methods finds for it (its A records, the generic resolution,
    the lookup) is in the result of [resolveDomain(domain)], which
    succeeds, whatever happens to its CNAME records; and the result starts
    with the A records, in the order of the answer, without
    repetitions. *)
Theorem direct_answers_are_returned (net : Dns.network) (domain y : string) :
  isIPAddress domain = false ->
  Dns.answers net domain y ->
  exists st ips,
    Dns.resolve net domain = Some (st, Dns.Ok ips)
    /\ y ∈ ips
    /\ forall addresses,
        Dns.dnsResolve4 net domain = Some addresses ->
        Dns.addAll [] addresses `prefix_of` ips.
Proof.
  intros Hip Hy. destruct (resolve_total net domain) as [[st res] Hres].
  assert (Hd : (0 <= Dns.DNS_MAX_RECURSION_DEPTH)%nat) by lia.
  assert (Hfresh : domain ∉ Dns.visited Dns.initial) by apply not_elem_of_empty.
  destruct (resolveDomain_collects net _ domain _ 0 st res Hd Hfresh Hip Hres)
    as (ips & [Hpre _] & Hrecords & Hlookup & ->).
  assert (Hin : y ∈ ips).
  { destruct Hy as [(addresses & Ha & Hy)|[(records & Hr & Hy)|Hy]].
    - rewrite Ha in Hpre. destruct Hpre as [k ->].
      apply elem_of_app. left. apply addAll_spec. by right.
    - by eapply Hrecords.
    - by apply Hlookup. }
  exists st, ips. destruct ips as [|ip ips]; [by apply elem_of_nil in Hin|].
  split; [done|]. split; [done|]. intros addresses Ha. by rewrite Ha in Hpre.
Qed.

Lemma direct_answers_are_returned_witness :
  exists st ips,
    Dns.resolve alias_zone "www.example" = Some (st, Dns.Ok ips)
    /\ "192.0.2.1" ∈ ips
    /\ forall addresses,
        Dns.dnsResolve4 alias_zone "www.example" = Some addresses ->
        Dns.addAll [] addresses `prefix_of` ips.
Proof.
  apply (direct_answers_are_returned alias_zone "www.example" "192.0.2.1").
  - reflexivity.
  - left. eexists. split; [reflexivity|apply list_elem_of_here].
Defined.

Section ResolverSound.

Import Dns.

Variable net : network.

Lemma found_mono st st' y :
  visited st ⊆ visited st' -> found net st y -> found net st' y.
Proof. intros Hsub (name & Hin & Hy). exists name. split; [by apply Hsub|done]. Qed.

Lemma cnameLoop_found resolve cnameRecords st allIPs st' ips :
  (forall cname s s' r, resolve cname s = Some (s', r) -> visited s ⊆ visited s') ->
  (forall cname s s' resolved,
      resolve cname s = Some (s', Ok resolved) ->
      forall y, y ∈ resolved -> found net s' y) ->
  cnameLoop resolve cnameRecords st allIPs = Some (st', ips) ->
  (forall y, y ∈ allIPs -> found net st y) ->
  forall y, y ∈ ips -> found net st' y.
Proof.
  intros Hgrow Hres. revert st allIPs.
  induction cnameRecords as [|cname rest IH]; intros st allIPs; simpl.
  - intros [= <- <-]. done.
  - destruct (resolve cname st) as [[s1 [resolved|e]]|] eqn:Hcall; [| |done].
    + intros Hloop Hall. apply (IH _ _ Hloop). intros y Hy.
      apply addAll_spec in Hy as [Hy|Hy].
      * eapply found_mono; [by eapply Hgrow|by apply Hall].
      * by eapply Hres.
    + intros [= <- <-] Hall y Hy.
      eapply found_mono; [by eapply Hgrow|by apply Hall].
Qed.

Lemma resolveDomain_found fuel domain st depth st' ips :
  resolveDomain fuel net domain st depth = Some (st', Ok ips) ->
  forall y, y ∈ ips -> found net st' y.
Proof.
  revert domain st depth st' ips.
  induction fuel as [|fuel IH]; intros domain st depth st' ips; [done|].
  intros Hrun. pose proof Hrun as Hvisited.
  apply resolveDomain_visited in Hvisited as [_ Hself].
  simpl in Hrun.
  destruct (Nat.ltb_spec DNS_MAX_RECURSION_DEPTH depth) as [Hd|Hd]; [done|].
  specialize (Hself Hd).
  case_bool_decide as Hin; [done|].
  destruct (isIPAddress domain) eqn:Hip.
  { injection Hrun as _ <-. intros y Hy. apply list_elem_of_singleton in Hy as ->.
    exists domain. split; [done|]. by right. }
  set (st1 := send (QResolveCname domain) (send (QResolve4 domain) (visit domain st)))
    in Hrun.
  set (first := match dnsResolve4 net domain with
                | Some addresses => addAll [] addresses
                | None => []
                end) in Hrun.
  assert (Hown : forall y, answers net domain y -> found net st' y).
  { intros y Hy. exists domain. split; [done|by left]. }
  assert (Hfirst : forall y, y ∈ first -> found net st' y).
  { intros y Hy. apply Hown. left. unfold first in Hy.
    destruct (dnsResolve4 net domain) as [addresses|];
      [|by apply elem_of_nil in Hy].
    apply addAll_spec in Hy as [Hy|Hy]; [by apply elem_of_nil in Hy|eauto]. }
  destruct (match dnsResolveCname net domain with
            | Some cnameRecords => _
            | None => _
            end) as [[s2 ips2]|] eqn:Hcname; [|done].
  set (ips3 := match dnsResolve net domain with
               | Some records => addAll ips2 records
               | None => ips2
               end) in Hrun.
  pose proof (lookupStep_spec net domain (send (QResolve domain) s2) ips3) as Hin4.
  pose proof (visited_lookupStep net domain (send (QResolve domain) s2) ips3) as Hv4.
  destruct (lookupStep net domain (send (QResolve domain) s2) ips3) as [s4 ips4].
  cbn [fst snd] in Hin4, Hv4.
  assert (st' = s4 /\ ips = ips4) as [-> ->].
  { destruct ips4; [done|]. by injection Hrun as <- <-. }
  clear Hrun.
  assert (H2 : forall y, y ∈ ips2 -> found net s4 y).
  { destruct (dnsResolveCname net domain) as [cnameRecords|].
    - intros y Hy. apply found_mono with s2; [by rewrite Hv4|].
      revert y Hy. apply (cnameLoop_found _ _ _ _ _ _
                            (fun cname s s' r Hcall =>
                               proj1 (resolveDomain_visited net _ _ _ _ _ _ Hcall))
                            (fun cname s s' resolved Hcall => IH _ _ _ _ _ Hcall)
                            Hcname).
      intros y Hy. exists domain. split.
      { cbn. apply elem_of_union_l. by apply elem_of_singleton. }
      left. left. unfold first in Hy.
      destruct (dnsResolve4 net domain) as [addresses|];
        [|by apply elem_of_nil in Hy].
      apply addAll_spec in Hy as [Hy|Hy]; [by apply elem_of_nil in Hy|eauto].
    - injection Hcname as _ <-. exact Hfirst. }
  intros y Hy. apply Hin4 in Hy as [Hy|Hy].
  - unfold ips3 in Hy. destruct (dnsResolve net domain) as [records|] eqn:Hrec;
      [|by apply H2].
    apply addAll_spec in Hy as [Hy|Hy]; [by apply H2|].
    apply Hown. right. left. eauto.
  - apply Hown. right. right. exact Hy.
Qed.

End ResolverSound.

(** X6.  [resolveDomain(domain)] invents no address: each one it returns
    is a direct answer of the DNS layer about a name the call has visited,
    or is such a name that is an IP literal. *)
Theorem returned_addresses_come_from_dns (net : Dns.network) (domain : string)
    (st : Dns.state) (ips : list string) (y : string) :
  Dns.resolve net domain = Some (st, Dns.Ok ips) ->
  y ∈ ips ->
  exists name,
    name ∈ Dns.visited st
    /\ (Dns.answers net name y \/ (y = name /\ isIPAddress name = true)).
Proof. intros Hres Hy. by apply (resolveDomain_found net _ _ _ _ _ _ Hres). Qed.

Lemma returned_addresses_come_from_dns_witness :
  exists name,
    name ∈ Dns.visited alias_end
    /\ (Dns.answers alias_zone name "192.0.2.2"
        \/ ("192.0.2.2" = name /\ isIPAddress name = true)).
Proof.
  apply (returned_addresses_come_from_dns alias_zone "www.example" alias_end
           ["192.0.2.1"; "192.0.2.2"] "192.0.2.2").
  - vm_compute. reflexivity.
  - apply list_elem_of_further, list_elem_of_here.
Defined.

(** X7.  When [resolveDomain(domain)] fails, the error is never the one
    of the depth limit or of a cycle, and its message is about [domain]
    itself: the message of a missing record, or, exactly when the text of
    [domain] holds [ENOTFOUND] or [ENODATA], the message of a domain that
    cannot be resolved (the handler of the outer [catch] looks for these
    words in a message that quotes the name). *)
Theorem resolution_failure_message (net : Dns.network) (domain : string)
    (st : Dns.state) (e : Dns.error) :
  Dns.resolve net domain = Some (st, Dns.Err e) ->
  e <> Dns.DepthExceeded
  /\ e <> Dns.CycleDetected
  /\ Dns.message e
     = if Js.includes "ENOTFOUND" domain || Js.includes "ENODATA" domain
       then "域名 " +:+ domain +:+ " 不存在或无法解析"
       else "未找到 " +:+ domain +:+ " 的 A 记录或 CNAME 记录".
Proof.
  intros Hres. apply resolve_failure in Hres as ->.
  rewrite rethrow_NoRecords.
  by destruct (Js.includes "ENOTFOUND" domain || Js.includes "ENODATA" domain).
Qed.

Lemma resolution_failure_message_witness :
  Dns.Unresolvable "ENOTFOUND.example" <> Dns.DepthExceeded
  /\ Dns.Unresolvable "ENOTFOUND.example" <> Dns.CycleDetected
  /\ Dns.message (Dns.Unresolvable "ENOTFOUND.example")
     = if Js.includes "ENOTFOUND" "ENOTFOUND.example"
          || Js.includes "ENODATA" "ENOTFOUND.example"
       then "域名 " +:+ "ENOTFOUND.example" +:+ " 不存在或无法解析"
       else "未找到 " +:+ "ENOTFOUND.example" +:+ " 的 A 记录或 CNAME 记录".
Proof.
  apply (resolution_failure_message (Dns.zone [] []) "ENOTFOUND.example"
           {| Dns.visited := {["ENOTFOUND.example"]};
              Dns.queries := Dns.about "ENOTFOUND.example" |}).
  vm_compute. reflexivity.
Defined.





(** ** More on the rate limiter *)

Section RateLimitMore.

Import RateLimit.

Variable limit : Z.

Implicit Types (m : gmap string record) (ip : string) (now : Z).

Lemma rate_key_inj ip1 ip2 : rate_key ip1 = rate_key ip2 -> ip1 = ip2.
Proof. unfold rate_key. apply (inj (String.app "rate_")). Qed.

(** The limiter reads and writes the record of its client only. *)
Lemma checkRateLimit_frame m ip now key :
  key <> rate_key ip ->
  (checkRateLimit limit m ip now).2 !! key = m !! key.
Proof.
  intros Hne. unfold checkRateLimit.
  destruct (m !! rate_key ip) as [rec|];
    [|cbn [snd]; by rewrite lookup_insert_ne].
  destruct (_ <? _); [cbn [snd]; by rewrite lookup_insert_ne|].
  destruct (_ <=? _); cbn [snd]; [done|by rewrite lookup_insert_ne].
Qed.

Lemma checkRateLimit_local m1 m2 ip now :
  m1 !! rate_key ip = m2 !! rate_key ip ->
  (checkRateLimit limit m1 ip now).1 = (checkRateLimit limit m2 ip now).1
  /\ (checkRateLimit limit m1 ip now).2 !! rate_key ip
     = (checkRateLimit limit m2 ip now).2 !! rate_key ip.
Proof.
  intros Heq. unfold checkRateLimit. rewrite Heq.
  destruct (m2 !! rate_key ip) as [rec|] eqn:Hrec;
    [|cbn [fst snd]; by rewrite !lookup_insert_eq].
  destruct (_ <? _); [cbn [fst snd]; by rewrite !lookup_insert_eq|].
  destruct (_ <=? _); cbn [fst snd];
    [by rewrite Heq|by rewrite !lookup_insert_eq].
Qed.

End RateLimitMore.

(** X9.  The rate limiter treats clients independently: a request of
    one client does not change the answer another client gets, and the
    requests of two clients leave the same map in either order. *)
Theorem clients_are_limited_independently (limit : Z)
    (m : gmap string RateLimit.record) (ip other : string) (now now' : Z) :
  other <> ip ->
  let after_ip := (RateLimit.checkRateLimit limit m ip now).2 in
  let after_other := (RateLimit.checkRateLimit limit m other now').2 in
  (RateLimit.checkRateLimit limit after_ip other now').1
  = (RateLimit.checkRateLimit limit m other now').1
  /\ (RateLimit.checkRateLimit limit after_ip other now').2
     = (RateLimit.checkRateLimit limit after_other ip now).2.
Proof.
  intros Hne after_ip after_other.
  assert (Hkeys : rate_key other <> rate_key ip).
  { intros Heq. by apply rate_key_inj in Heq. }
  assert (Hother : after_ip !! rate_key other = m !! rate_key other).
  { by apply checkRateLimit_frame. }
  assert (Hip : after_other !! rate_key ip = m !! rate_key ip).
  { by apply checkRateLimit_frame. }
  destruct (checkRateLimit_local limit _ _ other now' Hother) as [Hans Hrec].
  destruct (checkRateLimit_local limit _ _ ip now Hip) as [_ Hrec'].
  split; [done|]. apply map_eq. intros key.
  destruct (decide (key = rate_key other)) as [->|Hk1].
  - rewrite Hrec. by rewrite (checkRateLimit_frame limit after_other ip now).
  - rewrite (checkRateLimit_frame limit after_ip other now') by done.
    destruct (decide (key = rate_key ip)) as [->|Hk2].
    + by rewrite Hrec'.
    + unfold after_ip, after_other. by rewrite !checkRateLimit_frame.
Qed.

Lemma clients_are_limited_independently_witness :
  (RateLimit.checkRateLimit 60
     (RateLimit.checkRateLimit 60 (Api.rateLimitMap busy) "198.51.100.7" 1000).2
     "203.0.113.9" 2000).1
  = (RateLimit.checkRateLimit 60 (Api.rateLimitMap busy) "203.0.113.9" 2000).1
  /\ (RateLimit.checkRateLimit 60
        (RateLimit.checkRateLimit 60 (Api.rateLimitMap busy) "198.51.100.7" 1000).2
        "203.0.113.9" 2000).2
     = (RateLimit.checkRateLimit 60
          (RateLimit.checkRateLimit 60 (Api.rateLimitMap busy) "203.0.113.9" 2000).2
          "198.51.100.7" 1000).2.
Proof.
  apply (clients_are_limited_independently 60 (Api.rateLimitMap busy)
           "198.51.100.7" "203.0.113.9" 1000 2000).
  discriminate.
Defined.

(** X10.  For a limit of at least 1, [checkRateLimit] keeps every stored
    count between 1 and the limit; and it refuses a request only when the
    record of its client, in a window that is still open, has reached the
    limit exactly. *)
Theorem rate_limit_counts_stay_in_range (limit : Z)
    (m : gmap string RateLimit.record) (ip : string) (now : Z) :
  1 <= limit ->
  map_Forall (fun _ rec => 1 <= RateLimit.count rec <= limit) m ->
  map_Forall (fun _ rec => 1 <= RateLimit.count rec <= limit)
    (RateLimit.checkRateLimit limit m ip now).2
  /\ ((RateLimit.checkRateLimit limit m ip now).1 = false ->
      exists rec,
        m !! rate_key ip = Some rec
        /\ RateLimit.count rec = limit
        /\ now - RateLimit.firstRequest rec <= RateLimit.RATE_LIMIT_WINDOW).
Proof.
  intros Hlimit Hall. unfold RateLimit.checkRateLimit.
  destruct (m !! rate_key ip) as [rec|] eqn:Hrec.
  - pose proof (Hall _ _ Hrec) as Hcount. cbn beta in Hcount.
    destruct (Z.ltb_spec RateLimit.RATE_LIMIT_WINDOW
                (now - RateLimit.firstRequest rec)) as [Hlate|Hin].
    + cbn [fst snd]. split; [|done]. apply map_Forall_insert_2; [cbn; lia|done].
    + destruct (Z.leb_spec limit (RateLimit.count rec)) as [Hfull|Hroom].
      * cbn [fst snd]. split; [done|]. intros _. exists rec.
        split; [done|]. split; [lia|done].
      * cbn [fst snd]. split; [|done].
        apply map_Forall_insert_2; [cbn; lia|done].
  - cbn [fst snd]. split; [|done]. apply map_Forall_insert_2; [cbn; lia|done].
Qed.

Lemma rate_limit_counts_stay_in_range_witness :
  map_Forall (fun _ rec => 1 <= RateLimit.count rec <= 60)
    (RateLimit.checkRateLimit 60 (Api.rateLimitMap busy) "198.51.100.7" 1000).2
  /\ ((RateLimit.checkRateLimit 60 (Api.rateLimitMap busy) "198.51.100.7" 1000).1
      = false ->
      exists rec,
        Api.rateLimitMap busy !! rate_key "198.51.100.7" = Some rec
        /\ RateLimit.count rec = 60
        /\ 1000 - RateLimit.firstRequest rec <= RateLimit.RATE_LIMIT_WINDOW).
Proof.
  apply (rate_limit_counts_stay_in_range 60 (Api.rateLimitMap busy)
           "198.51.100.7" 1000).
  - lia.
  - apply map_Forall_singleton. cbn. lia.
Defined.

(** ** The periodic cleanup *)

Section SweepFacts.

Context {V : Type}.

Variable expired : V -> bool.

(** The loop over a list of entries with distinct keys, all of them in
    the map: the keys outside the list are left alone, the entries of the
    list are deleted when expired and kept otherwise, and every deletion
    is counted. *)
Lemma sweep_list (l : list (string * V)) (acc : gmap string V) (c : nat) :
  NoDup l.*1 ->
  (forall k v, (k, v) ∈ l -> acc !! k = Some v) ->
  (forall k, k ∉ l.*1 -> (fold_left (Cleanup.step expired) l (acc, c)).1 !! k = acc !! k)
  /\ (forall k v, (k, v) ∈ l ->
        (fold_left (Cleanup.step expired) l (acc, c)).1 !! k = if expired v then None else Some v)
  /\ (size (fold_left (Cleanup.step expired) l (acc, c)).1 + (fold_left (Cleanup.step expired) l (acc, c)).2
      = size acc + c)%nat.
Proof.
  revert acc c. induction l as [|[k0 v0] l IH]; intros acc c Hnd Hin.
  { cbn. split; [done|]. split; [|done]. intros k v Hk. by apply elem_of_nil in Hk. }
  cbn [fmap list_fmap fst] in Hnd. apply NoDup_cons in Hnd as [Hk0 Hnd].
  cbn [fold_left].
  assert (Hacc1 : Cleanup.step expired (acc, c) (k0, v0)
                  = (if expired v0 then delete k0 acc else acc,
                     if expired v0 then S c else c)).
  { unfold Cleanup.step. cbn. by destruct (expired v0). }
  rewrite Hacc1. clear Hacc1.
  assert (Hother : forall k, k <> k0 ->
             (if expired v0 then delete k0 acc else acc) !! k = acc !! k).
  { intros k Hk. destruct (expired v0); [by rewrite lookup_delete_ne|done]. }
  destruct (IH (if expired v0 then delete k0 acc else acc)
              (if expired v0 then S c else c) Hnd) as (Hout & Hlist & Hsize).
  { intros k v Hk. rewrite Hother.
    - apply Hin. by apply list_elem_of_further.
    - intros ->. apply Hk0. apply list_elem_of_fmap. by exists (k0, v). }
  split; [|split].
  - intros k Hk. apply not_elem_of_cons in Hk as [Hne Hk].
    rewrite Hout by done. by apply Hother.
  - intros k v Hk. apply elem_of_cons in Hk as [[= -> ->]|Hk]; [|by apply Hlist].
    rewrite Hout by done. destruct (expired v0); [apply lookup_delete_eq|].
    apply Hin, list_elem_of_here.
  - rewrite Hsize. destruct (expired v0); [|done].
    rewrite map_size_delete_Some by (rewrite (Hin k0 v0); [eauto|apply list_elem_of_here]).
    assert (size acc <> 0%nat); [|lia].
    apply map_size_ne_0_lookup. exists k0. rewrite (Hin k0 v0); [eauto|].
    apply list_elem_of_here.
Qed.

Lemma sweep_spec (map : gmap string V) (cleaned : nat) :
  (forall key,
      (Cleanup.sweep expired map cleaned).1 !! key
      = match map !! key with
        | Some v => if expired v then None else Some v
        | None => None
        end)
  /\ (size (Cleanup.sweep expired map cleaned).1
      + (Cleanup.sweep expired map cleaned).2
      = size map + cleaned)%nat.
Proof.
  unfold Cleanup.sweep.
  destruct (sweep_list (map_to_list map) map cleaned) as (Hout & Hlist & Hsize).
  { apply NoDup_fst_map_to_list. }
  { intros k v. apply elem_of_map_to_list. }
  split; [|done]. intros key. destruct (map !! key) as [v|] eqn:Hkey.
  - apply Hlist. by apply elem_of_map_to_list.
  - rewrite Hout, Hkey; [done|]. intros Hin.
    apply list_elem_of_fmap in Hin as ([k v] & -> & Hin).
    apply elem_of_map_to_list in Hin. cbn in Hkey. congruence.
Qed.

End SweepFacts.

Lemma cleanup_lookup (now : Z) (st : Api.server) :
  (forall key,
      Api.requestCache (Cleanup.cleanup now st).1 !! key
      = match Api.requestCache st !! key with
        | Some value => if Cleanup.stale now value then None else Some value
        | None => None
        end)
  /\ (forall key,
        Api.rateLimitMap (Cleanup.cleanup now st).1 !! key
        = match Api.rateLimitMap st !! key with
          | Some record => if Cleanup.lapsed now record then None else Some record
          | None => None
          end)
  /\ (size (Api.requestCache (Cleanup.cleanup now st).1)
      + size (Api.rateLimitMap (Cleanup.cleanup now st).1)
      + (Cleanup.cleanup now st).2
      = size (Api.requestCache st) + size (Api.rateLimitMap st))%nat.
Proof.
  unfold Cleanup.cleanup.
  destruct (sweep_spec (Cleanup.stale now) (Api.requestCache st) 0) as [Hc Hcn].
  destruct (Cleanup.sweep (Cleanup.stale now) (Api.requestCache st) 0)
    as [requestCache cleaned]. cbn [fst snd] in Hc, Hcn.
  destruct (sweep_spec (Cleanup.lapsed now) (Api.rateLimitMap st) cleaned)
    as [Hl Hln].
  destruct (Cleanup.sweep (Cleanup.lapsed now) (Api.rateLimitMap st) cleaned)
    as [rateLimitMap cleaned'].
  cbn [fst snd Api.requestCache Api.rateLimitMap] in *.
  split; [done|]. split; [done|]. lia.
Qed.

(** X11.  The periodic cleanup at time [now] deletes exactly the cache
    entries older than [CACHE_DURATION] and the rate-limit records whose
    window started more than twice [RATE_LIMIT_WINDOW] ago; every other
    entry is kept as it is, and the number it reports is the number of
    entries deleted. *)
Theorem cleanup_removes_exactly_the_expired (now : Z) (st : Api.server) :
  let st' := (Cleanup.cleanup now st).1 in
  let cleaned := (Cleanup.cleanup now st).2 in
  (forall key value,
      Api.requestCache st' !! key = Some value
      <-> Api.requestCache st !! key = Some value
          /\ now - Api.timestamp value <= Api.CACHE_DURATION)
  /\ (forall key record,
        Api.rateLimitMap st' !! key = Some record
        <-> Api.rateLimitMap st !! key = Some record
            /\ now - RateLimit.firstRequest record
               <= 2 * RateLimit.RATE_LIMIT_WINDOW)
  /\ (size (Api.requestCache st') + size (Api.rateLimitMap st') + cleaned
      = size (Api.requestCache st) + size (Api.rateLimitMap st))%nat.
Proof.
  intros st' cleaned. destruct (cleanup_lookup now st) as (Hc & Hl & Hn).
  split; [|split; [|exact Hn]].
  - intros key value. unfold st'. rewrite Hc.
    destruct (Api.requestCache st !! key) as [v|]; [|by split; [|intros []]].
    unfold Cleanup.stale.
    destruct (Z.ltb_spec Api.CACHE_DURATION (now - Api.timestamp v)).
    + split; [done|]. intros [[= ->] Hfresh]. lia.
    + split; [intros [= ->]; split; [done|lia]|by intros [? _]].
  - intros key record. unfold st'. rewrite Hl.
    destruct (Api.rateLimitMap st !! key) as [v|]; [|by split; [|intros []]].
    unfold Cleanup.lapsed.
    destruct (Z.ltb_spec (RateLimit.RATE_LIMIT_WINDOW * 2)
                (now - RateLimit.firstRequest v)).
    + split; [done|]. intros [[= ->] Hfresh]. lia.
    + split; [intros [= ->]; split; [done|lia]|by intros [? _]].
Qed.

Section Swept.

Import Api.

Variables (cfg : config) (w : world) (clk : clock) (now : Z).

Hypothesis Hrate : now <= at_rate_limit clk.
Hypothesis Hlookup : now <= at_cache_lookup clk.

(** [s1] is [s2] without some cache entries that are stale at [now]. *)
Lemma serve_swept s1 s2 log ip isDomainName targetIPs targetPort host wsPath :
  (forall key,
      requestCache s1 !! key
      = match requestCache s2 !! key with
        | Some value => if Cleanup.stale now value then None else Some value
        | None => None
        end) ->
  seen <$> serve cfg w clk s1 log ip isDomainName targetIPs targetPort host wsPath
  = seen <$> serve cfg w clk s2 log ip isDomainName targetIPs targetPort host wsPath.
Proof.
  intros Hcache. unfold serve, reply. rewrite detectAll_spec, Hcache.
  destruct (requestCache s2 !! cacheKey isDomainName ip targetPort host)
    as [value|]; [|reflexivity].
  unfold Cleanup.stale.
  destruct (Z.ltb_spec CACHE_DURATION (now - timestamp value)) as [Hstale|Hfresh].
  - destruct (Z.ltb_spec (at_cache_lookup clk - timestamp value) CACHE_DURATION);
      [lia|reflexivity].
  - destruct (_ <? _); reflexivity.
Qed.

Lemma throttle_swept s1 s2 log client ip isDomainName targetIPs port host wsPath :
  (forall key,
      requestCache s1 !! key
      = match requestCache s2 !! key with
        | Some value => if Cleanup.stale now value then None else Some value
        | None => None
        end) ->
  (forall key,
      rateLimitMap s1 !! key
      = match rateLimitMap s2 !! key with
        | Some record => if Cleanup.lapsed now record then None else Some record
        | None => None
        end) ->
  seen <$> throttle cfg w clk s1 log client ip isDomainName targetIPs port host wsPath
  = seen <$> throttle cfg w clk s2 log client ip isDomainName targetIPs port host wsPath.
Proof.
  intros Hcache Hlimits.
  assert (Hcheck :
    (RateLimit.checkRateLimit (MAX_REQUESTS_PER_IP cfg) (rateLimitMap s1)
       client (at_rate_limit clk)).1
    = (RateLimit.checkRateLimit (MAX_REQUESTS_PER_IP cfg) (rateLimitMap s2)
         client (at_rate_limit clk)).1).
  { unfold RateLimit.checkRateLimit. rewrite Hlimits.
    destruct (rateLimitMap s2 !! rate_key client) as [record|]; [|reflexivity].
    unfold Cleanup.lapsed.
    destruct (Z.ltb_spec (RateLimit.RATE_LIMIT_WINDOW * 2)
                (now - RateLimit.firstRequest record)) as [Hlapsed|_];
      [|destruct (_ <? _); [reflexivity|]; destruct (_ <=? _); reflexivity].
    destruct (Z.ltb_spec RateLimit.RATE_LIMIT_WINDOW
                (at_rate_limit clk - RateLimit.firstRequest record));
      [reflexivity|]. unfold RateLimit.RATE_LIMIT_WINDOW in *. lia. }
  unfold throttle.
  destruct (RateLimit.checkRateLimit _ (rateLimitMap s1) _ _) as [allowed1 limits1].
  destruct (RateLimit.checkRateLimit _ (rateLimitMap s2) _ _) as [allowed2 limits2].
  cbn [fst] in Hcheck. subst allowed2.
  destruct allowed1; cbn [negb]; [|reflexivity].
  destruct (parsePort port) as [targetPort|]; [|reflexivity].
  destruct (_ || _); [reflexivity|]. by apply serve_swept.
Qed.

Lemma api_swept s1 s2 req :
  (forall key,
      requestCache s1 !! key
      = match requestCache s2 !! key with
        | Some value => if Cleanup.stale now value then None else Some value
        | None => None
        end) ->
  (forall key,
      rateLimitMap s1 !! key
      = match rateLimitMap s2 !! key with
        | Some record => if Cleanup.lapsed now record then None else Some record
        | None => None
        end) ->
  seen <$> api cfg w clk s1 req = seen <$> api cfg w clk s2 req.
Proof.
  intros Hcache Hlimits. unfold api.
  destruct (parse req) as [[[[ip port] host] wsPath]|];
    [|by destruct (throws req)].
  destruct (_ && _); [reflexivity|]. unfold route.
  destruct (isDomain ip).
  - destruct (Dns.resolve (dns w) ip) as [[dst res]|]; [|reflexivity].
    destruct res as [[|ip1 ips]|err]; [reflexivity| |reflexivity].
    destruct (_ <? _)%nat; [reflexivity|]. by apply throttle_swept.
  - destruct (_ <? _)%nat; [reflexivity|]. by apply throttle_swept.
Qed.

End Swept.

(** X12.  A cleanup is invisible to the requests that come after it: a
    request whose clock readings are not before the time of the cleanup
    gets the same response, with the same effects, on the cleaned server
    as on the server as it was. *)
Theorem cleanup_is_invisible (cfg : Api.config) (w : Api.world)
    (clk : Api.clock) (now : Z) (st : Api.server) (req : Api.request) :
  now <= Api.at_rate_limit clk ->
  now <= Api.at_cache_lookup clk ->
  Api.seen <$> Api.api cfg w clk (Cleanup.cleanup now st).1 req
  = Api.seen <$> Api.api cfg w clk st req.
Proof.
  intros Hrate Hlookup. destruct (cleanup_lookup now st) as (Hc & Hl & _).
  by apply api_swept with now.
Qed.

Lemma cleanup_is_invisible_witness :
  Api.seen <$> Api.api settings internet late_clock
                 (Cleanup.cleanup 200000 (served 1)).1 (ask "edge.example" None)
  = Api.seen <$> Api.api settings internet late_clock (served 1)
                   (ask "edge.example" None).
Proof.
  apply (cleanup_is_invisible settings internet late_clock 200000 (served 1)
           (ask "edge.example" None)).
  - cbn. lia.
  - cbn. lia.
Defined.

(** ** The cache and the state of the server *)

Lemma pretty_N_char_not_underscore (d : N) :
  not_underscore (pretty_N_char d) = true.
Proof. unfold pretty_N_char. repeat case_match; reflexivity. Qed.

Lemma pretty_N_go_not_underscore (x : N) (s : string) :
  Js.forall_chars not_underscore s = true ->
  Js.forall_chars not_underscore (pretty_N_go x s) = true.
Proof.
  revert s. induction (N.lt_wf_0 x) as [x _ IH]. intros s Hs.
  destruct (decide (0 < x)%N) as [Hpos|Hzero].
  - rewrite pretty_N_go_step by done. apply IH.
    + by apply N.div_lt.
    + cbn. by rewrite pretty_N_char_not_underscore, Hs.
  - assert (x = 0%N) as -> by lia. by rewrite pretty_N_go_0.
Qed.

(** A number is printed without an underscore. *)
Lemma pretty_Z_not_underscore (n : Z) :
  Js.forall_chars not_underscore (pretty n) = true.
Proof.
  assert (HN : forall x : N, Js.forall_chars not_underscore (pretty x) = true).
  { intros x. unfold pretty, pretty_N. case_decide; [done|].
    by apply pretty_N_go_not_underscore. }
  destruct n as [|x|x]; [done|apply HN|].
  unfold pretty, pretty_Z. rewrite append_cons, append_nil_l. cbn.
  apply HN.
Qed.

(** Two texts without underscores, each followed by an underscore and
    more: the first underscore tells where the first text ends. *)
Lemma first_underscore (s1 t1 s2 t2 : string) :
  Js.forall_chars not_underscore s1 = true ->
  Js.forall_chars not_underscore s2 = true ->
  s1 +:+ "_" +:+ t1 = s2 +:+ "_" +:+ t2 ->
  s1 = s2 /\ t1 = t2.
Proof.
  revert s2. induction s1 as [|c1 s1 IH]; intros [|c2 s2] H1 H2;
    rewrite ?append_cons, ?append_nil_l; intros Heq.
  - by injection Heq as ->.
  - injection Heq as <- _. by cbn in H2.
  - injection Heq as -> _. by cbn in H1.
  - injection Heq as -> Heq. cbn in H1, H2.
    apply andb_true_iff in H1 as [_ H1]. apply andb_true_iff in H2 as [_ H2].
    destruct (IH s2 H1 H2 Heq) as [-> ->]. done.
Qed.

Lemma domain_class_not_underscore (c : ascii) :
  Js.isAlnum c || Js.is_char "." c || Js.is_char "-" c = true ->
  not_underscore c = true.
Proof. destruct c as [[] [] [] [] [] [] [] []]; vm_compute; done. Qed.

Lemma domain_has_no_underscore (s : string) :
  isDomain s = true -> Js.forall_chars not_underscore s = true.
Proof.
  unfold isDomain, domainRegex. intros Hm. apply matches_lang in Hm.
  assert (Halnum : forall c, Js.isAlnum c = true -> not_underscore c = true).
  { intros c Hc. apply domain_class_not_underscore. by rewrite Hc. }
  inversion Hm as [| | |? ? ? Hlong|? ? ? Hone| |]; subst.
  - inversion Hlong as [| |? ? s1 s' H1 H'| | | |]; subst.
    inversion H' as [| |? ? mid s3 Hmid H3| | | |]; subst.
    inversion H1 as [|? c Hc| | | | |]; subst.
    inversion H3 as [|? l Hl| | | | |]; subst.
    apply lang_star_cls in Hmid.
    rewrite !forall_chars_append. cbn.
    rewrite (Halnum c Hc), (Halnum l Hl). cbn. rewrite andb_true_r.
    clear -Hmid. induction mid as [|c' mid IH]; [done|]. cbn in *.
    apply andb_true_iff in Hmid as [Hc' Hmid].
    by rewrite (domain_class_not_underscore _ Hc'), IH.
  - inversion Hone as [|? c Hc| | | | |]; subst. cbn. by rewrite (Halnum c Hc).
Qed.

(** The key of a request of the domain form is the key of no other
    request. *)
Lemma cacheKey_domain_inj (ip1 ip2 : string) (p1 p2 : Z) (h1 h2 : string) :
  isDomain ip1 = true ->
  Api.cacheKey true ip1 p1 h1 = Api.cacheKey (isDomain ip2) ip2 p2 h2 ->
  ip1 = ip2 /\ p1 = p2 /\ h1 = h2.
Proof.
  intros Hd1. unfold Api.cacheKey. destruct (isDomain ip2) eqn:Hd2; [|done].
  intros Heq. apply (inj (String.app "domain_")) in Heq.
  apply first_underscore in Heq as [-> Heq];
    [|by apply domain_has_no_underscore..].
  apply first_underscore in Heq as [Hp ->];
    [|apply pretty_Z_not_underscore..].
  by apply (inj pretty) in Hp as ->.
Qed.

(** X13.  The cache key of a request whose input has the domain form
    (IPv4 literals included) is the key of no other request: an equal key
    means an equal input, port and host. *)
Theorem domain_cache_keys_are_injective (ip1 ip2 : string) (p1 p2 : Z)
    (h1 h2 : string) :
  isDomain ip1 = true ->
  Api.cacheKey (isDomain ip1) ip1 p1 h1 = Api.cacheKey (isDomain ip2) ip2 p2 h2 ->
  ip1 = ip2 /\ p1 = p2 /\ h1 = h2.
Proof.
  intros Hd1 Heq. rewrite Hd1 in Heq. by apply cacheKey_domain_inj.
Qed.

Lemma domain_cache_keys_are_injective_witness :
  "edge.example" = "edge.example" /\ 443 = 443
  /\ "clpan.pages.dev" = "clpan.pages.dev".
Proof.
  apply (domain_cache_keys_are_injective "edge.example" "edge.example" 443 443
           "clpan.pages.dev" "clpan.pages.dev").
  - reflexivity.
  - reflexivity.
Defined.

Section Coherence.

Import Api.

Variables (cfg : config) (w : world) (clk : clock).

Lemma addressed_build ip isDomainName targetIPs targetPort host cleanedResults :
  addressed (build clk ip isDomainName targetIPs targetPort host cleanedResults)
  = Some (ip, isDomainName, targetPort, host).
Proof.
  unfold build. destruct (String.eqb_spec host DEFAULT_HOST) as [->|Hne];
    by destruct targetIPs as [|? [|? ?]].
Qed.

Lemma coherent_empty : coherent ∅.
Proof. intros key e Hkey. by rewrite lookup_empty in Hkey. Qed.

(** From the cache lookup on: a payload that comes out of the cache or
    out of a detection answers a request with the key of this one. *)
Lemma serve_coherent st log ip targetIPs targetPort host wsPath st' r log' :
  coherent (requestCache st) ->
  serve cfg w clk st log ip (isDomain ip) targetIPs targetPort host wsPath
  = Some (st', r, log') ->
  coherent (requestCache st')
  /\ exists input port' host',
      addressed (json r) = Some (input, isDomain input, port', host')
      /\ cacheKey (isDomain ip) ip targetPort host
         = cacheKey (isDomain input) input port' host'.
Proof.
  intros Hcoh Hserve. apply serve_inv in Hserve as [_ [Hhit|Hmiss]].
  - destruct Hhit as (e & He & _ & -> & -> & _). split; [done|].
    destruct (Hcoh _ _ He) as (input & port' & host' & Haddr & Hkey). eauto.
  - destruct Hmiss as (_ & runs & _ & Hjson & Hcache & _). split.
    + rewrite Hcache. intros key e Hkey.
      destruct (decide (cacheKey (isDomain ip) ip targetPort host = key)) as [<-|Hne].
      * rewrite lookup_insert_eq in Hkey. injection Hkey as <-. cbn [data].
        exists ip, targetPort, host. by rewrite Hjson, addressed_build.
      * rewrite lookup_insert_ne in Hkey by done. by apply Hcoh.
    + exists ip, targetPort, host. by rewrite Hjson, addressed_build.
Qed.

End Coherence.

(** X14.  The handler keeps the cache coherent (each entry holds the
    payload of a detection, under the key of the request that payload
    answers), and every response with status 200, from the cache or from a
    detection, is a payload that answers a request with the key of this
    request. *)
Theorem cache_stays_coherent (cfg : Api.config) (w : Api.world)
    (clk : Api.clock) (st : Api.server) (req : Api.request)
    (st' : Api.server) (r : Api.response) (log : list Api.event) :
  Api.coherent (Api.requestCache st) ->
  Api.api cfg w clk st req = Some (st', r, log) ->
  Api.coherent (Api.requestCache st')
  /\ (Api.status r = 200 ->
      exists input port host,
        Api.addressed (Api.json r) = Some (input, isDomain input, port, host)
        /\ Api.key_of req = Some (Api.cacheKey (isDomain input) input port host)).
Proof.
  intros Hcoh Hapi.
  apply api_inv in Hapi as (resolver & _ & [Hrefused|[Hstopped|Hserved]]).
  - destruct Hrefused as (Hs & -> & _). split; [done|]. rewrite Hs. done.
  - destruct Hstopped as (allowed & limits & _ & -> & Hs & _). split; [done|].
    by destruct Hs as [[_ ->]|[_ ->]].
  - destruct Hserved as (ip & port & host & wsPath & targetIPs & targetPort
                         & limits & Hparse & Hport & _ & _ & _ & _ & Hserve).
    apply serve_coherent in Hserve as [Hcoh' (input & p & h & Haddr & Hkey)];
      [|done].
    split; [done|]. intros _. exists input, p, h. split; [done|].
    unfold Api.key_of. by rewrite Hparse, Hport, Hkey.
Qed.

Lemma cache_stays_coherent_witness :
  Api.coherent (Api.requestCache (served 1))
  /\ (200 = 200 ->
      exists input port host,
        Api.addressed edge_payload = Some (input, isDomain input, port, host)
        /\ Api.key_of (ask "edge.example" None)
           = Some (Api.cacheKey (isDomain input) input port host)).
Proof.
  apply (cache_stays_coherent settings internet first_clock idle
           (ask "edge.example" None) (served 1)
           {| Api.status := 200; Api.json := edge_payload |}
           (edge_resolution
              ++ [Api.RateLimitCheck "198.51.100.7" true;
                  Api.CacheLookup edge_key false]
              ++ edge_probes "/"
              ++ [Api.CacheWrite edge_key; Api.Respond 200])).
  - apply coherent_empty.
  - vm_compute. reflexivity.
Defined.

(** X15.  On a coherent cache, a request with an input of the domain
    form that is answered with status 200 gets a payload for its own
    input, port and host, also when the payload comes from the cache. *)
Theorem domain_response_answers_the_request (cfg : Api.config) (w : Api.world)
    (clk : Api.clock) (st : Api.server) (req : Api.request)
    (st' : Api.server) (r : Api.response) (log : list Api.event)
    (ip : string) (port : Api.port_value) (host wsPath : string) :
  Api.coherent (Api.requestCache st) ->
  Api.api cfg w clk st req = Some (st', r, log) ->
  Api.status r = 200 ->
  Api.parse req = Some (ip, port, host, wsPath) ->
  isDomain ip = true ->
  exists targetPort,
    Api.parsePort port = Some targetPort
    /\ Api.addressed (Api.json r) = Some (ip, true, targetPort, host).
Proof.
  intros Hcoh Hapi Hok Hparse Hdom.
  apply api_inv in Hapi as (resolver & _ & [Hrefused|[Hstopped|Hserved]]).
  - destruct Hrefused as (Hs & _). rewrite Hs in Hok. done.
  - destruct Hstopped as (allowed & limits & _ & _ & Hs & _).
    destruct Hs as [[_ Hs]|[_ Hs]]; rewrite Hs in Hok; done.
  - destruct Hserved as (ip' & port' & host' & wsPath' & targetIPs & targetPort
                         & limits & Hparse' & Hport & _ & _ & _ & _ & Hserve).
    rewrite Hparse in Hparse'. injection Hparse' as <- <- <- <-.
    apply serve_coherent in Hserve as [_ (input & p & h & Haddr & Hkey)];
      [|done].
    rewrite Hdom in Hkey. apply cacheKey_domain_inj in Hkey as (<- & <- & <-);
      [|done].
    exists targetPort. split; [done|]. by rewrite Haddr, Hdom.
Qed.

Lemma domain_response_answers_the_request_witness :
  exists targetPort,
    Api.parsePort (Api.PortNumber 443) = Some targetPort
    /\ Api.addressed edge_payload
       = Some ("edge.example", true, targetPort, "clpan.pages.dev").
Proof.
  apply (domain_response_answers_the_request settings internet second_clock
           (served 1) (ask "edge.example" (Some "/ws")) (served 2)
           {| Api.status := 200; Api.json := edge_payload |}
           (edge_resolution
              ++ [Api.RateLimitCheck "198.51.100.7" true;
                  Api.CacheLookup edge_key true; Api.Respond 200])
           "edge.example" (Api.PortNumber 443) "clpan.pages.dev" "/ws").
  - intros key e Hkey.
    change (Api.requestCache (served 1))
      with ({[ edge_key := {| Api.data := edge_payload; Api.timestamp := 1201 |} ]}
            : gmap string Api.entry) in Hkey.
    apply lookup_singleton_Some in Hkey as [<- <-].
    exists "edge.example", 443, "clpan.pages.dev". split; reflexivity.
  - vm_compute. reflexivity.
  - reflexivity.
  - reflexivity.
  - reflexivity.
Defined.

Section Aligned.

Import Api.

Variables (cfg : config) (w : world) (clk : clock).

(** The results of a detection, cleaned, are for the targets, in order. *)
Lemma cleaned_results_ips targetPort host wsPath targetIPs runs :
  Detect.detectAll (detect cfg w targetPort host wsPath) targetIPs = Some runs ->
  ip <$> (clean <$> (fst <$> runs)) = targetIPs.
Proof.
  rewrite detectAll_spec. intros [= <-]. apply list_eq. intros i.
  rewrite !list_lookup_fmap, list_lookup_imap.
  destruct (targetIPs !! i) as [targetIP|]; [|done]. cbn. f_equal.
  unfold detect. apply detectSingleIP_ip.
Qed.

Lemma aligned_build ip isDomainName targetIPs targetPort host wsPath runs :
  targetIPs <> [] ->
  Detect.detectAll (detect cfg w targetPort host wsPath) targetIPs = Some runs ->
  aligned (build clk ip isDomainName targetIPs targetPort host
             (clean <$> (fst <$> runs))).
Proof.
  intros Hne Hruns. pose proof (cleaned_results_ips _ _ _ _ _ Hruns) as Hips.
  unfold build. destruct targetIPs as [|ip1 [|ip2 rest]]; [done| |].
  - destruct runs as [|run runs]; [done|]. cbn. eauto.
  - cbn. split; [exact Hips|done].
Qed.

End Aligned.

(** X16.  On a cache that holds payloads of this kind only (the empty
    cache, for one), the handler stores payloads of this kind only, and
    every response with status 200, from the cache or from a detection,
    holds one result for each target, in the order of the targets: a
    single result when there is one target, and otherwise a list of
    results whose [ip] fields are the [resolvedIPs]. *)
Theorem responses_hold_one_result_per_target (cfg : Api.config) (w : Api.world)
    (clk : Api.clock) (st : Api.server) (req : Api.request)
    (st' : Api.server) (r : Api.response) (log : list Api.event) :
  map_Forall (fun _ e => Api.aligned (Api.data e)) (Api.requestCache st) ->
  Api.api cfg w clk st req = Some (st', r, log) ->
  map_Forall (fun _ e => Api.aligned (Api.data e)) (Api.requestCache st')
  /\ (Api.status r = 200 -> Api.aligned (Api.json r)).
Proof.
  intros Hall Hapi.
  apply api_inv in Hapi as (resolver & _ & [Hrefused|[Hstopped|Hserved]]).
  - destruct Hrefused as (Hs & -> & _). split; [done|]. by rewrite Hs.
  - destruct Hstopped as (allowed & limits & _ & -> & Hs & _). split; [done|].
    by destruct Hs as [[_ ->]|[_ ->]].
  - destruct Hserved as (ip & port & host & wsPath & targetIPs & targetPort
                         & limits & _ & _ & Hne & _ & _ & _ & Hserve).
    apply serve_inv in Hserve as [_ [Hhit|Hmiss]].
    + destruct Hhit as (e & He & _ & -> & -> & _). split; [done|].
      intros _. by apply (Hall _ _ He).
    + destruct Hmiss as (_ & runs & Hruns & Hjson & Hcache & _).
      pose proof (aligned_build cfg w clk ip (isDomain ip) _ _ _ _ _ Hne Hruns)
        as Hnew.
      split; [|intros _; by rewrite Hjson].
      rewrite Hcache. apply map_Forall_insert_2; [|done]. cbn [Api.data].
      by rewrite Hjson.
Qed.

Lemma responses_hold_one_result_per_target_witness :
  map_Forall (fun _ e => Api.aligned (Api.data e)) (Api.requestCache (served 1))
  /\ (200 = 200 -> Api.aligned edge_payload).
Proof.
  apply (responses_hold_one_result_per_target settings internet first_clock idle
           (ask "edge.example" None) (served 1)
           {| Api.status := 200; Api.json := edge_payload |}
           (edge_resolution
              ++ [Api.RateLimitCheck "198.51.100.7" true;
                  Api.CacheLookup edge_key false]
              ++ edge_probes "/"
              ++ [Api.CacheWrite edge_key; Api.Respond 200])).
  - apply map_Forall_empty.
  - vm_compute. reflexivity.
Defined.

(** X17.  A request changes at most two entries of the server's maps:
    the cache entry of its own key, and only by storing the payload of a
    response with status 200, and the rate-limit record of its client.  No
    cache entry is removed, and a request refused before the rate limiter
    (missing or invalid input, failed resolution, too many targets) leaves
    the whole state as it was. *)
Theorem request_touches_two_entries (cfg : Api.config) (w : Api.world)
    (clk : Api.clock) (st : Api.server) (req : Api.request)
    (st' : Api.server) (r : Api.response) (log : list Api.event) :
  Api.api cfg w clk st req = Some (st', r, log) ->
  (forall key,
      Api.key_of req <> Some key ->
      Api.requestCache st' !! key = Api.requestCache st !! key)
  /\ (forall key,
        is_Some (Api.requestCache st !! key) ->
        is_Some (Api.requestCache st' !! key))
  /\ (Api.status r <> 200 -> Api.requestCache st' = Api.requestCache st)
  /\ (forall key,
        key <> rate_key (Api.clientIp req) ->
        Api.rateLimitMap st' !! key = Api.rateLimitMap st !! key)
  /\ ((forall allowed,
          Api.RateLimitCheck (Api.clientIp req) allowed ∉ log) ->
      st' = st).
Proof.
  intros Hapi.
  apply api_inv in Hapi as (resolver & _ & [Hrefused|[Hstopped|Hserved]]).
  - destruct Hrefused as (_ & -> & _). done.
  - destruct Hstopped as (allowed & limits & Hcheck & -> & Hs & ->).
    cbn [Api.requestCache Api.rateLimitMap].
    split; [done|]. split; [done|]. split; [done|]. split.
    + intros key Hkey.
      rewrite <- (checkRateLimit_frame (Api.MAX_REQUESTS_PER_IP cfg)
                    (Api.rateLimitMap st) (Api.clientIp req)
                    (Api.at_rate_limit clk) key Hkey).
      by rewrite Hcheck.
    + intros Hnone. exfalso. apply (Hnone allowed).
      apply elem_of_app. right. apply list_elem_of_here.
  - destruct Hserved as (ip & port & host & wsPath & targetIPs & targetPort
                         & limits & Hparse & Hport & _ & _ & _ & Hcheck & Hserve).
    assert (Hkey : Api.key_of req
                   = Some (Api.cacheKey (isDomain ip) ip targetPort host)).
    { unfold Api.key_of. by rewrite Hparse, Hport. }
    assert (Hlimits : forall key,
               key <> rate_key (Api.clientIp req) ->
               limits !! key = Api.rateLimitMap st !! key).
    { intros key Hne.
      rewrite <- (checkRateLimit_frame (Api.MAX_REQUESTS_PER_IP cfg)
                    (Api.rateLimitMap st) (Api.clientIp req)
                    (Api.at_rate_limit clk) key Hne).
      by rewrite Hcheck. }
    apply serve_inv in Hserve as [Hok [Hhit|Hmiss]].
    + destruct Hhit as (e & _ & _ & -> & _ & ->).
      cbn [Api.requestCache Api.rateLimitMap].
      split; [done|]. split; [done|]. split; [done|]. split; [done|].
      intros Hnone. exfalso. apply (Hnone true).
      apply elem_of_app. left. apply elem_of_app. right. apply list_elem_of_here.
    + destruct Hmiss as (_ & runs & _ & _ & Hcache & Hrate & ->).
      cbn [Api.requestCache Api.rateLimitMap] in Hcache, Hrate.
      split; [|split; [|split; [|split]]].
      * intros key Hne. rewrite Hcache, lookup_insert_ne; [done|].
        intros Heq. apply Hne. by rewrite Hkey, Heq.
      * intros key Hsome. rewrite Hcache.
        destruct (decide (Api.cacheKey (isDomain ip) ip targetPort host = key))
          as [<-|Hne]; [rewrite lookup_insert_eq; eauto|].
        by rewrite lookup_insert_ne.
      * intros Hs. by rewrite Hok in Hs.
      * intros key Hne. rewrite Hrate. by apply Hlimits.
      * intros Hnone. exfalso. apply (Hnone true).
        apply elem_of_app. left. apply elem_of_app. right. apply list_elem_of_here.
Qed.

Lemma request_touches_two_entries_witness :
  (forall key,
      Api.key_of (ask "edge.example" None) <> Some key ->
      Api.requestCache (served 1) !! key = Api.requestCache idle !! key)
  /\ (forall key,
        is_Some (Api.requestCache idle !! key) ->
        is_Some (Api.requestCache (served 1) !! key))
  /\ (200 <> 200 -> Api.requestCache (served 1) = Api.requestCache idle)
  /\ (forall key,
        key <> rate_key "198.51.100.7" ->
        Api.rateLimitMap (served 1) !! key = Api.rateLimitMap idle !! key)
  /\ ((forall allowed,
          Api.RateLimitCheck "198.51.100.7" allowed
            ∉ edge_resolution
                ++ [Api.RateLimitCheck "198.51.100.7" true;
                    Api.CacheLookup edge_key false]
                ++ edge_probes "/"
                ++ [Api.CacheWrite edge_key; Api.Respond 200]) ->
      served 1 = idle).
Proof.
  apply (request_touches_two_entries settings internet first_clock idle
           (ask "edge.example" None) (served 1)
           {| Api.status := 200; Api.json := edge_payload |}).
  vm_compute. reflexivity.
Defined.

Ltac no_probe_here :=
  repeat (rewrite filter_cons_False by (cbn; discriminate));
  rewrite ?filter_nil.

Section ProbeBound.

Import Api.

Variables (cfg : config) (w : world) (clk : clock).

Lemma probes_of_resolver (resolver : list event) :
  Forall (fun e => is_resolver e = true) resolver ->
  filter (fun e => is_probe e = true) resolver = [].
Proof.
  induction 1 as [|e resolver He _ IH]; [done|].
  rewrite filter_cons_False; [done|]. by destruct e.
Qed.

Lemma probes_of_probes (calls : list Detect.call) :
  filter (fun e => is_probe e = true) (Probe <$> calls) = Probe <$> calls.
Proof.
  induction calls as [|c calls IH]; [done|]. cbn [fmap list_fmap].
  rewrite filter_cons_True by done. by rewrite IH.
Qed.

Lemma length_concat_le {A B : Type} (f : A -> list B) (n : nat) (l : list A) :
  (forall x, x ∈ l -> (length (f x) <= n)%nat) ->
  (length (concat (f <$> l)) <= n * length l)%nat.
Proof.
  induction l as [|x l IH]; intros Hall; [cbn; lia|].
  cbn. rewrite length_app.
  pose proof (Hall x (list_elem_of_here _ _)).
  assert (length (concat (f <$> l)) <= n * length l)%nat.
  { apply IH. intros y Hy. by apply Hall, list_elem_of_further. }
  lia.
Qed.

Lemma length_planned dw dc targetIP targetPort host wsPath :
  (length (Detect.planned dw dc targetIP targetPort host wsPath) <= 4)%nat.
Proof. unfold Detect.planned. destruct dw, dc; cbn; lia. Qed.

(** The probes of a detection over [targetIPs]: four for each target at
    most. *)
Lemma length_probes targetPort host wsPath targetIPs runs :
  Detect.detectAll (detect cfg w targetPort host wsPath) targetIPs = Some runs ->
  (length (concat (snd <$> runs)) <= 4 * length targetIPs)%nat.
Proof.
  rewrite detectAll_spec. intros [= <-].
  etrans; [apply (length_concat_le snd 4)|by rewrite length_imap].
  intros run Hrun. apply list_elem_of_lookup in Hrun as [i Hi].
  rewrite list_lookup_imap in Hi.
  destruct (targetIPs !! i) as [targetIP|]; [|done]. injection Hi as <-.
  unfold detect.
  destruct (detectSingleIP_calls (DISABLE_WEBSOCKET cfg) (DISABLE_CDN_TRACE cfg)
              (observe w targetIP targetPort host wsPath) targetIP targetPort
              host wsPath i (length targetIPs)) as (k & _ & ->).
  rewrite length_take. pose proof (length_planned (DISABLE_WEBSOCKET cfg)
    (DISABLE_CDN_TRACE cfg) targetIP targetPort host wsPath). lia.
Qed.

Lemma serve_probes st log ip isDomainName targetIPs targetPort host wsPath
    st' r log' :
  serve cfg w clk st log ip isDomainName targetIPs targetPort host wsPath
  = Some (st', r, log') ->
  (length (filter (fun e => is_probe e = true) log')
   <= length (filter (fun e => is_probe e = true) log) + 4 * length targetIPs)%nat.
Proof.
  intros Hserve. apply serve_inv in Hserve as [_ [Hhit|Hmiss]].
  - destruct Hhit as (e & _ & _ & _ & _ & ->).
    rewrite filter_app, length_app. no_probe_here. cbn [length]. lia.
  - destruct Hmiss as (_ & runs & Hruns & _ & _ & _ & ->).
    apply length_probes in Hruns.
    rewrite !filter_app, probes_of_probes, !length_app, length_fmap.
    no_probe_here. cbn [length]. lia.
Qed.

Lemma throttle_probes st log client ip isDomainName targetIPs port host wsPath
    st' r log' :
  throttle cfg w clk st log client ip isDomainName targetIPs port host wsPath
  = Some (st', r, log') ->
  (length (filter (fun e => is_probe e = true) log')
   <= length (filter (fun e => is_probe e = true) log) + 4 * length targetIPs)%nat.
Proof.
  intros Hthrottle. apply throttle_inv in Hthrottle
    as (allowed & limits & _ & [Hlim|[Hport|Hserve]]).
  - destruct Hlim as (_ & _ & _ & ->). rewrite filter_app, length_app.
    no_probe_here. cbn [length]. lia.
  - destruct Hport as (_ & _ & _ & -> & _). rewrite filter_app, length_app.
    no_probe_here. cbn [length]. lia.
  - destruct Hserve as (_ & targetPort & _ & _ & Hserve).
    apply serve_probes in Hserve. rewrite filter_app, length_app in Hserve.
    rewrite filter_cons_False, filter_nil in Hserve by (cbn; discriminate).
    cbn [length] in Hserve. lia.
Qed.

End ProbeBound.

(** X18.  One request makes at most four probe calls for each target and
    probes at most [MAX_IP_COUNT] targets: 200 calls at most, whatever the
    DNS layer answers. *)
Theorem at_most_fifty_targets_are_probed (cfg : Api.config) (w : Api.world)
    (clk : Api.clock) (st : Api.server) (req : Api.request)
    (st' : Api.server) (r : Api.response) (log : list Api.event) :
  Api.api cfg w clk st req = Some (st', r, log) ->
  (length (filter (fun e => Api.is_probe e = true) log)
   <= 4 * Api.MAX_IP_COUNT)%nat.
Proof.
  unfold Api.api, Api.reply.
  destruct (Api.parse req) as [[[[ip port] host] wsPath]|];
    [|destruct (Api.throws req); [done|];
      intros [= _ _ <-]; no_probe_here; cbn [length]; lia].
  destruct (_ && _); [intros [= _ _ <-]; no_probe_here; cbn [length]; lia|].
  unfold Api.route, Api.reply.
  assert (Hlimited : forall resolver targetIPs,
             filter (fun e => Api.is_probe e = true) resolver = [] ->
             (if (Api.MAX_IP_COUNT <? length targetIPs)%nat
              then Some (st,
                         {| Api.status := 400;
                            Api.json :=
                              Api.Failure "IP 数量过多"
                                ("检测 IP 数量不能超过 " +:+ pretty Api.MAX_IP_COUNT
                                   +:+ " 个，当前为 "
                                   +:+ pretty (length targetIPs) +:+ " 个") |},
                         resolver ++ [Api.Respond 400])
              else Api.throttle cfg w clk st resolver (Api.clientIp req) ip
                     (isDomain ip) targetIPs port host wsPath)
             = Some (st', r, log) ->
             (length (filter (fun e => Api.is_probe e = true) log)
              <= 4 * Api.MAX_IP_COUNT)%nat).
  { intros resolver targetIPs Hnone.
    destruct (Nat.ltb_spec Api.MAX_IP_COUNT (length targetIPs)) as [Hmany|Hfew].
    - intros [= _ _ <-]. rewrite filter_app, Hnone. no_probe_here.
      cbn [length app]. lia.
    - intros Hthrottle. apply throttle_probes in Hthrottle.
      rewrite Hnone in Hthrottle. cbn [length] in Hthrottle.
      unfold Api.MAX_IP_COUNT in *. lia. }
  destruct (isDomain ip).
  - destruct (Dns.resolve (Api.dns w) ip) as [[dst res]|]; [|done].
    assert (Hresolver : filter (fun e => Api.is_probe e = true)
                          (Api.Resolve ip :: (Api.Query <$> Dns.queries dst)) = []).
    { apply probes_of_resolver. constructor; [done|].
      apply Forall_fmap, Forall_true. done. }
    destruct res as [[|ip1 ips]|err].
    + intros [= _ _ <-]. rewrite app_comm_cons, filter_app, Hresolver.
      no_probe_here. cbn [length app]. lia.
    + by apply Hlimited.
    + intros [= _ _ <-]. rewrite app_comm_cons, filter_app, Hresolver.
      no_probe_here. cbn [length app]. lia.
  - by apply Hlimited.
Qed.

Lemma at_most_fifty_targets_are_probed_witness :
  (length (filter (fun e => Api.is_probe e = true)
             (edge_resolution
                ++ [Api.RateLimitCheck "198.51.100.7" true;
                    Api.CacheLookup edge_key false]
                ++ edge_probes "/"
                ++ [Api.CacheWrite edge_key; Api.Respond 200]))
   <= 4 * Api.MAX_IP_COUNT)%nat.
Proof.
  apply (at_most_fifty_targets_are_probed settings internet first_clock idle
           (ask "edge.example" None) (served 1)
           {| Api.status := 200; Api.json := edge_payload |}).
  vm_compute. reflexivity.
Defined.


(** ** The probes and the fields of a result *)

(** ** The collaborators *)

Lemma caught_settles (err : thrown) :
  Geo.caught err = Resolved None
  \/ exists message, Geo.caught err = Rejected (ErrorObject message).
Proof. unfold Geo.caught. destruct (read_message err); eauto. Qed.

(** [lookupGeoIP] rejects with an [Error] only, and what it resolves with
    is [null] or an object with keys. *)
Lemma lookupGeoIP_settles (r : Geo.readers) (ip : string) :
  Geo.lookupGeoIP r ip = Resolved None
  \/ (exists kv o, Geo.lookupGeoIP r ip = Resolved (Some (kv :: o)))
  \/ exists message, Geo.lookupGeoIP r ip = Rejected (ErrorObject message).
Proof.
  unfold Geo.lookupGeoIP.
  assert (Hcaught : forall err,
             Geo.caught err = Resolved None
             \/ (exists kv o, Geo.caught err = Resolved (Some (kv :: o)))
             \/ exists message, Geo.caught err = Rejected (ErrorObject message)).
  { intros err. destruct (caught_settles err); auto. }
  destruct (Geo.cityReader r) as [getCity|], (Geo.asnReader r) as [getAsn|];
    cbn [Geo.consult]; [| | |by left].
  - destruct (getCity ip) as [c| |err], (getAsn ip) as [a| |err'];
      auto; right; left; cbn; eauto.
  - destruct (getCity ip) as [c| |err]; auto. right. left. cbn. eauto.
  - destruct (getAsn ip) as [a| |err]; auto. right. left. cbn. eauto.
Qed.

Lemma testTLS_settles (x : Tls.exchange) :
  Tls.testTLS x = Resolved true
  \/ exists message,
      Tls.testTLS x = Rejected (ErrorObject message) /\ Js.falsy message = false.
Proof.
  destruct x as [statusCode|message|]; cbn; [by left|right..].
  - eexists. split; [reflexivity|]. by destruct message.
  - eexists. split; [reflexivity|done].
Qed.

Lemma classify_nonempty (errorMsg errorCode : string) :
  Js.falsy (Ws.classify errorMsg errorCode) = false.
Proof.
  unfold Ws.classify. repeat (destruct (_ || _); [reflexivity|]).
  by destruct errorMsg.
Qed.

Lemma deliver_settled (events : list Ws.event) (outcome : settled Detect.WsInfo) :
  fold_left Ws.deliver events (Some outcome) = Some outcome.
Proof. induction events as [|e events IH]; [done|]. exact IH. Qed.

Lemma deliver_closes (events : list Ws.event) :
  Forall (fun e => e = Ws.Close) events ->
  fold_left Ws.deliver events None = None.
Proof.
  induction events as [|e events IH]; [done|]. intros Hall.
  apply Forall_cons in Hall as [-> Hall]. by apply IH.
Qed.

(** An outcome the events produce is a connection or an [Error]. *)
Lemma deliver_outcome (events : list Ws.event) (outcome : settled Detect.WsInfo) :
  fold_left Ws.deliver events None = Some outcome ->
  (exists protocol,
      outcome = Resolved {| Detect.connected := true; Detect.protocol := protocol |})
  \/ exists message,
      outcome = Rejected (ErrorObject message) /\ Js.falsy message = false.
Proof.
  induction events as [|e events IH]; [done|]. cbn [fold_left].
  destruct e as [protocol|message code|]; cbn [Ws.deliver]; [| |exact IH].
  - rewrite deliver_settled. intros [= <-]. left. eauto.
  - rewrite deliver_settled. intros [= <-]. right. eexists.
    split; [reflexivity|apply classify_nonempty].
Qed.

Lemma testWebSocket_settles (s : Ws.session) :
  (exists protocol,
      Ws.testWebSocket s
      = Resolved {| Detect.connected := true; Detect.protocol := protocol |})
  \/ exists message,
      Ws.testWebSocket s = Rejected (ErrorObject message)
      /\ Js.falsy message = false.
Proof.
  destruct s as [err|events]; cbn [Ws.testWebSocket].
  - right. eexists. split; [reflexivity|]. by destruct err.
  - destruct (fold_left Ws.deliver events None) as [outcome|] eqn:Hfold.
    + by apply deliver_outcome in Hfold.
    + right. eexists. split; [reflexivity|done].
Qed.

(** X19.  [testWebSocket] is settled by the first ['open'] or ['error']
    event of the socket: ['close'] events settle nothing, later events
    change nothing, and without such an event the timer rejects with the
    timeout message.  A rejection always carries an [Error] whose message
    is not empty. *)
Theorem first_event_settles_the_probe (closes later : list Ws.event)
    (e : Ws.event) :
  Forall (fun e => e = Ws.Close) closes ->
  Ws.testWebSocket (Ws.Events closes)
  = Rejected (ErrorObject "连接超时（3秒）")
  /\ (e <> Ws.Close ->
      Ws.testWebSocket (Ws.Events (closes ++ e :: later))
      = match e with
        | Ws.Open protocol =>
            Resolved {| Detect.connected := true;
                        Detect.protocol :=
                          if Js.falsy protocol then None else Some protocol |}
        | Ws.Error message code =>
            Rejected (ErrorObject (Ws.classify message code))
        | Ws.Close => Ws.testWebSocket (Ws.Events later)
        end
      /\ forall err,
          Ws.testWebSocket (Ws.Events (closes ++ e :: later)) = Rejected err ->
          exists message, err = ErrorObject message /\ Js.falsy message = false).
Proof.
  intros Hcloses. split.
  - cbn [Ws.testWebSocket]. by rewrite deliver_closes.
  - intros He. assert (Hfold : fold_left Ws.deliver (closes ++ e :: later) None
                               = Ws.deliver None e).
    { rewrite fold_left_app, deliver_closes by done. cbn [fold_left].
      destruct e; [apply deliver_settled..|done]. }
    split.
    + cbn [Ws.testWebSocket]. rewrite Hfold. by destruct e.
    + intros err Herr.
      destruct (testWebSocket_settles (Ws.Events (closes ++ e :: later)))
        as [[protocol Hok]|(message & Hno & Hne)]; [congruence|].
      rewrite Hno in Herr. injection Herr as <-. eauto.
Qed.

Lemma first_event_settles_the_probe_witness :
  Ws.testWebSocket (Ws.Events [Ws.Close])
  = Rejected (ErrorObject "连接超时（3秒）")
  /\ (Ws.Error "connect ECONNREFUSED 192.0.2.1:443" "ECONNREFUSED" <> Ws.Close ->
      Ws.testWebSocket
        (Ws.Events ([Ws.Close]
                      ++ Ws.Error "connect ECONNREFUSED 192.0.2.1:443" "ECONNREFUSED"
                      :: [Ws.Open ""; Ws.Close]))
      = Rejected (ErrorObject
                    (Ws.classify "connect ECONNREFUSED 192.0.2.1:443" "ECONNREFUSED"))
      /\ forall err,
          Ws.testWebSocket
            (Ws.Events ([Ws.Close]
                          ++ Ws.Error "connect ECONNREFUSED 192.0.2.1:443" "ECONNREFUSED"
                          :: [Ws.Open ""; Ws.Close]))
          = Rejected err ->
          exists message, err = ErrorObject message /\ Js.falsy message = false).
Proof.
  apply (first_event_settles_the_probe [Ws.Close] [Ws.Open ""; Ws.Close]
           (Ws.Error "connect ECONNREFUSED 192.0.2.1:443" "ECONNREFUSED")).
  repeat constructor.
Defined.

Section RealProbes.

Import Detect.

Variables (dw dc : bool) (x : Probes.raw).
Variables (targetIP : string) (targetPort : Z) (host wsPath : string).

Lemma observe_lookupGeoIP :
  lookupGeoIP (Probes.observe x targetIP)
  = Geo.lookupGeoIP (Probes.readers x) targetIP.
Proof. reflexivity. Qed.

Lemma observe_testTLS :
  testTLS (Probes.observe x targetIP) = Resolved tt
  \/ exists message,
      testTLS (Probes.observe x targetIP) = Rejected (ErrorObject message).
Proof.
  cbn. destruct (testTLS_settles (Probes.tls x)) as [->|(message & -> & _)]; eauto.
Qed.

Lemma observe_testWebSocket :
  (exists protocol,
      testWebSocket (Probes.observe x targetIP)
      = Resolved (Some {| connected := true; protocol := protocol |}))
  \/ exists message,
      testWebSocket (Probes.observe x targetIP) = Rejected (ErrorObject message).
Proof.
  cbn. destruct (testWebSocket_settles (Probes.ws x))
    as [[protocol ->]|(message & -> & _)]; eauto.
Qed.

(** With the collaborators of the source no exception leaves the body of
    [detectSingleIP]. *)
Lemma escapes_observe :
  escapes dw dc (Probes.observe x targetIP) targetIP targetPort host wsPath = None.
Proof.
  apply escapes_none.
  - intros err. rewrite observe_lookupGeoIP.
    destruct (lookupGeoIP_settles (Probes.readers x) targetIP)
      as [->|[(kv & o & ->)|[message ->]]]; [done|done|].
    intros [= <-]. eauto.
  - intros err. destruct observe_testTLS as [->|[message ->]]; [done|].
    intros [= <-]. eauto.
  - intros err. destruct observe_testWebSocket as [[protocol ->]|[message ->]];
      [done|]. intros [= <-]. eauto.
Qed.

End RealProbes.

(** X20.  With the collaborators of the source ([lookupGeoIP],
    [testTLS], [testWebSocket], [testCDNTrace]) no exception leaves the
    body of [detectSingleIP]: the result has no [error] field, is for the
    IP it was asked about, and all the planned calls are made. *)
Theorem detection_with_the_real_probes_has_no_error (dw dc : bool)
    (x : Probes.raw) (targetIP : string) (targetPort : Z) (host wsPath : string)
    (index total : nat) :
  let run :=
    Detect.detectSingleIP dw dc (Probes.observe x targetIP)
      targetIP targetPort host wsPath index total in
  Detect.error run.1 = None
  /\ Detect.ip run.1 = targetIP
  /\ run.2 = Detect.planned dw dc targetIP targetPort host wsPath.
Proof.
  intros run. unfold run. split; [|split].
  - rewrite detectSingleIP_error. apply escapes_observe.
  - apply detectSingleIP_ip.
  - pose proof (escapes_observe dw dc x targetIP targetPort host wsPath) as Hnone.
    unfold Detect.escapes in Hnone. unfold Detect.detectSingleIP.
    destruct (Detect.tryBody dw dc (Probes.observe x targetIP) targetIP
                targetPort host wsPath (Detect.fresh targetIP))
      as [st message] eqn:Hbody.
    cbn [snd] in Hnone. subst message. cbn [snd].
    change st with (st, @None string).1. rewrite <- Hbody.
    unfold Detect.tryBody, Detect.andThen.
    pose proof (geoBlock_calls (Probes.observe x targetIP) targetIP
                  (Detect.fresh targetIP)) as Hgeo.
    destruct (Detect.geoBlock _ _ _) as [st1 [m1|]] eqn:H1.
    { unfold Detect.tryBody, Detect.andThen in Hbody. by rewrite H1 in Hbody. }
    pose proof (tlsBlock_calls (Probes.observe x targetIP) targetIP targetPort
                  host st1) as Htls.
    destruct (Detect.tlsBlock _ _ _ _ st1) as [st2 [m2|]] eqn:H2.
    { unfold Detect.tryBody, Detect.andThen in Hbody.
      by rewrite H1, H2 in Hbody. }
    pose proof (wsBlock_calls dw (Probes.observe x targetIP) targetIP targetPort
                  host wsPath st2) as Hws.
    destruct (Detect.wsBlock _ _ _ _ _ _ st2) as [st3 [m3|]] eqn:H3.
    { unfold Detect.tryBody, Detect.andThen in Hbody.
      by rewrite H1, H2, H3 in Hbody. }
    pose proof (cdnBlock_calls dc (Probes.observe x targetIP) targetIP targetPort
                  host st3) as Hcdn.
    cbn [fst] in *. rewrite Hcdn, Hws, Htls, Hgeo. unfold Detect.planned.
    by destruct dw, dc.
Qed.

Ltac settle_probes x targetIP :=
  unfold Detect.detectSingleIP, Detect.tryBody, Detect.andThen, Detect.geoBlock,
    Detect.tlsBlock, Detect.wsBlock, Detect.cdnBlock, Detect.warn;
  cbn [Detect.lookupGeoIP Detect.testTLS Detect.testWebSocket Detect.cdnExchange
       Detect.tls_elapsed Detect.ws_elapsed Probes.observe];
  destruct (lookupGeoIP_settles (Probes.readers x) targetIP)
    as [->|[(?kv & ?o & ->)|[?message ->]]];
  destruct (Probes.tls x) as [?statusCode|[|? ?]|];
  destruct (testWebSocket_settles (Probes.ws x))
    as [[?protocol ->]|(?message & -> & _)].

(** X21.  What the three checks of a result mean, in terms of what the
    network delivered: [tls_detect] holds when the HTTPS request got a
    response, whatever its status; [ws_real_connect] when the WebSocket
    probe is enabled and resolved; [cdn_trace] when the trace is enabled
    and the answer had status 200 and a body that is not blank (one that
    holds more than white space and line terminators, as [trim] reads them
    in the decoded text).  The TLS latency is always recorded, the
    WebSocket latency is 0 when that probe is disabled. *)
Theorem checks_say_what_the_probes_saw (dw dc : bool)
    (x : Probes.raw) (targetIP : string) (targetPort : Z) (host wsPath : string)
    (index total : nat) :
  let r :=
    (Detect.detectSingleIP dw dc (Probes.observe x targetIP)
       targetIP targetPort host wsPath index total).1 in
  Detect.tls_detect (Detect.checks r)
  = match Probes.tls x with
    | Tls.Response _ => true
    | _ => false
    end
  /\ Detect.ws_real_connect (Detect.checks r)
     = negb dw && match Ws.testWebSocket (Probes.ws x) with
                  | Resolved _ => true
                  | Rejected _ => false
                  end
  /\ Detect.cdn_trace (Detect.checks r)
     = negb dc && match Probes.cdn x with
                  | Cdn.Response statusCode chunks =>
                      (statusCode =? 200)
                      && negb (Js.isBlank (Cdn.body chunks))
                  | _ => false
                  end
  /\ Detect.tls_handshake_ms (Detect.latency r) = Some (Probes.tls_elapsed x)
  /\ Detect.ws_connect_ms (Detect.latency r)
     = Some (if dw then 0 else Probes.ws_elapsed x).
Proof.
  intros r. unfold r. clear r. settle_probes x targetIP;
    destruct dw, dc; cbn; try done;
    destruct (Probes.cdn x) as [thrown'|statusCode' chunks|message'|];
    cbn; try done;
    unfold Cdn.onEnd;
    destruct (statusCode' =? 200); cbn; try done;
    destruct (Js.isBlank (Cdn.body chunks)); cbn; try done;
    destruct (String.eqb _ "on"); done.
Qed.

Section GeoField.

Import Detect.

Variables (dw dc : bool) (obs : observation).
Variables (targetIP : string) (targetPort : Z) (host wsPath : string).

Lemma andThen_after {A : Type} (f : detection -> A) (b1 b2 : block) :
  (forall st, f (result (b2 st).1) = f (result st)) ->
  forall st, f (result ((b1 >-> b2) st).1) = f (result (b1 st).1).
Proof.
  intros H2 st. unfold andThen. destruct (b1 st) as [st' [message|]]; [done|].
  apply H2.
Qed.

Lemma tlsBlock_geoip st :
  geoip (result (tlsBlock obs targetIP targetPort host st).1) = geoip (result st).
Proof.
  unfold tlsBlock, warn. destruct (testTLS obs) as [u|err]; [done|].
  by destruct (read_message err).
Qed.

Lemma wsBlock_geoip st :
  geoip (result (wsBlock dw obs targetIP targetPort host wsPath st).1)
  = geoip (result st).
Proof.
  unfold wsBlock, warn. destruct dw; [done|].
  destruct (testWebSocket obs) as [[info|]|err]; try done.
  by destruct (read_message err).
Qed.

Lemma cdnBlock_geoip st :
  geoip (result (cdnBlock dc obs targetIP targetPort host st).1) = geoip (result st).
Proof.
  unfold cdnBlock, warn. destruct dc; [done|].
  destruct (Cdn.testCDNTrace (cdnExchange obs)) as [t|err].
  - by destruct (Js.falsy (Cdn.warp t)).
  - by destruct (read_message err).
Qed.

(** The [geoip] field of a result is what the lookup resolved with, when
    that is an object with keys, and [null] otherwise. *)
Lemma detectSingleIP_geoip index total :
  geoip (detectSingleIP dw dc obs targetIP targetPort host wsPath index total).1
  = match lookupGeoIP obs with
    | Resolved (Some ((_ :: _) as geoipData)) => Some geoipData
    | _ => None
    end.
Proof.
  assert (Hbody : geoip (result (tryBody dw dc obs targetIP targetPort host wsPath
                                   (fresh targetIP)).1)
                  = geoip (result (geoBlock obs targetIP (fresh targetIP)).1)).
  { unfold tryBody.
    rewrite (andThen_after geoip _ _ cdnBlock_geoip).
    rewrite (andThen_after geoip _ _ wsBlock_geoip).
    by rewrite (andThen_after geoip _ _ tlsBlock_geoip). }
  unfold detectSingleIP.
  destruct (tryBody _ _ _ _ _ _ _ _) as [st [message|]]; cbn [fst snd] in *;
    cbn [set_error geoip]; rewrite Hbody; clear;
    unfold geoBlock, warn;
    (destruct (lookupGeoIP obs) as [[[|kv o]|]|err]; try done;
     by destruct (read_message err)).
Qed.

End GeoField.

Lemma get_string_or_null (s : string) :
  (if negb (Js.falsy s) then Detect.VString s else Detect.VNull)
  = Geo.string_or_null s.
Proof. by destruct s. Qed.

Lemma get_number_or_null (n : option Z) :
  (if Detect.truthy (Geo.number_or_null n) then Geo.number_or_null n
   else Detect.VNull)
  = Geo.number_or_null n.
Proof.
  destruct n as [n|]; [|done]. unfold Geo.number_or_null.
  destruct (n =? 0) eqn:Hn; [done|]. cbn. by rewrite Hn.
Qed.

(** X22.  The [geoip] object of a result in the response, in terms of
    the two database records: it is absent when neither reader finds a
    record or a reader throws; otherwise it has all seven fields, and a
    field is [null] when the record it comes from is missing, or its value
    is missing, an empty string or the number 0. *)
Theorem geoip_of_a_result (dw dc : bool) (x : Probes.raw) (targetIP : string)
    (targetPort : Z) (host wsPath : string) (index total : nat) :
  let r :=
    (Detect.detectSingleIP dw dc (Probes.observe x targetIP)
       targetIP targetPort host wsPath index total).1 in
  Api.geoip (Api.clean r)
  = match Geo.consult (Geo.cityReader (Probes.readers x)) targetIP,
          Geo.consult (Geo.asnReader (Probes.readers x)) targetIP with
    | Geo.Throws _, _ | _, Geo.Throws _ | Geo.NotFound, Geo.NotFound => None
    | cityAnswer, asnAnswer =>
        let city f := match cityAnswer with
                      | Geo.Found c => f c
                      | _ => Detect.VNull
                      end in
        let asn f := match asnAnswer with
                     | Geo.Found a => f a
                     | _ => Detect.VNull
                     end in
        Some
          {| Api.city := city (fun c =>
               Geo.string_or_null
                 (Js.or_else (Geo.city_en c) (Js.or_else (Geo.city_zh c) "")));
             Api.country := city (fun c =>
               Geo.string_or_null (Js.or_else (Geo.iso_code c) ""));
             Api.countryName := city (fun c =>
               Geo.string_or_null
                 (Js.or_else (Geo.country_en c) (Js.or_else (Geo.country_zh c) "")));
             Api.latitude := city (fun c =>
               match Geo.location c with
               | Some (latitude, _) => Geo.number_or_null latitude
               | None => Detect.VNull
               end);
             Api.longitude := city (fun c =>
               match Geo.location c with
               | Some (_, longitude) => Geo.number_or_null longitude
               | None => Detect.VNull
               end);
             Api.asn := asn (fun a =>
               Geo.number_or_null (Geo.autonomous_system_number a));
             Api.organization := asn (fun a =>
               Geo.string_or_null
                 (Js.or_else (Geo.autonomous_system_organization a) "")) |}
    end.
Proof.
  intros r. unfold r. clear r. unfold Api.clean. cbn [Api.geoip].
  rewrite detectSingleIP_geoip. cbn [Detect.lookupGeoIP Probes.observe].
  unfold Geo.lookupGeoIP.
  destruct (Geo.cityReader (Probes.readers x)) as [getCity|],
    (Geo.asnReader (Probes.readers x)) as [getAsn|]; cbn [Geo.consult];
    try done.
  - destruct (getCity targetIP) as [c| |err].
    + destruct (getAsn targetIP) as [a| |err'].
      * cbn. unfold Api.clean_geoip, Detect.get_or_null.
        destruct (Geo.location c) as [[latitude longitude]|]; cbn;
          rewrite ?get_string_or_null, ?get_number_or_null; reflexivity.
      * cbn. unfold Api.clean_geoip, Detect.get_or_null.
        destruct (Geo.location c) as [[latitude longitude]|]; cbn;
          rewrite ?get_string_or_null, ?get_number_or_null; reflexivity.
      * unfold Geo.caught. by destruct (read_message err').
    + destruct (getAsn targetIP) as [a| |err']; [|done|].
      * cbn. unfold Api.clean_geoip, Detect.get_or_null. cbn.
        rewrite ?get_string_or_null, ?get_number_or_null. reflexivity.
      * unfold Geo.caught. by destruct (read_message err').
    + unfold Geo.caught. by destruct (read_message err).
  - destruct (getCity targetIP) as [c| |err]; [|done|].
    + cbn. unfold Api.clean_geoip, Detect.get_or_null.
      destruct (Geo.location c) as [[latitude longitude]|]; cbn;
        rewrite ?get_string_or_null, ?get_number_or_null; reflexivity.
    + unfold Geo.caught. by destruct (read_message err).
  - destruct (getAsn targetIP) as [a| |err]; [|done|].
    + cbn. unfold Api.clean_geoip, Detect.get_or_null. cbn.
      rewrite ?get_string_or_null, ?get_number_or_null. reflexivity.
    + unfold Geo.caught. by destruct (read_message err).
Qed.

(** X23.  In every result of the response [cdn.warp] is ["on"] or
    ["off"], and ["on"] only when the [cdn_trace] check passed; the
    [websocket] object is there exactly when the [ws_real_connect] check
    passed, and then says [connected: true]. *)
Theorem result_fields_are_consistent (dw dc : bool) (x : Probes.raw)
    (targetIP : string) (targetPort : Z) (host wsPath : string)
    (index total : nat) :
  let c :=
    Api.clean (Detect.detectSingleIP dw dc (Probes.observe x targetIP)
                 targetIP targetPort host wsPath index total).1 in
  (Api.cdn_warp c = "on" \/ Api.cdn_warp c = "off")
  /\ (Api.cdn_warp c = "on" -> Detect.cdn_trace (Api.checks c) = true)
  /\ (is_Some (Api.websocket c)
      <-> Detect.ws_real_connect (Api.checks c) = true)
  /\ (forall info, Api.websocket c = Some info -> Detect.connected info = true).
Proof.
  intros c. unfold c. clear c. unfold Api.clean.
  cbn [Api.cdn_warp Api.checks Api.websocket].
  settle_probes x targetIP;
    destruct dw, dc; cbn;
    try (destruct (Probes.cdn x) as [thrown'|statusCode' chunks|message'|];
         cbn;
         try unfold Cdn.onEnd;
         try (destruct (statusCode' =? 200); cbn;
              try (destruct (Js.isBlank (Cdn.body chunks)); cbn;
                   try destruct (String.eqb _ "on"); cbn)));
    (split; [auto|]; split; [done|]; split;
     [split; [done|try done; eauto]|by intros info [= <-]]).
Qed.

(** ** The identity of the client and the logger *)

Lemma rev_eq_nil (s : string) : Js.rev s = "" -> s = "".
Proof.
  destruct s as [|c s]; [done|]. rewrite rev_cons. by destruct (Js.rev s).
Qed.

Lemma forall_chars_rev p (s : string) :
  Js.forall_chars p (Js.rev s) = Js.forall_chars p s.
Proof.
  induction s as [|c s IH]; [done|].
  rewrite rev_cons, forall_chars_append, IH. cbn.
  by rewrite andb_true_r, andb_comm.
Qed.

Lemma drop_while_nil p (s : string) :
  Js.drop_while p s = "" <-> Js.forall_chars p s = true.
Proof.
  induction s as [|c s IH]; [done|]. cbn. destruct (p c); [exact IH|done].
Qed.

(** The two ways the source tests for a blank string agree. *)
Lemma trim_falsy (s : string) : Js.falsy (Js.trim s) = Js.trim_is_empty s.
Proof.
  unfold Js.trim, Js.trim_is_empty.
  destruct (Js.forall_chars Js.isWhiteSpace s) eqn:Hall.
  - apply drop_while_nil in Hall. by rewrite Hall.
  - destruct (Js.rev _) eqn:Hrev; [|done].
    apply rev_eq_nil, drop_while_nil in Hrev. rewrite forall_chars_rev in Hrev.
    destruct (Js.drop_while Js.isWhiteSpace s) as [|c t] eqn:Hdrop.
    + apply drop_while_nil in Hdrop. congruence.
    + assert (Hc : Js.isWhiteSpace c = false).
      { clear -Hdrop. induction s as [|a s IH]; [done|]. cbn in Hdrop.
        destruct (Js.isWhiteSpace a) eqn:Ha; [auto|]. by injection Hdrop as <- _. }
      cbn in Hrev. by rewrite Hc in Hrev.
Qed.

Lemma or_else_nonempty (a : option string) (b : string) :
  Js.falsy b = false -> Js.falsy (Js.or_else a b) = false.
Proof. intros Hb. unfold Js.or_else. destruct a as [[|c s]|]; done. Qed.

(** X24.  [getClientIP] never returns an empty string; when the first
    element of the [X-Forwarded-For] header is not blank, it returns that
    element, trimmed, whatever the other sources say; and when no source
    is there it returns ["unknown"]. *)
Theorem getClientIP_prefers_the_forwarded_header (req : Client.incoming) :
  Js.falsy (Client.getClientIP req) = false
  /\ (forall header,
        Client.x_forwarded_for req = Some header ->
        let first := hd "" (Js.split "," header) in
        Js.trim_is_empty first = false ->
        Client.getClientIP req = Js.trim first)
  /\ (Client.x_forwarded_for req = None ->
      Client.x_real_ip req = None ->
      Client.ip req = None ->
      Client.connection_remoteAddress req = None ->
      Client.socket_remoteAddress req = None ->
      Client.getClientIP req = "unknown").
Proof.
  split; [|split].
  - unfold Client.getClientIP. by repeat apply or_else_nonempty.
  - intros header Hheader first Hfirst. unfold Client.getClientIP, Client.forwarded.
    rewrite Hheader. cbn [fmap option_fmap option_map]. unfold Js.or_else at 1.
    fold first. by rewrite trim_falsy, Hfirst.
  - intros H1 H2 H3 H4 H5. unfold Client.getClientIP, Client.forwarded.
    by rewrite H1, H2, H3, H4, H5.
Qed.

Lemma or_info_range (key : string) : 1 <= Log.or_info key <= 3.
Proof.
  unfold Log.or_info, Log.LOG_LEVELS. cbn [Js.assoc].
  repeat (destruct (String.eqb _ key); [cbn; lia|]). lia.
Qed.

(** X25.  Whatever [LOG_LEVEL] is set to, [log] writes a [DEBUG] message
    exactly when it writes an [INFO] message (the level number 0 of
    [DEBUG] is falsy and falls back to that of [INFO]), an [ERROR] message
    is always written, to [console.error], and the setting [DEBUG] gives
    the same threshold as [INFO]. *)
Theorem debug_is_logged_like_info (upper : string) :
  let threshold := Log.currentLogLevel upper in
  Log.log threshold Log.DEBUG = Log.log threshold Log.INFO
  /\ Log.log threshold Log.ERROR = Some Log.console_error
  /\ (Log.log threshold Log.INFO = Some Log.console_log <-> threshold = 1)
  /\ Log.currentLogLevel "DEBUG" = Log.currentLogLevel "INFO".
Proof.
  intros threshold. pose proof (or_info_range upper) as Hrange.
  fold (Log.currentLogLevel upper) in Hrange. fold threshold in Hrange.
  unfold Log.log. cbn [Log.name].
  change (Log.or_info "DEBUG") with 1. change (Log.or_info "INFO") with 1.
  change (Log.or_info "ERROR") with 3.
  split; [done|]. split; [|split; [|done]].
  - destruct (Z.ltb_spec 3 threshold); [lia|done].
  - destruct (Z.ltb_spec 1 threshold); split; try done; lia.
Qed.
